(** * The n-puzzle notebook: boards, moves, heuristics, A* and beam search

    A shallow embedding of [n-puzzle.ipynb].  Boards are numpy arrays of
    shape [(PUZZLE_DIM, PUZZLE_DIM)]; they are modelled as lists of rows.
    Python exceptions are modelled by an error monad, the [while] loops by
    fuel, the dictionary of goal positions by a [gmap] and the closed and
    visited sets by [gset]s. *)

From Stdlib Require Import PrimFloat.
From Stdlib Require Uint63.
From Stdlib Require Import ZArith Lia.
From Stdlib Require Sorted.
From stdpp Require Import base numbers list gmap sets.

Local Open Scope Z_scope.
Set Warnings "-inexact-float".

(** ** Exceptions *)

Inductive exn := IndexError | KeyError | ValueError | OverflowError.

Inductive result (A : Type) :=
  | Ok (a : A)
  | Raise (e : exn).
Arguments Ok {A} a.
Arguments Raise {A} e.

Global Instance result_ret : MRet result := λ A, Ok.
Global Instance result_bind : MBind result := λ A B f m,
  match m with
  | Ok a => f a
  | Raise e => Raise e
  end.

(** [for x in l: body], threading the loop-carried variables [s]. *)
Fixpoint for_each {A S : Type} (l : list A) (body : S → A → result S) (s : S)
  : result S :=
  match l with
  | [] => Ok s
  | x :: l' => s' ← body s x; for_each l' body s'
  end.

(** ** Boards and actions *)

(** The arrays of the program are two-dimensional; an array is the list
    of its rows.  Arrays of one or of three and more dimensions, on which
    the unpacking [x, y = ...] of [available_actions] raises [ValueError],
    are not in this type. *)
Abbreviation ndarray := (list (list Z)).
Abbreviation pos := (Z * Z)%type.

(** [action = namedtuple('Action', ['pos1', 'pos2'])] *)
Record Action := action { pos1 : pos; pos2 : pos }.

Global Instance Action_eq_dec : EqDecision Action.
Proof. solve_decision. Defined.

(** numpy's treatment of one Python integer as the index on an axis of
    length [n]: [0 <= i < n] is taken as is, [-n <= i < 0] counts from the
    end, anything else raises.  The exception is [IndexError], except for
    an integer of [2**63 .. 2**64 - 1], which numpy reads as an unsigned
    64-bit number and fails to convert to its signed index type, with
    [OverflowError]. *)
Definition norm_index (n : nat) (i : Z) : result nat :=
  if bool_decide (0 ≤ i < Z.of_nat n) then Ok (Z.to_nat i)
  else if bool_decide (- Z.of_nat n ≤ i < 0) then Ok (Z.to_nat (i + Z.of_nat n))
  else if bool_decide (2 ^ 63 ≤ i < 2 ^ 64) then Raise OverflowError
  else Raise IndexError.

(** The number of columns of an array given as a list of rows. *)
Definition ncols (s : ndarray) : nat := length (default [] (head s)).

(** The place that a pair [p] of integers indexes in [s] *)
Definition locate (s : ndarray) (p : pos) : result (nat * nat) :=
  i ← norm_index (length s) p.1;
  j ← norm_index (ncols s) p.2;
  Ok (i, j).

Definition cell (s : ndarray) (ij : nat * nat) : option Z :=
  s !! ij.1 ≫= (.!! ij.2).
Global Arguments cell : simpl never.

(** [state[p]] for a pair [p] of integers *)
Definition getitem (s : ndarray) (p : pos) : result Z :=
  ij ← locate s p;
  match cell s ij with
  | Some v => Ok v
  | None => Raise IndexError
  end.

(** [state[p] = v] for a pair [p] of integers, as a function of the array's
    contents *)
Definition setitem (s : ndarray) (p : pos) (v : Z) : result ndarray :=
  ij ← locate s p;
  Ok (alter (<[ij.2:=v]>) ij.1 s).

(** [np.where(state == 0)], as the list of the matching positions in
    row-major order. *)
Fixpoint row_where_zero (row : list Z) (x y : Z) : list pos :=
  match row with
  | [] => []
  | v :: row' =>
      (if bool_decide (v = 0) then [(x, y)] else []) ++ row_where_zero row' x (y + 1)
  end.

Fixpoint where_zero_from (s : ndarray) (x : Z) : list pos :=
  match s with
  | [] => []
  | row :: s' => row_where_zero row x 0 ++ where_zero_from s' (x + 1)
  end.

Definition where_zero (s : ndarray) : list pos := where_zero_from s 0.

(** [range(a, b)] *)
Definition range (a b : Z) : list Z := seqZ a (b - a).

(** [np.array(l).reshape((r, c))] *)
Definition reshape (r c : Z) (l : list Z) : result ndarray :=
  if bool_decide (0 ≤ r ∧ 0 ≤ c ∧ r * c = Z.of_nat (length l)) then
    Ok ((λ x, take (Z.to_nat c) (drop (x * Z.to_nat c) l)) <$> seq 0 (Z.to_nat r))
  else Raise ValueError.

(** [sum(...)] over integers *)
Definition sum (l : list Z) : Z := foldr Z.add 0 l.

Section Puzzle.

Variable PUZZLE_DIM : Z.

(** *** Moves *)

Definition available_actions (s : ndarray) : result (list Action) :=
  match where_zero s with
  | [] => Raise IndexError
  | (x, y) :: _ =>
      let actions := [] in
      let actions :=
        if bool_decide (x > 0) then actions ++ [action (x, y) (x - 1, y)] else actions in
      let actions :=
        if bool_decide (x < PUZZLE_DIM - 1) then actions ++ [action (x, y) (x + 1, y)] else actions in
      let actions :=
        if bool_decide (y > 0) then actions ++ [action (x, y) (x, y - 1)] else actions in
      let actions :=
        if bool_decide (y < PUZZLE_DIM - 1) then actions ++ [action (x, y) (x, y + 1)] else actions in
      Ok actions
  end.

(** The value of [do_action]: the copy, with the tuple assignment
    [new_state[pos1], new_state[pos2] = new_state[pos2], new_state[pos1]]
    carried out in Python's order (both reads, then the two writes). *)
Definition do_action (s : ndarray) (a : Action) : result ndarray :=
  let new_state := s in
  t1 ← getitem new_state (pos2 a);
  t2 ← getitem new_state (pos1 a);
  new_state ← setitem new_state (pos1 a) t1;
  new_state ← setitem new_state (pos2 a) t2;
  Ok new_state.

(** *** Goal *)

(** [np.array([i for i in range(1, PUZZLE_DIM**2)] + [0]).reshape(...)] *)
Definition goal : result ndarray :=
  reshape PUZZLE_DIM PUZZLE_DIM (range 1 (PUZZLE_DIM ^ 2) ++ [0]).

Definition is_goal (s : ndarray) : result bool :=
  goal ← goal;
  Ok (bool_decide (s = goal)).

(** [np.sum(state != goal)]; arrays whose shape differs from the goal's are
    outside the model (numpy's broadcasting is not reproduced): the model
    raises [ValueError] for them. *)
Definition difference_from_goal (s : ndarray) : result Z :=
  goal ← goal;
  if bool_decide (length s = length goal ∧
                  Forall2 (λ r1 r2 : list Z, length r1 = length r2) s goal) then
    Ok (sum ((λ '(a, b), if bool_decide (a ≠ b) then 1 else 0) <$>
               zip (mjoin s) (mjoin goal)))
  else Raise ValueError.

(** *** Heuristics *)

Definition goal_positions : gmap Z (Z * Z) :=
  list_to_map ((λ i, (i, (i `div` PUZZLE_DIM, i `mod` PUZZLE_DIM))) <$>
                 range 1 (PUZZLE_DIM ^ 2)).

Definition manhattan_distance (s : ndarray) : result Z :=
  let distance := 0 in
  for_each (range 0 PUZZLE_DIM) (λ distance x,
    for_each (range 0 PUZZLE_DIM) (λ distance y,
      value ← getitem s (x, y);
      if bool_decide (value ≠ 0) then
        match goal_positions !! value with
        | Some (goal_x, goal_y) =>
            Ok (distance + (Z.abs (x - goal_x) + Z.abs (y - goal_y)))
        | None => Raise KeyError
        end
      else Ok distance) distance) distance.

(** [sum((x > y) for j, x in enumerate(l) for y in l[j + 1:])] *)
Definition inversions (l : list Z) : Z :=
  sum (mjoin (imap (λ j x,
    (λ y, if bool_decide (x > y) then 1 else 0) <$> drop (S j) l) l)).

(** [state[i, :]] and [state[:, i]] for [i] from a [range] *)
Definition getrow (s : ndarray) (i : Z) : result (list Z) :=
  i ← norm_index (length s) i;
  match s !! i with
  | Some row => Ok row
  | None => Raise IndexError
  end.

Definition getcol (s : ndarray) (i : Z) : result (list Z) :=
  j ← norm_index (ncols s) i;
  Ok (omap (.!! j) s).

Definition linear_conflict (s : ndarray) : result Z :=
  let conflict := 0 in
  for_each (range 0 PUZZLE_DIM) (λ conflict i,
    row ← getrow s i;
    col ← getcol s i;
    let conflict := conflict + inversions row in
    let conflict := conflict + inversions col in
    Ok conflict) conflict.

End Puzzle.


(** ** The two searches *)

(** *** Python's ordering of the queue items *)

(** [l1 < l2] on sequences (tuples, lists, bytes): the first place where
    the two differ decides, and a proper prefix is smaller. *)
Fixpoint seq_ltb {A : Type} (eqb ltb : A → A → bool) (l1 l2 : list A) : bool :=
  match l1, l2 with
  | [], [] => false
  | [], _ :: _ => true
  | _ :: _, [] => false
  | x :: l1', y :: l2' => if eqb x y then seq_ltb eqb ltb l1' l2' else ltb x y
  end.

Definition seq_eqb {A : Type} (eqb : A → A → bool) (l1 l2 : list A) : bool :=
  bool_decide (length l1 = length l2) && forallb (λ '(x, y), eqb x y) (zip l1 l2).

Definition pos_eqb (p q : pos) : bool := (p.1 =? q.1) && (p.2 =? q.2).
Definition pos_ltb (p q : pos) : bool :=
  if p.1 =? q.1 then p.2 <? q.2 else p.1 <? q.1.

Definition Action_eqb (a b : Action) : bool :=
  pos_eqb (pos1 a) (pos1 b) && pos_eqb (pos2 a) (pos2 b).
Definition Action_ltb (a b : Action) : bool :=
  if pos_eqb (pos1 a) (pos1 b) then pos_ltb (pos2 a) (pos2 b)
  else pos_ltb (pos1 a) (pos1 b).

(** *** heapq *)

(** The queue is kept as the sorted list of its items: [heappop] takes the
    least item, which is what it returns on Python's array layout too. *)
Fixpoint heappush {A : Type} (ltb : A → A → bool) (heap : list A) (item : A)
  : list A :=
  match heap with
  | [] => [item]
  | x :: heap' =>
      if ltb item x then item :: heap else x :: heappush ltb heap' item
  end.

Definition heappop {A : Type} (heap : list A) : option (A * list A) :=
  match heap with
  | [] => None
  | x :: heap' => Some (x, heap')
  end.

(** *** Byte keys *)

(** The arrays hold 64-bit integers ([np.array] of Python integers, and
    [dtype=int] in [np.frombuffer]), stored little-endian.  A byte is a
    number of [0 .. 255]. *)

(** [n] little-endian bytes of the two's complement of [v] *)
Fixpoint le_bytes (n : nat) (v : Z) : list Z :=
  match n with
  | O => []
  | S n' => v `mod` 256 :: le_bytes n' (v `div` 256)
  end.

Fixpoint le_value (b : list Z) : Z :=
  match b with
  | [] => 0
  | x :: b' => x + 256 * le_value b'
  end.

Definition int64_of_bytes (b : list Z) : Z :=
  let u := le_value b in
  if bool_decide (u < 2 ^ 63) then u else u - 2 ^ 64.

(** [state.tobytes()] for an array of 64-bit integers, in row-major order *)
Definition tobytes (s : ndarray) : list Z := mjoin (le_bytes 8 <$> mjoin s).

(** [np.frombuffer(b, dtype=int)] *)
Definition frombuffer (b : list Z) : result (list Z) :=
  if bool_decide (length b `mod` 8 = 0)%nat then
    Ok ((λ k, int64_of_bytes (take 8 (drop (k * 8) b))) <$> seq 0 (length b `div` 8))
  else Raise ValueError.

(** *** A_star *)

(** An item of [open_list]: [(priority, state_bytes, path)] *)
Record entry := Entry {
  e_priority : Z;
  e_bytes : list Z;
  e_path : list Action
}.

Definition entry_ltb (a b : entry) : bool :=
  if e_priority a =? e_priority b then
    if seq_eqb Z.eqb (e_bytes a) (e_bytes b) then
      seq_ltb Action_eqb Action_ltb (e_path a) (e_path b)
    else seq_ltb Z.eqb Z.ltb (e_bytes a) (e_bytes b)
  else e_priority a <? e_priority b.

(** The variables of the loop of [A_star]; [pushed] is a history variable
    that records every item given to [heappush], in order. *)
Record astar := Astar {
  open_list : list entry;
  closed_set : gset (list Z);
  pushed : list entry
}.

(** What [A_star] returns: [(path, len(path), len(closed_set))] or
    [(None, -1, len(closed_set))]. *)
Abbreviation answer := (option (list Action) * Z * Z)%type.

Section Search.

Variable PUZZLE_DIM : Z.

(** The body of [for action in available_actions(current_state)] *)
Definition expand (current_state : ndarray) (path : list Action)
    (st : astar) (a : Action) : result astar :=
  next_state ← do_action current_state a;
  let next_state_bytes := tobytes next_state in
  if bool_decide (next_state_bytes ∉ closed_set st) then
    let next_path := path ++ [a] in
    md ← manhattan_distance PUZZLE_DIM next_state;
    lc ← linear_conflict PUZZLE_DIM next_state;
    let priority := md + 2 * lc + Z.of_nat (length next_path) in
    let item := Entry priority next_state_bytes next_path in
    Ok {| open_list := heappush entry_ltb (open_list st) item;
          closed_set := closed_set st ∪ {[next_state_bytes]};
          pushed := pushed st ++ [item] |}
  else Ok st.

(** One turn of [while open_list]: either the variables after the body, or
    the value returned.  [r] and [c] are [initial_state.shape]. *)
Definition A_star_iter (r c : Z) (st : astar) : result (astar + answer) :=
  match heappop (open_list st) with
  | None => Ok (inr (None, -1, Z.of_nat (size (closed_set st))))
  | Some (item, open_list') =>
      let path := e_path item in
      flat ← frombuffer (e_bytes item);
      current_state ← reshape r c flat;
      g ← is_goal PUZZLE_DIM current_state;
      if g : bool then
        Ok (inr (Some path, Z.of_nat (length path), Z.of_nat (size (closed_set st))))
      else
        actions ← available_actions PUZZLE_DIM current_state;
        st' ← for_each actions (expand current_state path)
                {| open_list := open_list';
                   closed_set := closed_set st;
                   pushed := pushed st |};
        Ok (inl st')
  end.

(** [None] when the fuel runs out before the loop ends. *)
Fixpoint A_star_loop (fuel : nat) (r c : Z) (st : astar) : option (result answer) :=
  match fuel with
  | O => None
  | S fuel' =>
      match A_star_iter r c st with
      | Raise e => Some (Raise e)
      | Ok (inr ans) => Some (Ok ans)
      | Ok (inl st') => A_star_loop fuel' r c st'
      end
  end.

(** The statements before the loop *)
Definition A_star_init (initial_state : ndarray) : result astar :=
  md ← manhattan_distance PUZZLE_DIM initial_state;
  let item := Entry md (tobytes initial_state) [] in
  Ok {| open_list := heappush entry_ltb [] item;
        closed_set := ∅ ∪ {[tobytes initial_state]};
        pushed := [item] |}.

Definition A_star (fuel : nat) (initial_state : ndarray) : option (result answer) :=
  match A_star_init initial_state with
  | Raise e => Some (Raise e)
  | Ok st =>
      A_star_loop fuel (Z.of_nat (length initial_state))
        (Z.of_nat (ncols initial_state)) st
  end.

(** The variables after [n] complete turns of the loop, when there are that
    many. *)
Fixpoint A_star_after (n : nat) (r c : Z) (st : astar) : option astar :=
  match n with
  | O => Some st
  | S n' =>
      match A_star_iter r c st with
      | Ok (inl st') => A_star_after n' r c st'
      | _ => None
      end
  end.

End Search.

(** *** beam_search *)

(** Priorities of [beam_search] are IEEE 754 doubles. *)
Definition float_of_int (z : Z) : PrimFloat.float :=
  PrimFloat.of_uint63 (Uint63.of_Z z).

(** An item of [priority_queue]: [(priority, state_tuple)] *)
Abbreviation item := (PrimFloat.float * ndarray)%type.

Definition item_ltb (a b : item) : bool :=
  if PrimFloat.eqb a.1 b.1 then
    seq_ltb (seq_eqb Z.eqb) (seq_ltb Z.eqb Z.ltb) a.2 b.2
  else PrimFloat.ltb a.1 b.1.

(** The variables of the loop of [beam_search]; [draws] counts the calls
    of [random.choice] so far. *)
Record beam := Beam {
  b_state : ndarray;
  priority_queue : list item;
  visited : gset ndarray;
  total_nodes_evaluated : Z;
  draws : nat
}.

Section Beam.

Variable PUZZLE_DIM : Z.

(** The random source: [rand k n] is the index that the [k]-th call of
    [choice] picks in a sequence of length [n]. *)
Variable rand : nat → nat → nat.

(** [choice(l)], as the [k]-th draw *)
Definition choice {A : Type} (k : nat) (l : list A) : result A :=
  match l !! (rand k (length l) `mod` length l)%nat with
  | Some x => Ok x
  | None => Raise IndexError
  end.

(** The body of [for _ in range(beam_size)]; [state] is the popped board. *)
Definition beam_try (st : beam) (_ : Z) : result beam :=
  let state := b_state st in
  actions ← available_actions PUZZLE_DIM state;
  a ← choice (draws st) actions;
  new_state ← do_action state a;
  let new_state_tuple := new_state in
  let st := {| b_state := state;
               priority_queue := priority_queue st;
               visited := visited st;
               total_nodes_evaluated := total_nodes_evaluated st;
               draws := S (draws st) |} in
  if bool_decide (new_state_tuple ∉ visited st) then
    d ← difference_from_goal PUZZLE_DIM new_state;
    m ← manhattan_distance PUZZLE_DIM new_state;
    let priority :=
      PrimFloat.add (PrimFloat.mul 0.8%float (float_of_int d))
                    (PrimFloat.mul 0.2%float (float_of_int m)) in
    Ok {| b_state := state;
          priority_queue := heappush item_ltb (priority_queue st) (priority, new_state_tuple);
          visited := visited st;
          total_nodes_evaluated := total_nodes_evaluated st + 1;
          draws := draws st |}
  else Ok st.

(** What [beam_search] returns:
    [(state, total_nodes_evaluated, len(visited))]. *)
Definition beam_return (st : beam) : ndarray * Z * Z :=
  (b_state st, total_nodes_evaluated st, Z.of_nat (size (visited st))).

(** The loop condition [priority_queue and not is_goal(state)]: [is_goal] is
    only called on a non-empty queue. *)
Definition beam_cond (st : beam) : result bool :=
  match priority_queue st with
  | [] => Ok false
  | _ :: _ => g ← is_goal PUZZLE_DIM (b_state st); Ok (negb g)
  end.

(** The body of the [while] loop *)
Definition beam_iter (beam_size : Z) (st : beam) : result (beam + ndarray * Z * Z) :=
  match heappop (priority_queue st) with
  | None => Raise IndexError
  | Some ((priority, state_tuple), priority_queue') =>
      let st := {| b_state := state_tuple;
                   priority_queue := priority_queue';
                   visited := visited st ∪ {[state_tuple]};
                   total_nodes_evaluated := total_nodes_evaluated st;
                   draws := draws st |} in
      g ← is_goal PUZZLE_DIM (b_state st);
      if g : bool then Ok (inr (beam_return st))
      else
        st ← for_each (range 0 beam_size) beam_try st;
        Ok (inl st)
  end.

(** [None] when the fuel runs out before the loop ends; the condition is
    tested before any fuel is used. *)
Fixpoint beam_loop (fuel : nat) (beam_size : Z) (st : beam)
  : option (result (ndarray * Z * Z)) :=
  match beam_cond st with
  | Raise e => Some (Raise e)
  | Ok false => Some (Ok (beam_return st))
  | Ok true =>
      match fuel with
      | O => None
      | S fuel' =>
          match beam_iter beam_size st with
          | Raise e => Some (Raise e)
          | Ok (inr ans) => Some (Ok ans)
          | Ok (inl st') => beam_loop fuel' beam_size st'
          end
      end
  end.

(** The statements before the loop; the initial priority is an integer,
    which Python compares with the later doubles by value. *)
Definition beam_init (state : ndarray) : result beam :=
  let priority_queue := [] in
  let visited := ∅ in
  let total_nodes_evaluated := 0 in
  initial_priority ← difference_from_goal PUZZLE_DIM state;
  Ok {| b_state := state;
        priority_queue :=
          heappush item_ltb priority_queue (float_of_int initial_priority, state);
        visited := visited;
        total_nodes_evaluated := total_nodes_evaluated;
        draws := 0 |}.

Definition beam_search (fuel : nat) (state : ndarray) (beam_size : Z)
  : option (result (ndarray * Z * Z)) :=
  match beam_init state with
  | Raise e => Some (Raise e)
  | Ok st => beam_loop fuel beam_size st
  end.

End Beam.

(** ** The scrambling loop of the last cell *)

(** The body of [for _ in tqdm(range(RANDOMIZE_STEPS))]; the loop carries
    [initial_state] and the number of draws made. *)
Definition randomize_step (PUZZLE_DIM : Z) (rand : nat → nat → nat)
    (st : ndarray * nat) (_ : Z) : result (ndarray * nat) :=
  let initial_state := st.1 in
  actions ← available_actions PUZZLE_DIM initial_state;
  a ← choice rand st.2 actions;
  initial_state ← do_action initial_state a;
  Ok (initial_state, S st.2).

(** The board that the cell hands to the two searches *)
Definition randomize (PUZZLE_DIM : Z) (rand : nat → nat → nat)
    (RANDOMIZE_STEPS : Z) : result ndarray :=
  initial_state ← goal PUZZLE_DIM;
  st ← for_each (range 0 RANDOMIZE_STEPS) (randomize_step PUZZLE_DIM rand)
         (initial_state, 0%nat);
  Ok st.1.

(** ** Arrays as objects *)

(** [do_action] once more, on a heap of array objects: [state.copy()]
    allocates, and the two assignments update the new object in place.
    References are looked up with [!!!]; the properties below are about
    references that the heap holds. *)
Abbreviation loc := positive.
Abbreviation heap := (gmap positive (list (list Z))).

Definition np_copy (h : heap) (r : loc) : loc * heap :=
  let r' := fresh (dom h) in
  (r', <[r':=h !!! r]> h).

Definition np_getitem (h : heap) (r : loc) (p : pos) : result Z :=
  getitem (h !!! r) p.

Definition np_setitem (h : heap) (r : loc) (p : pos) (v : Z) : heap * result () :=
  match setitem (h !!! r) p v with
  | Ok arr => (<[r:=arr]> h, Ok ())
  | Raise e => (h, Raise e)
  end.

(** The heap after the call, and the object returned or the exception. *)
Definition do_action_obj (h : heap) (state : loc) (a : Action) : heap * result loc :=
  let '(new_state, h) := np_copy h state in
  match np_getitem h new_state (pos2 a) with
  | Raise e => (h, Raise e)
  | Ok t1 =>
      match np_getitem h new_state (pos1 a) with
      | Raise e => (h, Raise e)
      | Ok t2 =>
          match np_setitem h new_state (pos1 a) t1 with
          | (h, Raise e) => (h, Raise e)
          | (h, Ok _) =>
              match np_setitem h new_state (pos2 a) t2 with
              | (h, Raise e) => (h, Raise e)
              | (h, Ok _) => (h, Ok new_state)
              end
          end
      end
  end.

(** ** Specification vocabulary *)

(** Shape [(n, n)] *)
Definition square (n : nat) (s : ndarray) : Prop :=
  length s = n ∧ Forall (λ row, length row = n) s.

(** A board of the puzzle: every value of [0 .. PUZZLE_DIM² - 1] once. *)
Definition valid (PUZZLE_DIM : Z) (s : ndarray) : Prop :=
  1 ≤ PUZZLE_DIM ∧ square (Z.to_nat PUZZLE_DIM) s ∧
  mjoin s ≡ₚ range 0 (PUZZLE_DIM ^ 2).

(** The four neighbours of a cell, in the order in which
    [available_actions] tries them: up, down, left, right. *)
Definition neighbours (p : pos) : list pos :=
  [(p.1 - 1, p.2); (p.1 + 1, p.2); (p.1, p.2 - 1); (p.1, p.2 + 1)].

Definition in_grid (PUZZLE_DIM : Z) (p : pos) : Prop :=
  0 ≤ p.1 < PUZZLE_DIM ∧ 0 ≤ p.2 < PUZZLE_DIM.

Global Instance in_grid_dec D p : Decision (in_grid D p).
Proof. unfold in_grid. apply _. Defined.

Definition adjacent (p q : pos) : Prop :=
  Z.abs (p.1 - q.1) + Z.abs (p.2 - q.2) = 1.

(** [s'] is [s] with the contents of the cells [ij1] and [ij2] exchanged. *)
Definition exchanged (s s' : ndarray) (ij1 ij2 : nat * nat) : Prop :=
  cell s' ij1 = cell s ij2 ∧ cell s' ij2 = cell s ij1 ∧
  ∀ ij, ij ≠ ij1 → ij ≠ ij2 → cell s' ij = cell s ij.

(** [a] swaps the blank of [s] with a cell next to it. *)
Definition blank_move (s : ndarray) (a : Action) : Prop :=
  getitem s (pos1 a) = Ok 0 ∧ adjacent (pos1 a) (pos2 a).

(** The boards that [k] moves of [available_actions] lead to from the
    goal. *)
Inductive reachable (PUZZLE_DIM : Z) : nat → ndarray → Prop :=
  | reachable_goal g :
      goal PUZZLE_DIM = Ok g → reachable PUZZLE_DIM 0 g
  | reachable_move k b actions a b' :
      reachable PUZZLE_DIM k b →
      available_actions PUZZLE_DIM b = Ok actions →
      a ∈ actions →
      do_action b a = Ok b' →
      reachable PUZZLE_DIM (S k) b'.

(** Applying the moves of a path in turn *)
Definition replay (s : ndarray) (path : list Action) : result ndarray :=
  for_each path do_action s.

(** [path] leads from [s] to [b], and each of its moves is one that
    [available_actions] offers on the board it is applied to. *)
Inductive follows (PUZZLE_DIM : Z) (s : ndarray) : list Action → ndarray → Prop :=
  | follows_nil : follows PUZZLE_DIM s [] s
  | follows_snoc path b actions a b' :
      follows PUZZLE_DIM s path b →
      available_actions PUZZLE_DIM b = Ok actions →
      a ∈ actions →
      do_action b a = Ok b' →
      follows PUZZLE_DIM s (path ++ [a]) b'.

(** The keys of all valid boards *)
Definition valid_keys (PUZZLE_DIM : Z) : gset (list Z) :=
  list_to_set ((λ l, mjoin (le_bytes 8 <$> l)) <$>
                 permutations (range 0 (PUZZLE_DIM ^ 2))).

(** What decreases at every turn of the loop of [A_star] *)
Definition astar_measure (PUZZLE_DIM : Z) (st : astar) : nat :=
  (2 * (size (valid_keys PUZZLE_DIM) - size (closed_set st))
   + length (open_list st))%nat.

(** The distance of the tile [v] at [p] from the cell that
    [goal_positions] gives it; the blank counts for nothing. *)
Definition tile_distance (D : Z) (p : pos) (v : Z) : Z :=
  if bool_decide (v = 0) then 0
  else Z.abs (p.1 - v `div` D) + Z.abs (p.2 - v `mod` D).

(** The value in the cell at [p] of the grid *)
Definition value_at (s : ndarray) (p : pos) : Z :=
  default 0 (cell s (Z.to_nat p.1, Z.to_nat p.2)).

(** The sum of [f] over the cells of the grid, row by row *)
Definition grid_sum (D : Z) (f : pos → Z) : Z :=
  sum ((λ x, sum ((λ y, f (x, y)) <$> range 0 D)) <$> range 0 D).

(** Every item of the open list carries the key of a valid board and a
    path of moves that leads from [s] to that board. *)
Definition open_paths (D : Z) (s : ndarray) (st : astar) : Prop :=
  ∀ e, e ∈ open_list st →
    ∃ b, valid D b ∧ e_bytes e = tobytes b ∧ follows D s (e_path e) b.

(** Every valid board whose key is in the closed set is still in the open
    list, or is not the goal and has the keys of all its successors in the
    closed set. *)
Definition expanded (D : Z) (st : astar) : Prop :=
  ∀ b, valid D b → tobytes b ∈ closed_set st →
    (∃ e, e ∈ open_list st ∧ e_bytes e = tobytes b) ∨
    (is_goal D b = Ok false ∧
     ∀ actions a b', available_actions D b = Ok actions → a ∈ actions →
       do_action b a = Ok b' → tobytes b' ∈ closed_set st).

(** What a run of [A_star] from the valid board [s] keeps true *)
Definition run_inv (D : Z) (s : ndarray) (st : astar) : Prop :=
  open_paths D s st ∧ closed_set st ⊆ valid_keys D ∧ expanded D st ∧
  tobytes s ∈ closed_set st.

(** What the loop of [beam_search] keeps true in a run from [s]: the
    current board and the boards of the queue are valid boards that moves
    of [available_actions] lead to from [s], and the visited boards and
    the queued items together are at most one more than the nodes
    evaluated. *)
Definition beam_inv (D : Z) (s : ndarray) (st : beam) : Prop :=
  valid D (b_state st) ∧ (∃ path, follows D s path (b_state st)) ∧
  (∀ it, it ∈ priority_queue st → valid D it.2 ∧ ∃ path, follows D s path it.2) ∧
  0 ≤ total_nodes_evaluated st ∧
  Z.of_nat (size (visited st) + length (priority_queue st))
    ≤ total_nodes_evaluated st + 1.

(** What [beam_search] may return in a run from [s] *)
Definition beam_answer (D : Z) (s : ndarray) (ans : ndarray * Z * Z) : Prop :=
  valid D ans.1.1 ∧ (∃ path, follows D s path ans.1.1) ∧
  0 ≤ ans.1.2 ∧ 0 ≤ ans.2 ≤ ans.1.2 + 1.

(** All valid boards *)
Definition valid_boards (D : Z) : gset ndarray :=
  list_to_set (omap (λ l, match reshape D D l with
                          | Ok b => Some b
                          | Raise _ => None
                          end) (permutations (range 0 (D ^ 2)))).

(** The items of the queue whose board is visited already *)
Definition stale (st : beam) : list item :=
  filter (λ it, it.2 ∈ visited st) (priority_queue st).

(** A path checked move by move against [available_actions] *)
Fixpoint legal_replay (D : Z) (s : ndarray) (path : list Action) : result ndarray :=
  match path with
  | [] => Ok s
  | a :: path' =>
      actions ← available_actions D s;
      if bool_decide (a ∈ actions) then
        s' ← do_action s a; legal_replay D s' path'
      else Raise ValueError
  end.

(** The values that a 64-bit array holds *)
Definition int64 (v : Z) : Prop := - 2 ^ 63 ≤ v < 2 ^ 63.

(** Every key of the open list is the key of a valid board. *)
Definition open_valid (PUZZLE_DIM : Z) (st : astar) : Prop :=
  ∀ e, e ∈ open_list st → ∃ b, valid PUZZLE_DIM b ∧ e_bytes e = tobytes b.

(** What the loop of [A_star] keeps true of its variables: no key was
    pushed twice, the closed set holds exactly the keys pushed, and the open
    list holds pushed items only. *)
Definition astar_inv (st : astar) : Prop :=
  NoDup (e_bytes <$> pushed st) ∧
  (∀ k, k ∈ closed_set st ↔ k ∈ e_bytes <$> pushed st) ∧
  (∀ e, e ∈ open_list st → e ∈ pushed st).

(** [e] is the item that the body of the loop of [A_star] makes for one
    of the moves [actions] of [current_state] whose successor has its key
    outside [closed]. *)
Definition successor_item (D : Z) (current_state : ndarray) (path : list Action)
    (closed : gset (list Z)) (actions : list Action) (e : entry) : Prop :=
  ∃ a next_state md lc,
    a ∈ actions ∧ do_action current_state a = Ok next_state ∧
    (tobytes next_state ∉ closed) ∧
    manhattan_distance D next_state = Ok md ∧
    linear_conflict D next_state = Ok lc ∧
    e = Entry ((Z.of_nat (length path) + 1) + (md + 2 * lc))
          (tobytes next_state) (path ++ [a]).

(** ** Example boards *)

(** The goal of the 3x3 puzzle, the board one move away from it, and a
    2x2 board from which the goal cannot be reached. *)
Definition goal3 : ndarray := [[1;2;3];[4;5;6];[7;8;0]].
Definition one_move3 : ndarray := [[1;2;3];[4;5;0];[7;8;6]].
Definition unsolvable2 : ndarray := [[2;1];[3;0]].

(** A board six moves away from the goal *)
Definition detour3 : ndarray := [[1;2;3];[7;0;6];[5;4;8]].

(** The variables of [A_star] when the loop is entered *)
Definition start (md : Z) (initial_state : ndarray) : astar :=
  let item := Entry md (tobytes initial_state) [] in
  {| open_list := [item];
     closed_set := ∅ ∪ {[tobytes initial_state]};
     pushed := [item] |}.

(** * Properties *)

(** ** The error monad and the [for] loop *)

Lemma bind_Ok {A B : Type} (m : result A) (f : A → result B) (b : B) :
  m ≫= f = Ok b ↔ ∃ a, m = Ok a ∧ f a = Ok b.
Proof.
  destruct m as [a|e]; simpl.
  - split; [eauto | intros (a' & [= <-] & ?); done].
  - split; [done | intros (a' & ? & ?); done].
Qed.

(** A loop invariant that every turn keeps is kept by the loop, which then
    raises nothing. *)
Lemma for_each_invariant {A S : Type} (P : S → Prop) (l : list A)
    (body : S → A → result S) (s : S) :
  (∀ s x, x ∈ l → P s → ∃ s', body s x = Ok s' ∧ P s') →
  P s → ∃ s', for_each l body s = Ok s' ∧ P s'.
Proof.
  revert s. induction l as [|x l IH]; intros s Hbody Hs; simpl.
  - eauto.
  - destruct (Hbody s x) as (s1 & -> & Hs1); [left | done |]. simpl.
    apply IH; [|done]. intros s2 y Hy. apply Hbody. by right.
Qed.

(** The same for an invariant of the turns that return. *)
Lemma for_each_preserves {A S : Type} (P : S → Prop) (l : list A)
    (body : S → A → result S) (s s' : S) :
  (∀ s x s', x ∈ l → P s → body s x = Ok s' → P s') →
  P s → for_each l body s = Ok s' → P s'.
Proof.
  revert s. induction l as [|x l IH]; intros s Hbody Hs; simpl.
  - by intros [= <-].
  - intros (s1 & Hs1 & Hrest)%bind_Ok.
    apply (IH s1); [|by eapply Hbody; [left|..]|done].
    intros s2 y s3 Hy. apply Hbody. by right.
Qed.

(** ** Indexing *)

Lemma norm_index_in_range (n : nat) (i : Z) :
  0 ≤ i < Z.of_nat n → norm_index n i = Ok (Z.to_nat i).
Proof. intros. unfold norm_index. by rewrite bool_decide_eq_true_2. Qed.

Lemma norm_index_Ok (n : nat) (i : Z) (k : nat) :
  norm_index n i = Ok k → (k < n)%nat ∧ - Z.of_nat n ≤ i < Z.of_nat n.
Proof.
  unfold norm_index. repeat case_bool_decide; intros [= <-]; lia.
Qed.

Lemma norm_index_Raise (n : nat) (i : Z) :
  (∃ e, norm_index n i = Raise e) ↔ ¬ (- Z.of_nat n ≤ i < Z.of_nat n).
Proof.
  unfold norm_index. repeat case_bool_decide; split;
    try (intros [e [=]]); try lia; intros; try lia; eauto.
Qed.

Lemma square_ncols (n : nat) (s : ndarray) :
  square n s → ncols s = n.
Proof.
  intros [Hlen Hrows]. unfold ncols. destruct Hrows as [|row s' Hrow _]; simpl in *; congruence.
Qed.

Lemma square_lookup (n : nat) (s : ndarray) (i : nat) (row : list Z) :
  square n s → s !! i = Some row → length row = n.
Proof. intros [_ Hrows] Hi. by eapply (Forall_lookup_1 _ _ _ _ Hrows Hi). Qed.

Lemma square_cell (n : nat) (s : ndarray) (i j : nat) :
  square n s → (i < n)%nat → (j < n)%nat → is_Some (cell s (i, j)).
Proof.
  intros Hsq Hi Hj. unfold cell; simpl.
  destruct (lookup_lt_is_Some_2 s i) as [row Hrow]; [destruct Hsq; lia|].
  rewrite Hrow; simpl. apply lookup_lt_is_Some_2.
  by rewrite (square_lookup _ _ _ _ Hsq Hrow).
Qed.

Lemma locate_in_grid (n : nat) (s : ndarray) (x y : Z) :
  square n s → 0 ≤ x < Z.of_nat n → 0 ≤ y < Z.of_nat n →
  locate s (x, y) = Ok (Z.to_nat x, Z.to_nat y).
Proof.
  intros Hsq Hx Hy. unfold locate; simpl.
  rewrite (square_ncols _ _ Hsq). destruct Hsq as [-> _].
  by rewrite !norm_index_in_range.
Qed.

Lemma locate_Ok (n : nat) (s : ndarray) (p : pos) (ij : nat * nat) :
  square n s → locate s p = Ok ij → (ij.1 < n)%nat ∧ (ij.2 < n)%nat.
Proof.
  intros Hsq. unfold locate. rewrite (square_ncols _ _ Hsq).
  destruct Hsq as [-> _].
  intros (i & Hi%norm_index_Ok & (j & Hj%norm_index_Ok & [= <-])%bind_Ok)%bind_Ok.
  simpl. lia.
Qed.

Lemma getitem_located (n : nat) (s : ndarray) (p : pos) (ij : nat * nat) :
  square n s → locate s p = Ok ij →
  ∃ v, cell s ij = Some v ∧ getitem s p = Ok v.
Proof.
  intros Hsq Hloc. destruct (locate_Ok _ _ _ _ Hsq Hloc) as [Hi Hj].
  destruct ij as [i j]. simpl in Hi, Hj.
  destruct (square_cell _ _ _ _ Hsq Hi Hj) as [v Hv].
  exists v. split; [done|]. unfold getitem. rewrite Hloc. simpl. by rewrite Hv.
Qed.

(** ** Writing a cell *)

Lemma cell_alter (s : ndarray) (i j i' j' : nat) (v : Z) :
  cell (alter (<[j:=v]>) i s) (i', j') =
    if decide (i = i' ∧ j = j') then (λ _, v) <$> cell s (i', j') else cell s (i', j').
Proof.
  unfold cell; simpl. destruct (decide (i = i')) as [<-|Hne].
  - rewrite list_lookup_alter_eq. destruct (s !! i) as [row|]; simpl.
    + destruct (decide (j = j')) as [<-|Hne].
      * rewrite decide_True; [|auto].
        destruct (decide (j < length row)%nat).
        -- rewrite list_lookup_insert_eq by done.
           by destruct (lookup_lt_is_Some_2 row j) as [? ->].
        -- rewrite list_insert_ge by lia. by rewrite lookup_ge_None_2 by lia.
      * rewrite decide_False; [|intros [_ ?]; contradiction]. by rewrite list_lookup_insert_ne.
    + by case_decide.
  - rewrite list_lookup_alter_ne by done.
    rewrite decide_False; [done|intros [? _]; contradiction].
Qed.

Lemma square_alter (n : nat) (s : ndarray) (i j : nat) (v : Z) :
  square n s → square n (alter (<[j:=v]>) i s).
Proof.
  intros [Hlen Hrows]. split; [by rewrite length_alter|].
  apply Forall_alter; [done|]. intros row _. by rewrite length_insert.
Qed.

(** Arrays of one shape with equal cells are equal. *)
Lemma square_ext (n : nat) (s s' : ndarray) :
  square n s → square n s' →
  (∀ i j, (i < n)%nat → (j < n)%nat → cell s (i, j) = cell s' (i, j)) →
  s = s'.
Proof.
  intros Hs Hs' Hcells. apply list_eq_same_length with n; [apply Hs' | apply Hs |].
  intros i row row' Hi Hrow Hrow'.
  apply list_eq_same_length with n;
    [by apply (square_lookup _ _ _ _ Hs' Hrow') | by apply (square_lookup _ _ _ _ Hs Hrow) |].
  intros j v v' Hj Hv Hv'.
  specialize (Hcells i j Hi Hj). unfold cell in Hcells; simpl in Hcells.
  rewrite Hrow, Hrow' in Hcells; simpl in Hcells. congruence.
Qed.

Lemma locate_same_shape (s s' : ndarray) (p : pos) :
  length s' = length s → ncols s' = ncols s → locate s' p = locate s p.
Proof. intros Hl Hc. unfold locate. by rewrite Hl, Hc. Qed.

Lemma locate_alter (n : nat) (s : ndarray) (i j : nat) (v : Z) (p : pos) :
  square n s → locate (alter (<[j:=v]>) i s) p = locate s p.
Proof.
  intros Hsq. apply locate_same_shape; [by rewrite length_alter|].
  by rewrite (square_ncols n _ (square_alter _ _ _ _ _ Hsq)), (square_ncols n _ Hsq).
Qed.

Lemma locate_cases (s : ndarray) (p : pos) :
  (∃ ij, locate s p = Ok ij) ∨ (∃ e, locate s p = Raise e).
Proof. destruct (locate s p); eauto. Qed.

(** ** do_action *)

(** On an array where both positions exist, [do_action] returns the array
    with the two cells exchanged. *)
Lemma do_action_located (n : nat) (s : ndarray) (a : Action) (ij1 ij2 : nat * nat) :
  square n s → locate s (pos1 a) = Ok ij1 → locate s (pos2 a) = Ok ij2 →
  ∃ s', do_action s a = Ok s' ∧ square n s' ∧ exchanged s s' ij1 ij2.
Proof.
  intros Hsq H1 H2.
  destruct (getitem_located _ _ _ _ Hsq H1) as (v1 & Hv1 & Hg1).
  destruct (getitem_located _ _ _ _ Hsq H2) as (v2 & Hv2 & Hg2).
  destruct ij1 as [i1 j1], ij2 as [i2 j2].
  exists (alter (<[j2:=v1]>) i2 (alter (<[j1:=v2]>) i1 s)).
  split; [|split; [by do 2 apply square_alter|]].
  - unfold do_action. rewrite Hg2, Hg1. simpl.
    unfold setitem. rewrite H1. simpl.
    rewrite (locate_alter n) by done. by rewrite H2.
  - repeat split.
    + rewrite cell_alter. case_decide as Heq.
      * destruct Heq as [-> ->]. rewrite cell_alter, decide_True by done.
        rewrite Hv1 in Hv2 |- *. by simplify_eq/=.
      * rewrite cell_alter, decide_True by done. by rewrite Hv1, Hv2.
    + rewrite cell_alter, decide_True by done. rewrite cell_alter.
      case_decide; by rewrite Hv2, Hv1.
    + intros [i j] Hne1 Hne2.
      rewrite cell_alter, decide_False by (intros [? ?]; congruence).
      by rewrite cell_alter, decide_False by (intros [? ?]; congruence).
Qed.

(** [do_action] raises when a position is out of bounds. *)
Lemma do_action_out_of_bounds (n : nat) (s : ndarray) (a : Action) :
  square n s →
  (∃ e, locate s (pos1 a) = Raise e) ∨ (∃ e, locate s (pos2 a) = Raise e) →
  ∃ e, do_action s a = Raise e.
Proof.
  intros Hsq Hout. unfold do_action, getitem.
  destruct (locate_cases s (pos2 a)) as [[ij2 H2]|[e ->]]; [|by exists e].
  destruct (getitem_located _ _ _ _ Hsq H2) as (v2 & Hv2 & _).
  rewrite H2. simpl. rewrite Hv2. simpl.
  destruct Hout as [[e H1]|[e H2']]; [|congruence]. rewrite H1. by exists e.
Qed.

(** When [do_action] returns, both positions index a cell. *)
Lemma do_action_Ok_located (n : nat) (s s' : ndarray) (a : Action) :
  square n s → do_action s a = Ok s' →
  ∃ ij1 ij2, locate s (pos1 a) = Ok ij1 ∧ locate s (pos2 a) = Ok ij2.
Proof.
  intros Hsq Hdo.
  destruct (locate_cases s (pos1 a)) as [[ij1 H1]|H1];
    [|destruct (do_action_out_of_bounds n s a Hsq) as [e He]; [auto|congruence]].
  destruct (locate_cases s (pos2 a)) as [[ij2 H2]|H2];
    [|destruct (do_action_out_of_bounds n s a Hsq) as [e He]; [auto|congruence]].
  eauto.
Qed.

Lemma exchanged_back (n : nat) (s s' s'' : ndarray) (ij1 ij2 : nat * nat) :
  square n s → square n s'' →
  exchanged s s' ij1 ij2 → exchanged s' s'' ij1 ij2 → s'' = s.
Proof.
  intros Hs Hs'' (Ha & Hb & Hc) (Ha' & Hb' & Hc').
  apply (square_ext n); [done..|]. intros i j _ _.
  destruct (decide ((i, j) = ij1)) as [->|Hne1]; [congruence|].
  destruct (decide ((i, j) = ij2)) as [->|Hne2]; [congruence|].
  rewrite Hc' by done. by apply Hc.
Qed.

(** Swapping twice gives the array back. *)
Lemma do_action_involutive (n : nat) (s s' : ndarray) (a : Action) :
  square n s → do_action s a = Ok s' → do_action s' a = Ok s.
Proof.
  intros Hsq Hdo.
  destruct (do_action_Ok_located n s _ a ltac:(done) Hdo) as (ij1 & ij2 & H1 & H2).
  destruct (do_action_located _ _ _ _ _ Hsq H1 H2) as (s1 & Hs1 & Hsq1 & Hex).
  assert (s1 = s') as -> by congruence.
  destruct (do_action_located n s' a ij1 ij2) as (s2 & Hs2 & Hsq2 & Hex2); [done|..].
  - rewrite <-H1. apply locate_same_shape; [destruct Hsq, Hsq1; congruence|].
    by rewrite (square_ncols n s'), (square_ncols n s).
  - rewrite <-H2. apply locate_same_shape; [destruct Hsq, Hsq1; congruence|].
    by rewrite (square_ncols n s'), (square_ncols n s).
  - by rewrite Hs2, (exchanged_back n s s' s2 ij1 ij2).
Qed.

(** ** Finding the blank *)

Lemma row_where_zero_spec (row : list Z) (x y0 : Z) (p : pos) :
  p ∈ row_where_zero row x y0 ↔
  ∃ j : nat, p = (x, y0 + Z.of_nat j) ∧ row !! j = Some 0.
Proof.
  revert y0. induction row as [|v row IH]; intros y0; simpl.
  - split; [by intros ?%elem_of_nil | by intros (j & _ & ?)].
  - rewrite elem_of_app, IH. split.
    + intros [Hp|(j & -> & Hj)].
      * case_bool_decide as Hv; [|by apply elem_of_nil in Hp].
        apply list_elem_of_singleton in Hp as ->. exists 0%nat.
        split; [f_equal; lia | by rewrite Hv].
      * exists (S j). split; [f_equal; lia | done].
    + intros ([|j] & -> & Hj); simpl in Hj.
      * left. injection Hj as ->. rewrite bool_decide_eq_true_2 by done.
        apply list_elem_of_singleton. f_equal; lia.
      * right. exists j. split; [f_equal; lia | done].
Qed.

Lemma where_zero_from_spec (s : ndarray) (x0 : Z) (p : pos) :
  p ∈ where_zero_from s x0 ↔
  ∃ i j : nat, p = (x0 + Z.of_nat i, Z.of_nat j) ∧ cell s (i, j) = Some 0.
Proof.
  revert x0. induction s as [|row s IH]; intros x0; simpl.
  - split; [by intros ?%elem_of_nil | by intros (i & j & _ & ?)].
  - rewrite elem_of_app, row_where_zero_spec, IH. split.
    + intros [(j & -> & Hj)|(i & j & -> & Hij)].
      * exists 0%nat, j. split; [f_equal; lia | done].
      * exists (S i), j. split; [f_equal; lia | done].
    + intros ([|i] & j & -> & Hij).
      * left. exists j. split; [f_equal; lia | done].
      * right. exists i, j. split; [f_equal; lia | done].
Qed.

Lemma length_row_where_zero (row : list Z) (x y0 : Z) :
  length (row_where_zero row x y0) = length (filter (λ v, v = 0) row).
Proof.
  revert y0. induction row as [|v row IH]; intros y0; simpl; [done|].
  rewrite length_app, IH, filter_cons.
  case_bool_decide; case_decide; done.
Qed.

Lemma length_where_zero_from (s : ndarray) (x0 : Z) :
  length (where_zero_from s x0) = length (filter (λ v, v = 0) (mjoin s)).
Proof.
  revert x0. induction s as [|row s IH]; intros x0; simpl; [done|].
  by rewrite length_app, length_row_where_zero, IH, filter_app, length_app.
Qed.

Lemma filter_zero_range (n : Z) :
  1 ≤ n → filter (λ v, v = 0) (range 0 n) = [0].
Proof.
  intros Hn. unfold range. rewrite seqZ_cons by lia.
  rewrite filter_cons_True by done. f_equal.
  assert (Forall (λ v, v ≠ 0) (seqZ (Z.succ 0) (Z.pred (n - 0)))) as Hall.
  { apply Forall_seqZ. lia. }
  induction Hall as [|v l Hv _ IH]; [done|].
  by rewrite filter_cons_False.
Qed.

(** A board has one blank, inside the grid. *)
Lemma valid_blank (D : Z) (s : ndarray) :
  valid D s →
  ∃ p, where_zero s = [p] ∧ in_grid D p ∧ getitem s p = Ok 0.
Proof.
  intros (HD & Hsq & Hperm).
  assert (length (where_zero s) = 1%nat) as Hlen.
  { unfold where_zero. rewrite length_where_zero_from, Hperm.
    by rewrite filter_zero_range by lia. }
  destruct (where_zero s) as [|p [|? ?]] eqn:Hw; try done.
  exists p. split; [done|].
  assert (p ∈ where_zero_from s 0) as Hp.
  { fold (where_zero s). rewrite Hw. left. }
  apply where_zero_from_spec in Hp as (i & j & -> & Hij).
  assert (i < Z.to_nat D ∧ j < Z.to_nat D)%nat as [Hi Hj].
  { unfold cell in Hij; simpl in Hij.
    destruct (s !! i) as [row|] eqn:Hrow; [|done]. simpl in Hij.
    apply lookup_lt_Some in Hij. rewrite (square_lookup _ _ _ _ Hsq Hrow) in Hij.
    apply lookup_lt_Some in Hrow. destruct Hsq as [Hl _]. lia. }
  split; [unfold in_grid; simpl; lia|].
  unfold getitem. rewrite (locate_in_grid (Z.to_nat D)) by (done || lia).
  simpl. replace (Z.to_nat (0 + Z.of_nat i)) with i by lia.
  rewrite Nat2Z.id. by rewrite Hij.
Qed.

(** ** available_actions *)

(** With the blank at [p] inside the grid, the four tests of
    [available_actions] keep the neighbours of [p] that are inside the grid,
    in the order up, down, left, right. *)
Lemma available_actions_blank (D : Z) (s : ndarray) (p : pos) (rest : list pos) :
  where_zero s = p :: rest → in_grid D p →
  available_actions D s = Ok (action p <$> filter (in_grid D) (neighbours p)).
Proof.
  intros Hw [Hx Hy]. unfold available_actions. rewrite Hw.
  destruct p as [x y]. simpl in Hx, Hy. unfold neighbours. simpl fst; simpl snd.
  rewrite !filter_cons, filter_nil. unfold in_grid. simpl fst; simpl snd.
  repeat case_bool_decide; repeat case_decide; try lia; reflexivity.
Qed.

Lemma neighbours_adjacent (p q : pos) :
  q ∈ neighbours p → adjacent p q.
Proof.
  unfold neighbours, adjacent. rewrite !elem_of_cons, elem_of_nil.
  intros [->|[->|[->|[->|[]]]]]; simpl; lia.
Qed.

(** The number of neighbours inside the grid *)
Lemma length_neighbours_in_grid (D : Z) (p : pos) :
  in_grid D p →
  Z.of_nat (length (filter (in_grid D) (neighbours p))) =
    (if bool_decide (p.1 = 0) then 0 else 1) +
    (if bool_decide (p.1 = D - 1) then 0 else 1) +
    (if bool_decide (p.2 = 0) then 0 else 1) +
    (if bool_decide (p.2 = D - 1) then 0 else 1).
Proof.
  intros [Hx Hy]. destruct p as [x y]. simpl in *. unfold neighbours.
  simpl fst; simpl snd.
  rewrite !filter_cons, filter_nil. unfold in_grid. simpl fst; simpl snd.
  repeat case_bool_decide; repeat case_decide; try lia; reflexivity.
Qed.

(** The moves of [available_actions] stay inside the grid and start at the
    blank. *)
Lemma available_actions_legal (D : Z) (s : ndarray) (actions : list Action)
    (m : Action) :
  valid D s → available_actions D s = Ok actions → m ∈ actions →
  in_grid D (pos1 m) ∧ in_grid D (pos2 m) ∧ blank_move s m.
Proof.
  intros Hvalid Hact Hm.
  destruct (valid_blank _ _ Hvalid) as (p & Hw & Hp & Hget).
  rewrite (available_actions_blank D s p []) in Hact by done.
  injection Hact as <-.
  apply list_elem_of_fmap in Hm as (q & -> & Hq).
  apply list_elem_of_filter in Hq as [Hin Hq]. simpl.
  split_and!; [done..|]. split; [done | by apply neighbours_adjacent].
Qed.

(** Concrete boards are checked by computation. *)
Ltac solve_valid :=
  split; [lia|]; split;
  [ split; [reflexivity | repeat constructor]
  | vm_compute; apply (bool_decide_unpack _); vm_compute; reflexivity ].

Lemma goal3_valid : valid 3 goal3.
Proof. solve_valid. Qed.

(** C5: on every valid board [available_actions] returns the moves of the
    blank to its neighbours inside the grid, in the order up, down, left,
    right: each move has [pos1] at the blank and [pos2] next to it inside
    the grid; there are 2 of them when the blank is in a corner, 3 on an
    edge and 4 elsewhere, so between 2 and 4 when [PUZZLE_DIM >= 2], and
    none only on the 1x1 board. *)
Theorem available_actions_spec (D : Z) (s : ndarray) :
  valid D s →
  ∃ p actions,
    where_zero s = [p] ∧ in_grid D p ∧ getitem s p = Ok 0 ∧
    available_actions D s = Ok actions ∧
    actions = action p <$> filter (in_grid D) (neighbours p) ∧
    (∀ m, m ∈ actions →
       pos1 m = p ∧ adjacent p (pos2 m) ∧ in_grid D (pos2 m)) ∧
    (2 ≤ D → (2 ≤ length actions ≤ 4)%nat) ∧
    (length actions = 0%nat ↔ D = 1) ∧
    (2 ≤ D →
       let border c := c = 0 ∨ c = D - 1 in
       (border p.1 ∧ border p.2 → length actions = 2%nat) ∧
       (border p.1 ∧ ¬ border p.2 ∨ ¬ border p.1 ∧ border p.2 →
          length actions = 3%nat) ∧
       (¬ border p.1 ∧ ¬ border p.2 → length actions = 4%nat)).
Proof.
  intros Hvalid. destruct (valid_blank _ _ Hvalid) as (p & Hw & Hp & Hget).
  exists p, (action p <$> filter (in_grid D) (neighbours p)).
  pose proof (length_neighbours_in_grid D p Hp) as Hlen.
  rewrite <-(length_fmap (action p)) in Hlen.
  destruct Hvalid as (HD & _ & _). destruct Hp as [Hx Hy].
  split_and!; try done.
  - by apply (available_actions_blank _ _ _ []).
  - intros m (q & -> & Hq)%list_elem_of_fmap.
    apply list_elem_of_filter in Hq as [Hin Hq].
    split_and!; [done | by apply neighbours_adjacent | done].
  - intros ?. repeat case_bool_decide; lia.
  - repeat case_bool_decide; lia.
  - intros ? border. unfold border. split_and!; repeat case_bool_decide; lia.
Qed.

Lemma locate_Raise (n : nat) (s : ndarray) (p : pos) :
  square n s →
  (∃ e, locate s p = Raise e) ↔
  ¬ (- Z.of_nat n ≤ p.1 < Z.of_nat n ∧ - Z.of_nat n ≤ p.2 < Z.of_nat n).
Proof.
  intros Hsq. unfold locate. rewrite (square_ncols _ _ Hsq).
  destruct Hsq as [-> _].
  destruct (norm_index n p.1) as [i|e] eqn:Hi; simpl.
  - apply norm_index_Ok in Hi as [_ Hi].
    destruct (norm_index n p.2) as [j|e] eqn:Hj; simpl.
    + apply norm_index_Ok in Hj as [_ Hj]. split; [by intros [? ?] | tauto].
    + assert (∃ e, norm_index n p.2 = Raise e) as Hj'%norm_index_Raise by eauto.
      split; [tauto | eauto].
  - assert (∃ e, norm_index n p.1 = Raise e) as Hi'%norm_index_Raise by eauto.
    split; [tauto | eauto].
Qed.

Lemma in_grid_locate (D : Z) (s : ndarray) (p : pos) :
  square (Z.to_nat D) s → in_grid D p →
  locate s p = Ok (Z.to_nat p.1, Z.to_nat p.2).
Proof.
  intros Hsq [Hx Hy]. destruct p as [x y]. simpl in *.
  apply (locate_in_grid (Z.to_nat D)); [done|lia..].
Qed.

(** C6: a move of [available_actions], applied twice to a valid board,
    gives the board back. *)
Theorem do_action_self_inverse (D : Z) (b : ndarray) (actions : list Action)
    (m : Action) :
  valid D b → available_actions D b = Ok actions → m ∈ actions →
  ∃ b', do_action b m = Ok b' ∧ do_action b' m = Ok b.
Proof.
  intros Hvalid Hact Hm.
  destruct (available_actions_legal _ _ _ _ Hvalid Hact Hm) as (H1 & H2 & _).
  destruct Hvalid as (_ & Hsq & _).
  destruct (do_action_located _ _ m _ _ Hsq
              (in_grid_locate _ _ _ Hsq H1) (in_grid_locate _ _ _ Hsq H2))
    as (b' & Hb' & _ & _).
  exists b'. split; [done|]. by apply (do_action_involutive (Z.to_nat D)).
Qed.

Lemma do_action_self_inverse_witness :
  ∃ b', do_action goal3 (action (2, 2) (1, 2)) = Ok b' ∧
        do_action b' (action (2, 2) (1, 2)) = Ok goal3.
Proof.
  apply (do_action_self_inverse 3 goal3
           [action (2, 2) (1, 2); action (2, 2) (2, 1)]).
  - solve_valid.
  - reflexivity.
  - left.
Defined.

Lemma available_actions_spec_witness :
  ∃ p actions,
    where_zero goal3 = [p] ∧ available_actions 3 goal3 = Ok actions ∧
    actions = action p <$> filter (in_grid 3) (neighbours p) ∧
    length actions = 2%nat.
Proof.
  destruct (available_actions_spec 3 goal3) as
    (p & actions & Hw & Hp & _ & Hact & Heq & _ & _ & _ & Hcount).
  - solve_valid.
  - exists p, actions. split_and!; try done.
    injection Hw as <-. apply Hcount; [lia|]. simpl. lia.
Defined.

(** ** Moves keep boards valid *)

(** The flattened array, cell by cell *)
Lemma join_cell (n : nat) (s : ndarray) (k : nat) :
  square n s → (0 < n)%nat →
  mjoin s !! k = cell s (k `div` n, k `mod` n)%nat.
Proof.
  intros [Hlen Hrows] Hn. apply option_eq. intros v.
  pose proof (Nat.div_mod_eq k n) as Hk.
  pose proof (Nat.mod_upper_bound k n ltac:(lia)) as Hlt.
  rewrite Hk at 1. rewrite (Nat.mul_comm n).
  rewrite (join_lookup_Some_same_length' n) by done.
  unfold cell; simpl. destruct (s !! (k `div` n)%nat) as [row|]; simpl.
  - split; [by intros (? & [= <-] & ?) | eauto].
  - split; [by intros (? & ? & ?) | done].
Qed.

Lemma flat_index_inj (n i j k : nat) :
  (j < n)%nat → (k `div` n, k `mod` n)%nat = (i, j) ↔ k = (i * n + j)%nat.
Proof.
  intros Hj. split.
  - intros [= <- <-]. rewrite Nat.mul_comm. apply Nat.div_mod_eq.
  - intros ->. f_equal.
    + rewrite Nat.div_add_l by lia. rewrite Nat.div_small by done. lia.
    + rewrite Nat.add_comm, Nat.Div0.mod_add. by apply Nat.mod_small.
Qed.

(** Exchanging two cells permutes the values of the array. *)
Lemma exchanged_Permutation (n : nat) (s s' : ndarray) (ij1 ij2 : nat * nat) :
  square n s → square n s' →
  (ij1.1 < n)%nat → (ij1.2 < n)%nat → (ij2.1 < n)%nat → (ij2.2 < n)%nat →
  exchanged s s' ij1 ij2 → mjoin s' ≡ₚ mjoin s.
Proof.
  intros Hs Hs' Hi1 Hj1 Hi2 Hj2 (Ha & Hb & Hc).
  destruct ij1 as [i1 j1], ij2 as [i2 j2]. simpl in *.
  assert (0 < n)%nat as Hn by lia.
  destruct (square_cell _ _ _ _ Hs Hi1 Hj1) as [v1 Hv1].
  destruct (square_cell _ _ _ _ Hs Hi2 Hj2) as [v2 Hv2].
  set (k1 := (i1 * n + j1)%nat). set (k2 := (i2 * n + j2)%nat).
  assert (mjoin s !! k1 = Some v1) as Hk1.
  { rewrite (join_cell n) by done.
    by rewrite (proj2 (flat_index_inj n i1 j1 k1 Hj1) eq_refl). }
  assert (mjoin s !! k2 = Some v2) as Hk2.
  { rewrite (join_cell n) by done.
    by rewrite (proj2 (flat_index_inj n i2 j2 k2 Hj2) eq_refl). }
  rewrite <-(Permutation_insert_swap (mjoin s) k1 k2 v1 v2 Hk1 Hk2).
  assert (mjoin s' = <[k2:=v1]> (<[k1:=v2]> (mjoin s))) as ->; [|done].
  apply list_eq. intros k. rewrite (join_cell n) by done.
  destruct (decide (k = k2)) as [->|Hne2].
  - rewrite list_lookup_insert_eq
      by (rewrite length_insert; by eapply lookup_lt_Some).
    rewrite (proj2 (flat_index_inj n i2 j2 k2 Hj2) eq_refl). congruence.
  - rewrite list_lookup_insert_ne by done.
    destruct (decide (k = k1)) as [->|Hne1].
    + rewrite list_lookup_insert_eq by (by eapply lookup_lt_Some).
      rewrite (proj2 (flat_index_inj n i1 j1 k1 Hj1) eq_refl). congruence.
    + rewrite list_lookup_insert_ne by done.
      rewrite Hc; [by rewrite (join_cell n)|..].
      * intros Heq. by apply flat_index_inj in Heq.
      * intros Heq. by apply flat_index_inj in Heq.
Qed.

(** A swap of two cells of the grid keeps a board valid. *)
Lemma do_action_valid (D : Z) (s s' : ndarray) (a : Action) :
  valid D s → do_action s a = Ok s' → valid D s'.
Proof.
  intros (HD & Hsq & Hperm) Hdo.
  destruct (do_action_Ok_located (Z.to_nat D) s _ a ltac:(done) Hdo) as (ij1 & ij2 & H1 & H2).
  destruct (do_action_located _ _ _ _ _ Hsq H1 H2) as (s1 & Hs1 & Hsq1 & Hex).
  assert (s1 = s') as -> by congruence.
  destruct (locate_Ok _ _ _ _ Hsq H1), (locate_Ok _ _ _ _ Hsq H2).
  split_and!; [done..|].
  by rewrite (exchanged_Permutation (Z.to_nat D) s s' ij1 ij2).
Qed.

(** [do_action] checks nothing about the blank: here it exchanges the
    tiles 1 and 2 of the goal board, neither of which is the blank, and
    returns the result where C3 expects a failure. *)
Lemma do_action_unchecked_counterexample :
  ¬ blank_move goal3 (action (0, 0) (0, 1)) ∧
  do_action goal3 (action (0, 0) (0, 1)) = Ok [[2;1;3];[4;5;6];[7;8;0]].
Proof. split; [by intros [[=] _] | reflexivity]. Qed.

(** C3, amended: [do_action] validates nothing about the blank.  On a
    square array, whenever every coordinate of [pos1] and [pos2] lies in
    [-n .. n-1] it returns the array with the two cells exchanged, whether
    or not one of them is the blank or the two are adjacent.  For a move of
    [available_actions] on the same valid board it succeeds and returns
    the valid board in which the blank and the neighbouring tile have
    changed places. *)
Theorem do_action_unchecked (n : nat) (s : ndarray) (a : Action) :
  square n s →
  let inside (p : pos) :=
    - Z.of_nat n ≤ p.1 < Z.of_nat n ∧ - Z.of_nat n ≤ p.2 < Z.of_nat n in
  (inside (pos1 a) ∧ inside (pos2 a) →
     ∃ ij1 ij2 s',
       locate s (pos1 a) = Ok ij1 ∧ locate s (pos2 a) = Ok ij2 ∧
       do_action s a = Ok s' ∧ square n s' ∧ exchanged s s' ij1 ij2) ∧
  (∀ D actions,
     valid D s → available_actions D s = Ok actions → a ∈ actions →
     ∃ s', do_action s a = Ok s' ∧ valid D s' ∧
           getitem s' (pos2 a) = Ok 0 ∧
           getitem s' (pos1 a) = getitem s (pos2 a)).
Proof.
  intros Hsq inside. split.
  - intros [Hp1 Hp2].
    destruct (locate_cases s (pos1 a)) as [[ij1 H1]|H1];
      [|by apply (locate_Raise n) in H1].
    destruct (locate_cases s (pos2 a)) as [[ij2 H2]|H2];
      [|by apply (locate_Raise n) in H2].
    destruct (do_action_located _ _ _ _ _ Hsq H1 H2) as (s' & ? & ? & ?).
    by exists ij1, ij2, s'.
  - intros D actions Hvalid Hact Ha.
    destruct (available_actions_legal _ _ _ _ Hvalid Hact Ha)
      as (H1 & H2 & Hblank & _).
    pose proof Hvalid as (_ & HsqD & _).
    pose proof (in_grid_locate _ _ _ HsqD H1) as Hl1.
    pose proof (in_grid_locate _ _ _ HsqD H2) as Hl2.
    destruct (do_action_located _ _ _ _ _ HsqD Hl1 Hl2)
      as (s' & Hs' & Hsq' & Hex1 & Hex2 & _).
    exists s'. split_and!; [done | by eapply do_action_valid | |].
    + unfold getitem in *.
      rewrite (in_grid_locate D s') by done.
      rewrite Hl1 in Hblank. simpl in *. by rewrite Hex2.
    + unfold getitem.
      rewrite (in_grid_locate D s'), Hl2 by done. simpl. by rewrite Hex1.
Qed.

Lemma do_action_unchecked_witness :
  ∃ ij1 ij2 s',
    locate goal3 (0, 0) = Ok ij1 ∧ locate goal3 (-2, -1) = Ok ij2 ∧
    do_action goal3 (action (0, 0) (-2, -1)) = Ok s' ∧ square 3 s' ∧
    exchanged goal3 s' ij1 ij2.
Proof.
  refine (proj1 (do_action_unchecked 3 goal3 (action (0, 0) (-2, -1)) _) _).
  - split; [reflexivity | repeat constructor].
  - simpl. lia.
Defined.

(** ** do_action on array objects *)

(** The call allocates one object and writes to no other; it returns
    the new object, holding what [do_action] computes from the contents of
    the argument, or raises what [do_action] raises. *)
Lemma do_action_obj_refines (h : heap) (state : loc) (a : Action) :
  let new_state := fresh (dom h) in
  ∃ h',
    do_action_obj h state a =
      (h', match do_action (h !!! state) a with
           | Ok _ => Ok new_state
           | Raise e => Raise e
           end) ∧
    (∀ l, l ≠ new_state → h' !! l = h !! l) ∧
    (∀ b', do_action (h !!! state) a = Ok b' → h' !! new_state = Some b').
Proof.
  intros new_state. unfold do_action_obj, np_copy, np_getitem, do_action.
  fold new_state. rewrite !lookup_total_insert_eq.
  set (b := h !!! state).
  assert (∀ (h1 : heap) l x, l ≠ new_state → h1 !! l = h !! l →
            <[new_state:=x]> h1 !! l = h !! l) as Hother.
  { intros h1 l x Hl <-. by apply lookup_insert_ne. }
  destruct (getitem b (pos2 a)) as [t1|e]; simpl.
  2:{ eexists. split_and!; [done | by auto | done]. }
  destruct (getitem b (pos1 a)) as [t2|e]; simpl.
  2:{ eexists. split_and!; [done | by auto | done]. }
  unfold np_setitem. rewrite !lookup_total_insert_eq.
  destruct (setitem b (pos1 a) t1) as [b1|e]; simpl.
  2:{ eexists. split_and!; [done | by auto | done]. }
  rewrite !lookup_total_insert_eq.
  destruct (setitem b1 (pos2 a) t2) as [b2|e]; simpl.
  2:{ eexists. split_and!; [done | by auto | done]. }
  eexists. split_and!; [done | by auto |].
  intros b' [= <-]. apply lookup_insert_eq.
Qed.

(** C9: [do_action] leaves its argument as it was.  After the call, also
    when it raises, the object [b] holds the same array as before, as does
    every other object that existed; when the call returns,
    [next = do_action(b, m)] is a new object, different from [b], and its
    array is that of [b] with the contents of the cells at [m.pos1] and
    [m.pos2] exchanged and every other cell equal. *)
Theorem do_action_obj_frame (n : nat) (h : heap) (state : loc)
    (b : ndarray) (m : Action) :
  h !! state = Some b → square n b →
  ∃ h' r,
    do_action_obj h state m = (h', r) ∧
    h' !! state = Some b ∧
    (∀ l, l ∈ dom h → h' !! l = h !! l) ∧
    ∀ next, r = Ok next →
      next ≠ state ∧ (next ∉ dom h) ∧
      ∃ b' ij1 ij2,
        h' !! next = Some b' ∧ do_action b m = Ok b' ∧ square n b' ∧
        locate b (pos1 m) = Ok ij1 ∧ locate b (pos2 m) = Ok ij2 ∧
        exchanged b b' ij1 ij2.
Proof.
  intros Hb Hsq.
  destruct (do_action_obj_refines h state m) as (h' & Heq & Hother & Hnew).
  rewrite (lookup_total_correct _ _ _ Hb) in Heq, Hnew.
  eexists h', _. split; [exact Heq|].
  pose proof (is_fresh (dom h)) as Hfresh.
  assert (∀ l, l ∈ dom h → l ≠ fresh (dom h)) as Hne by (intros l ? ->; done).
  split_and!.
  - rewrite Hother; [done|]. apply Hne. by apply elem_of_dom.
  - intros l Hl. by apply Hother, Hne.
  - intros next Hnext.
    destruct (do_action b m) as [b'|e] eqn:Hdo; [|done].
    injection Hnext as <-. split_and!.
    + intros Heq'. apply Hfresh. rewrite Heq'. by apply elem_of_dom.
    + done.
    + destruct (do_action_Ok_located n b _ m Hsq Hdo) as (ij1 & ij2 & H1 & H2).
      destruct (do_action_located _ _ _ _ _ Hsq H1 H2) as (s1 & Hs1 & Hsq1 & Hex).
      assert (s1 = b') as -> by congruence.
      exists b', ij1, ij2. split_and!; auto.
Qed.

Lemma do_action_obj_frame_witness :
  ∃ h' next,
    do_action_obj {[1%positive := goal3]} 1%positive (action (2, 2) (1, 2))
      = (h', Ok next) ∧
    h' !! 1%positive = Some goal3 ∧ next ≠ 1%positive ∧
    h' !! next = Some one_move3.
Proof.
  destruct (do_action_obj_frame 3 {[1%positive := goal3]} 1%positive goal3
              (action (2, 2) (1, 2)))
    as (h' & r & Hcall & Hsame & _ & Hnext).
  - reflexivity.
  - split; [reflexivity | repeat constructor].
  - assert (r = Ok 2%positive) as Hr.
    { vm_compute in Hcall. by injection Hcall as _ <-. }
    destruct (Hnext _ Hr) as (Hne & _ & b' & _ & _ & Hb' & Hdo & _).
    exists h', 2%positive. rewrite <-Hr. split_and!; [done..|].
    rewrite Hb'. f_equal. vm_compute in Hdo. by injection Hdo as <-.
Defined.

(** ** The heuristics on valid boards *)

Lemma elem_of_range (a b x : Z) : x ∈ range a b ↔ a ≤ x < b.
Proof. unfold range. rewrite elem_of_seqZ. lia. Qed.

Lemma goal_positions_lookup (D v : Z) :
  1 ≤ v < D ^ 2 → goal_positions D !! v = Some (v `div` D, v `mod` D).
Proof.
  intros Hv. unfold goal_positions. apply elem_of_list_to_map_1.
  - rewrite <-list_fmap_compose.
    assert (∀ l : list Z,
              fst ∘ (λ i, (i, (i `div` D, i `mod` D))) <$> l = l) as ->.
    { induction l as [|i l IH]; [done|]. csimpl. by rewrite IH. }
    apply NoDup_seqZ.
  - apply (list_elem_of_fmap_2 (λ i, (i, (i `div` D, i `mod` D)))).
    by apply elem_of_range.
Qed.

Lemma cell_elem_of_join (s : ndarray) (ij : nat * nat) (v : Z) :
  cell s ij = Some v → v ∈ mjoin s.
Proof.
  unfold cell. destruct (s !! ij.1) as [row|] eqn:Hrow; simpl; [|done].
  intros Hv. apply list_elem_of_join. exists row.
  split; by eapply list_elem_of_lookup_2.
Qed.

(** On a valid board [manhattan_distance] raises nothing and returns a
    number that is not negative. *)
Lemma manhattan_distance_nonneg (D : Z) (s : ndarray) :
  valid D s → ∃ d, manhattan_distance D s = Ok d ∧ 0 ≤ d.
Proof.
  intros (HD & Hsq & Hperm). unfold manhattan_distance.
  apply (for_each_invariant (λ d, 0 ≤ d)); [|done].
  intros d x Hx%elem_of_range Hd.
  apply (for_each_invariant (λ d, 0 ≤ d)); [|done].
  clear d Hd. intros d y Hy%elem_of_range Hd.
  unfold getitem. rewrite (locate_in_grid (Z.to_nat D)) by (done || lia). simpl.
  destruct (square_cell (Z.to_nat D) s (Z.to_nat x) (Z.to_nat y)) as [v Hv];
    [done | lia.. |].
  rewrite Hv. simpl. case_bool_decide as Hnz; [|eauto].
  assert (0 ≤ v < D ^ 2) as Hrange.
  { apply cell_elem_of_join in Hv. rewrite Hperm in Hv.
    by apply elem_of_range in Hv. }
  rewrite goal_positions_lookup by lia. eexists. split; [done|]. lia.
Qed.

Lemma sum_nonneg (l : list Z) : Forall (λ v, 0 ≤ v) l → 0 ≤ sum l.
Proof. induction 1; simpl; lia. Qed.

Lemma inversions_nonneg (l : list Z) : 0 ≤ inversions l.
Proof.
  unfold inversions. apply sum_nonneg, Forall_forall.
  intros v (k & Hv & Hk)%list_elem_of_join.
  apply elem_of_lookup_imap in Hk as (j & x & -> & _).
  apply list_elem_of_fmap in Hv as (y & -> & _). case_bool_decide; lia.
Qed.

(** On an array of shape [(PUZZLE_DIM, PUZZLE_DIM)] [linear_conflict]
    raises nothing and returns a number that is not negative. *)
Lemma linear_conflict_nonneg (D : Z) (s : ndarray) :
  square (Z.to_nat D) s → ∃ c, linear_conflict D s = Ok c ∧ 0 ≤ c.
Proof.
  intros Hsq. unfold linear_conflict.
  apply (for_each_invariant (λ c, 0 ≤ c)); [|done].
  intros c i Hi%elem_of_range Hc.
  unfold getrow, getcol. rewrite (square_ncols _ _ Hsq).
  pose proof Hsq as [Hlen _]. rewrite Hlen.
  rewrite norm_index_in_range by lia. simpl.
  destruct (lookup_lt_is_Some_2 s (Z.to_nat i)) as [row ->]; [lia|].
  simpl. eexists. split; [done|].
  pose proof (inversions_nonneg row).
  pose proof (inversions_nonneg (omap (.!! Z.to_nat i) s)). lia.
Qed.

(** ** A_star *)

Lemma elem_of_heappush {A : Type} (ltb : A → A → bool) (heap : list A) (item x : A) :
  x ∈ heappush ltb heap item ↔ x = item ∨ x ∈ heap.
Proof.
  induction heap as [|y heap IH]; simpl.
  - rewrite list_elem_of_singleton, elem_of_nil. tauto.
  - destruct (ltb item y).
    + by rewrite elem_of_cons.
    + rewrite !elem_of_cons, IH. tauto.
Qed.

(** What one turn of the [for] loop does: nothing when the key of the
    successor is in the closed set, and otherwise one [heappush] and one
    [add], of that key. *)
Lemma expand_Ok (D : Z) (current_state : ndarray) (path : list Action)
    (st st' : astar) (a : Action) :
  expand D current_state path st a = Ok st' →
  ∃ next_state, do_action current_state a = Ok next_state ∧
    ((tobytes next_state ∈ closed_set st ∧ st' = st) ∨
     ((tobytes next_state ∉ closed_set st) ∧
      ∃ md lc,
        manhattan_distance D next_state = Ok md ∧
        linear_conflict D next_state = Ok lc ∧
        let item := Entry (md + 2 * lc + Z.of_nat (length (path ++ [a])))
                      (tobytes next_state) (path ++ [a]) in
        st' = {| open_list := heappush entry_ltb (open_list st) item;
                 closed_set := closed_set st ∪ {[tobytes next_state]};
                 pushed := pushed st ++ [item] |})).
Proof.
  unfold expand. intros (next_state & Hdo & Hrest)%bind_Ok.
  exists next_state. split; [done|].
  case_bool_decide as Hin.
  - right. split; [done|].
    apply bind_Ok in Hrest as (md & Hmd & Hrest).
    apply bind_Ok in Hrest as (lc & Hlc & [= <-]).
    by exists md, lc.
  - left. injection Hrest as <-. split; [|done].
    destruct (decide (tobytes next_state ∈ closed_set st)); [done|contradiction].
Qed.

Lemma expand_inv (D : Z) (current_state : ndarray) (path : list Action)
    (st st' : astar) (a : Action) :
  astar_inv st → expand D current_state path st a = Ok st' → astar_inv st'.
Proof.
  intros (Hnodup & Hclosed & Hopen) Hexp.
  apply expand_Ok in Hexp as (next & _ & [[_ ->]|(Hnew & md & lc & _ & _ & ->)]);
    [done|].
  split_and!; simpl.
  - rewrite fmap_app. apply NoDup_app. split_and!; [done| |apply NoDup_singleton].
    intros k Hk ->%list_elem_of_singleton. by apply Hnew, Hclosed.
  - intros k. rewrite fmap_app, elem_of_app, elem_of_union, Hclosed.
    simpl. by rewrite list_elem_of_singleton, elem_of_singleton.
  - intros e [->|He]%elem_of_heappush; rewrite elem_of_app.
    + right. by apply list_elem_of_singleton.
    + left. by apply Hopen.
Qed.

Lemma A_star_init_inv (D : Z) (initial_state : ndarray) (st : astar) :
  A_star_init D initial_state = Ok st → astar_inv st.
Proof.
  unfold A_star_init. intros (md & _ & [= <-])%bind_Ok.
  split_and!; simpl.
  - apply NoDup_singleton.
  - intros k. rewrite list_elem_of_singleton, elem_of_union, elem_of_singleton.
    rewrite elem_of_empty. tauto.
  - done.
Qed.

Lemma A_star_iter_inv (D r c : Z) (st st' : astar) :
  astar_inv st → A_star_iter D r c st = Ok (inl st') → astar_inv st'.
Proof.
  intros (Hnodup & Hclosed & Hopen). unfold A_star_iter.
  destruct (open_list st) as [|item rest] eqn:Hpop; simpl; [done|].
  intros (flat & _ & Hrest)%bind_Ok.
  apply bind_Ok in Hrest as (cur & _ & Hrest).
  apply bind_Ok in Hrest as ([] & _ & Hrest); [done|].
  apply bind_Ok in Hrest as (actions & _ & Hrest).
  apply bind_Ok in Hrest as (st1 & Hfor & [= <-]).
  revert Hfor. apply for_each_preserves.
  - intros ? ? ? _. apply expand_inv.
  - split_and!; simpl; [done..|].
    intros e He. apply Hopen. by right.
Qed.

Lemma A_star_after_inv (D : Z) (n : nat) (r c : Z) (st st' : astar) :
  astar_inv st → A_star_after D n r c st = Some st' → astar_inv st'.
Proof.
  revert st. induction n as [|n IH]; intros st Hinv; simpl.
  - by intros [= <-].
  - destruct (A_star_iter D r c st) as [[st1|]|] eqn:Hiter; [|done..].
    apply IH. by eapply A_star_iter_inv.
Qed.

Lemma A_star_loop_after (D : Z) (n fuel : nat) (r c : Z) (st st' : astar) :
  A_star_after D n r c st = Some st' →
  A_star_loop D (n + fuel) r c st = A_star_loop D fuel r c st'.
Proof.
  revert st. induction n as [|n IH]; intros st; simpl.
  - by intros [= <-].
  - destruct (A_star_iter D r c st) as [[st1|]|]; [|done..]. apply IH.
Qed.

Lemma astar_inv_size (st : astar) :
  astar_inv st → size (closed_set st) = length (pushed st).
Proof.
  intros (Hnodup & Hclosed & _).
  rewrite <-(length_fmap e_bytes), <-(size_list_to_set (C := gset (list Z))) by done.
  f_equal. apply set_eq. intros k. by rewrite Hclosed, elem_of_list_to_set.
Qed.

(** On a move of [available_actions] from a valid board, [expand] raises
    nothing: the successor is a valid board, both heuristics return, and the
    new item is pushed unless its key is in the closed set. *)
Lemma expand_successor (D : Z) (current_state : ndarray) (path : list Action)
    (actions : list Action) (st : astar) (a : Action) :
  valid D current_state →
  available_actions D current_state = Ok actions → a ∈ actions →
  ∃ next_state md lc,
    do_action current_state a = Ok next_state ∧ valid D next_state ∧
    manhattan_distance D next_state = Ok md ∧
    linear_conflict D next_state = Ok lc ∧
    let item := Entry (Z.of_nat (length path) + 1 + (md + 2 * lc))
                  (tobytes next_state) (path ++ [a]) in
    expand D current_state path st a =
      Ok (if bool_decide (tobytes next_state ∈ closed_set st) then st
          else {| open_list := heappush entry_ltb (open_list st) item;
                  closed_set := closed_set st ∪ {[tobytes next_state]};
                  pushed := pushed st ++ [item] |}).
Proof.
  intros Hvalid Hact Ha.
  destruct (available_actions_legal _ _ _ _ Hvalid Hact Ha) as (H1 & H2 & _).
  pose proof Hvalid as (_ & Hsq & _).
  destruct (do_action_located _ _ a _ _ Hsq
              (in_grid_locate _ _ _ Hsq H1) (in_grid_locate _ _ _ Hsq H2))
    as (next_state & Hnext & _ & _).
  pose proof (do_action_valid _ _ _ _ Hvalid Hnext) as Hvalid'.
  destruct (manhattan_distance_nonneg _ _ Hvalid') as (md & Hmd & _).
  destruct (linear_conflict_nonneg D next_state) as (lc & Hlc & _);
    [apply Hvalid'|].
  exists next_state, md, lc. split_and!; [done..|].
  unfold expand. rewrite Hnext. simpl.
  case_bool_decide as Hin.
  - rewrite bool_decide_eq_false_2 by done. rewrite Hmd. simpl.
    rewrite Hlc. simpl. rewrite length_app. simpl.
    by replace (md + 2 * lc + Z.of_nat (length path + 1))
      with (Z.of_nat (length path) + 1 + (md + 2 * lc)) by lia.
  - rewrite bool_decide_eq_true_2; [done|].
    destruct (decide (tobytes next_state ∈ closed_set st)); [done|contradiction].
Qed.

(** C7: at the start of every turn of the loop the keys pushed so far are
    pairwise different and are exactly the members of the closed set (the
    key of the start board from before the loop, the others from the
    [add] that follows each [heappush]), and the open list holds pushed
    items only: no key is enqueued twice in a run of [A_star]. *)
Theorem A_star_enqueues_once (D : Z) (initial_state : ndarray) (st0 st : astar)
    (n : nat) (r c : Z) :
  A_star_init D initial_state = Ok st0 →
  A_star_after D n r c st0 = Some st →
  NoDup (e_bytes <$> pushed st) ∧
  (∀ k, k ∈ closed_set st ↔ k ∈ e_bytes <$> pushed st) ∧
  (∀ e, e ∈ open_list st → e ∈ pushed st).
Proof.
  intros Hinit Hafter.
  apply (A_star_after_inv D n r c st0); [|done].
  by apply (A_star_init_inv D initial_state).
Qed.

(** C8: when the open list is empty at the start of a turn, [A_star]
    returns [(None, -1, len(closed_set))] and raises nothing; the third
    component is the number of keys pushed, which are pairwise
    different. *)
Theorem A_star_exhausted (D : Z) (initial_state : ndarray) (st0 st : astar)
    (n fuel : nat) :
  let r := Z.of_nat (length initial_state) in
  let c := Z.of_nat (ncols initial_state) in
  A_star_init D initial_state = Ok st0 →
  A_star_after D n r c st0 = Some st →
  open_list st = [] →
  (n < fuel)%nat →
  A_star D fuel initial_state =
    Some (Ok (None, -1, Z.of_nat (size (closed_set st)))) ∧
  size (closed_set st) = length (pushed st) ∧
  NoDup (e_bytes <$> pushed st).
Proof.
  intros r c Hinit Hafter Hopen Hfuel.
  assert (astar_inv st) as Hinv.
  { apply (A_star_after_inv D n r c st0); [|done].
    by apply (A_star_init_inv D initial_state). }
  split_and!; [|by apply astar_inv_size|apply Hinv].
  unfold A_star. rewrite Hinit. fold r c.
  replace fuel with (n + S (fuel - S n))%nat by lia.
  rewrite (A_star_loop_after D n _ r c st0 st Hafter).
  simpl. unfold A_star_iter. by rewrite Hopen.
Qed.

Lemma A_star_enqueues_once_witness :
  ∃ st, A_star_after 3 2 3 3 (start 11 one_move3) = Some st ∧
        NoDup (e_bytes <$> pushed st).
Proof.
  eexists. split; [vm_compute; reflexivity|].
  refine (proj1 (A_star_enqueues_once 3 one_move3 (start 11 one_move3) _ 2 3 3 _ _)).
  - vm_compute. reflexivity.
  - vm_compute. reflexivity.
Defined.

Lemma A_star_exhausted_witness :
  ∃ st, A_star_after 2 12 2 2 (start 2 unsolvable2) = Some st ∧
        open_list st = [] ∧
        A_star 2 13 unsolvable2 = Some (Ok (None, -1, Z.of_nat (size (closed_set st)))) ∧
        size (closed_set st) = 12%nat.
Proof.
  eexists. split; [vm_compute; reflexivity|]. split; [reflexivity|].
  destruct (A_star_exhausted 2 unsolvable2 (start 2 unsolvable2) _ 12 13
              ltac:(vm_compute; reflexivity) ltac:(vm_compute; reflexivity)
              ltac:(reflexivity) ltac:(lia)) as (Hret & Hsize & _).
  split; [exact Hret|]. rewrite Hsize. reflexivity.
Defined.

(** ** beam_search *)

Lemma is_goal_true (D : Z) (s : ndarray) :
  is_goal D s = Ok true ↔ goal D = Ok s.
Proof.
  unfold is_goal. destruct (goal D) as [g|e]; simpl; [|done].
  case_bool_decide; split; congruence.
Qed.

Lemma difference_from_goal_same_shape (D : Z) (g : ndarray) :
  goal D = Ok g → ∃ d, difference_from_goal D g = Ok d.
Proof.
  intros Hg. unfold difference_from_goal. rewrite Hg. simpl.
  rewrite bool_decide_eq_true_2; [eauto|].
  split; [done|]. by apply Forall2_same_length_lookup_2; [|intros; simplify_eq].
Qed.

(** C10: on a board that is the goal, [beam_search] returns before
    the first turn of its loop: the queue holds the one item pushed at
    the start, the loop condition is false, and the call returns the
    board it was given with 0 nodes evaluated and 0 boards visited,
    whatever the beam size, the random source and the fuel. *)
Theorem beam_search_goal (D : Z) (rand : nat → nat → nat) (fuel : nat)
    (state : ndarray) (beam_size : Z) :
  is_goal D state = Ok true →
  (∃ st, beam_init D state = Ok st ∧
         length (priority_queue st) = 1%nat ∧ visited st = ∅ ∧
         beam_cond D st = Ok false) ∧
  beam_search D rand fuel state beam_size = Some (Ok (state, 0, 0)).
Proof.
  intros Hgoal.
  destruct (difference_from_goal_same_shape D state) as [d Hd];
    [by apply is_goal_true|].
  unfold beam_search, beam_init. rewrite Hd. simpl. split.
  - eexists. split_and!; [done..|].
    unfold beam_cond. simpl. by rewrite Hgoal.
  - destruct fuel; simpl; unfold beam_cond; simpl; by rewrite Hgoal.
Qed.

Lemma beam_search_goal_witness :
  beam_search 3 (λ k n, k) 0 goal3 4 = Some (Ok (goal3, 0, 0)).
Proof.
  refine (proj2 (beam_search_goal 3 (λ k n, k) 0 goal3 4 _)).
  vm_compute. reflexivity.
Defined.

(** ** The heuristics and the goal *)

(** C1 fails on the code.  [goal_positions] places tile [i] at
    [(i // PUZZLE_DIM, i % PUZZLE_DIM)], the cell it has on the board
    that starts with the blank, while the goal of [is_goal] ends with it;
    and [linear_conflict] counts the blank among the inversions.  On the
    goal of the 3x3 puzzle they return 12 and 4, and they vanish on the
    board that starts with the blank instead. *)
Theorem heuristics_at_goal :
  goal 3 = Ok goal3 ∧ is_goal 3 goal3 = Ok true ∧
  manhattan_distance 3 goal3 = Ok 12 ∧
  linear_conflict 3 goal3 = Ok 4 ∧
  manhattan_distance 3 [[0;1;2];[3;4;5];[6;7;8]] = Ok 0 ∧
  linear_conflict 3 [[0;1;2];[3;4;5];[6;7;8]] = Ok 0.
Proof. split_and!; vm_compute; reflexivity. Qed.

(** C2 fails on the code, by the same table of goal positions: the goal
    itself, reachable in 0 moves, has distance 12, and the board one move
    away has distance 11. *)
Theorem manhattan_distance_overestimates :
  reachable 3 0 goal3 ∧ manhattan_distance 3 goal3 = Ok 12 ∧
  reachable 3 1 one_move3 ∧ manhattan_distance 3 one_move3 = Ok 11.
Proof.
  assert (reachable 3 0 goal3) as H0 by (by constructor).
  split_and!; [done | by vm_compute | | by vm_compute].
  apply (reachable_move 3 0 goal3
           [action (2, 2) (1, 2); action (2, 2) (2, 1)] (action (2, 2) (1, 2)));
    [done | by vm_compute | left | by vm_compute].
Qed.

(** ** Byte keys *)

Lemma le_value_le_bytes (n : nat) (v : Z) :
  le_value (le_bytes n v) = v `mod` 256 ^ Z.of_nat n.
Proof.
  revert v. induction n as [|n IH]; intros v.
  - simpl. by rewrite Z.mod_1_r.
  - cbn [le_bytes le_value]. rewrite IH, Nat2Z.inj_succ, Z.pow_succ_r by lia.
    by rewrite Z.rem_mul_r by lia.
Qed.

Lemma length_le_bytes (n : nat) (v : Z) : length (le_bytes n v) = n.
Proof. revert v. induction n as [|n IH]; intros v; simpl; [done|]. by rewrite IH. Qed.

Lemma int64_of_le_bytes (v : Z) :
  int64 v → int64_of_bytes (le_bytes 8 v) = v.
Proof.
  unfold int64. intros Hv. unfold int64_of_bytes. rewrite le_value_le_bytes.
  change (256 ^ Z.of_nat 8) with (2 ^ 64).
  destruct (decide (0 ≤ v)).
  - rewrite Z.mod_small by lia. by rewrite bool_decide_eq_true_2 by lia.
  - rewrite <-(Z.mod_add v 1) by lia. rewrite Z.mod_small by lia.
    rewrite bool_decide_eq_false_2 by lia. lia.
Qed.

(** Cutting the concatenation of rows of width [w] into pieces of width
    [w] gives the rows back. *)
Lemma chunks_join {A : Type} (w : nat) (ls : list (list A)) :
  Forall (λ l, length l = w) ls →
  (λ k, take w (drop (k * w) (mjoin ls))) <$> seq 0 (length ls) = ls.
Proof.
  induction 1 as [|l ls Hl _ IH]; [done|].
  cbn [length seq]. rewrite fmap_cons. f_equal.
  - simpl. by apply take_app_length'.
  - rewrite <-fmap_S_seq, <-list_fmap_compose. rewrite <-IH at 2.
    apply list_fmap_ext. intros _ k _. simpl.
    by rewrite drop_app_add'.
Qed.

Lemma sum_list_length_rows {A : Type} (w : nat) (ls : list (list A)) :
  Forall (λ l, length l = w) ls → length (mjoin ls) = (length ls * w)%nat.
Proof.
  intros Hls. rewrite length_join, (sum_list_fmap_same w) by done. done.
Qed.

(** Decoding the bytes of an array of 64-bit integers gives its values, in
    row-major order. *)
Lemma frombuffer_tobytes (s : ndarray) :
  Forall int64 (mjoin s) → frombuffer (tobytes s) = Ok (mjoin s).
Proof.
  intros Hint. unfold frombuffer, tobytes.
  assert (Forall (λ l : list Z, length l = 8%nat) (le_bytes 8 <$> mjoin s)) as Hrows.
  { apply Forall_fmap, Forall_forall. intros v _. apply length_le_bytes. }
  rewrite (sum_list_length_rows 8) by done. rewrite length_fmap.
  rewrite Nat.Div0.mod_mul, Nat.div_mul by done.
  rewrite bool_decide_eq_true_2 by done. f_equal.
  rewrite <-(length_fmap (le_bytes 8)).
  trans (int64_of_bytes <$>
           ((λ k, take 8 (drop (k * 8) (mjoin (le_bytes 8 <$> mjoin s)))) <$>
              seq 0 (length (le_bytes 8 <$> mjoin s)))).
  { by rewrite <-list_fmap_compose. }
  rewrite (chunks_join 8) by done.
  rewrite <-list_fmap_compose. rewrite <-(list_fmap_id (mjoin s)) at 2.
  apply list_fmap_ext. intros i v Hv. simpl. apply int64_of_le_bytes.
  by eapply Forall_lookup_1 in Hint.
Qed.

Lemma reshape_join (n : nat) (s : ndarray) :
  square n s → reshape (Z.of_nat n) (Z.of_nat n) (mjoin s) = Ok s.
Proof.
  intros [<- Hrows]. unfold reshape.
  rewrite (sum_list_length_rows (length s)) by done.
  rewrite bool_decide_eq_true_2 by lia. rewrite Nat2Z.id. f_equal.
  by apply chunks_join.
Qed.

(** ** The goal is a valid board, and so is every board reached from it *)

Lemma join_chunks {A : Type} (w r : nat) (l : list A) :
  length l = (r * w)%nat →
  mjoin ((λ x, take w (drop (x * w) l)) <$> seq 0 r) = l.
Proof.
  revert l. induction r as [|r IH]; intros l Hl.
  - by destruct l.
  - cbn [seq]. rewrite fmap_cons. cbn [mjoin list_join].
    rewrite <-fmap_S_seq, <-list_fmap_compose.
    trans (take w l ++ drop w l); [|apply take_drop]. f_equal.
    rewrite <-(IH (drop w l)) by (rewrite length_drop; lia).
    f_equal. apply list_fmap_ext. intros _ x _. simpl.
    by rewrite drop_drop.
Qed.

Lemma goal_valid (D : Z) :
  1 ≤ D → ∃ g, goal D = Ok g ∧ valid D g.
Proof.
  intros HD. unfold goal, reshape.
  assert (length (range 1 (D ^ 2) ++ [0]) = (Z.to_nat D * Z.to_nat D)%nat) as Hlen.
  { rewrite length_app. unfold range. rewrite length_seqZ. simpl. nia. }
  rewrite bool_decide_eq_true_2 by (rewrite Hlen; lia).
  eexists. split; [done|]. split_and!; [done| |].
  - split; [by rewrite length_fmap, length_seq|].
    apply Forall_fmap, Forall_forall. intros x Hx%elem_of_seq. simpl.
    rewrite length_take, length_drop, Hlen. nia.
  - rewrite join_chunks by done.
    unfold range. rewrite (seqZ_cons 0) by lia.
    rewrite <-Permutation_cons_append.
    by replace (Z.pred (D ^ 2 - 0)) with (D ^ 2 - 1) by lia.
Qed.

Lemma reachable_valid (D : Z) (k : nat) (b : ndarray) :
  1 ≤ D → reachable D k b → valid D b.
Proof.
  intros HD. induction 1 as [g Hg|k b actions a b' _ IH _ _ Hdo].
  - destruct (goal_valid D HD) as (g' & Hg' & Hvalid). congruence.
  - by eapply do_action_valid.
Qed.

(** ** A_star raises nothing on a valid board *)

Lemma valid_int64 (D : Z) (b : ndarray) :
  valid D b → D ^ 2 ≤ 2 ^ 63 → Forall int64 (mjoin b).
Proof.
  intros (HD & _ & Hperm) Hbound. rewrite Hperm.
  apply Forall_forall. intros v Hv%elem_of_range. unfold int64. lia.
Qed.

(** The key of a valid board decodes to the board. *)
Lemma decode_tobytes (D : Z) (b : ndarray) :
  valid D b → D ^ 2 ≤ 2 ^ 63 →
  frombuffer (tobytes b) ≫= reshape D D = Ok b.
Proof.
  intros Hvalid Hbound.
  rewrite frombuffer_tobytes by by eapply valid_int64. simpl.
  destruct Hvalid as (HD & Hsq & _).
  rewrite <-(Z2Nat.id D) at 1 2 by lia. by apply reshape_join.
Qed.


Lemma expand_open_valid (D : Z) (current_state : ndarray) (path : list Action)
    (actions : list Action) (st : astar) (a : Action) :
  valid D current_state →
  available_actions D current_state = Ok actions → a ∈ actions →
  open_valid D st →
  ∃ st', expand D current_state path st a = Ok st' ∧ open_valid D st'.
Proof.
  intros Hvalid Hact Ha Hopen.
  destruct (expand_successor D current_state path actions st a)
    as (next_state & md & lc & _ & Hnext & _ & _ & ->); [done..|].
  eexists. split; [done|]. case_bool_decide; [done|].
  intros e [->|He]%elem_of_heappush; [|by apply Hopen].
  by exists next_state.
Qed.

(** A turn of the loop on valid keys raises nothing and keeps the keys
    valid; the board it pops is valid. *)
Lemma A_star_iter_open_valid (D : Z) (st : astar) :
  1 ≤ D → D ^ 2 ≤ 2 ^ 63 → open_valid D st →
  (∃ ans, A_star_iter D D D st = Ok (inr ans)) ∨
  (∃ st', A_star_iter D D D st = Ok (inl st') ∧ open_valid D st').
Proof.
  intros HD Hbound Hopen. unfold A_star_iter.
  destruct (open_list st) as [|item rest] eqn:Hpop; simpl; [by eauto|].
  destruct (Hopen item) as (b & Hvalid & Hkey); [rewrite Hpop; by left|].
  pose proof (decode_tobytes D b Hvalid Hbound) as Hdecode.
  rewrite <-Hkey in Hdecode. apply bind_Ok in Hdecode as (flat & Hflat & Hb).
  rewrite Hflat. simpl. rewrite Hb. simpl.
  destruct (goal_valid D HD) as (g & Hg & _).
  unfold is_goal. rewrite Hg. simpl.
  case_bool_decide; [by eauto|]. right.
  destruct (valid_blank _ _ Hvalid) as (p & Hw & Hp & _).
  pose proof (available_actions_blank D b p [] Hw Hp) as Hact.
  rewrite Hact. simpl.
  destruct (for_each_invariant (open_valid D)
              (action p <$> filter (in_grid D) (neighbours p))
              (expand D b (e_path item))
              {| open_list := rest; closed_set := closed_set st;
                 pushed := pushed st |}) as (st' & -> & Hst').
  - intros st1 a Ha Hst1. by eapply expand_open_valid.
  - intros e He. apply Hopen. rewrite Hpop. by right.
  - simpl. eauto.
Qed.

(** On a valid board [A_star] raises nothing, whatever the fuel. *)
Lemma A_star_no_exception (D : Z) (fuel : nat) (initial_state : ndarray) (e : exn) :
  valid D initial_state → D ^ 2 ≤ 2 ^ 63 →
  A_star D fuel initial_state ≠ Some (Raise e).
Proof.
  intros Hvalid Hbound. unfold A_star, A_star_init.
  destruct (manhattan_distance_nonneg _ _ Hvalid) as (md & -> & _). simpl.
  pose proof Hvalid as (HD & Hsq & _).
  rewrite (square_ncols _ _ Hsq). destruct Hsq as [-> _].
  rewrite Z2Nat.id by lia.
  assert (open_valid D (start md initial_state)) as Hopen.
  { intros e' ->%list_elem_of_singleton. by exists initial_state. }
  change (A_star_loop D fuel D D (start md initial_state) ≠ Some (Raise e)).
  revert Hopen. generalize (start md initial_state).
  induction fuel as [|fuel IH]; intros st Hopen; simpl; [done|].
  destruct (A_star_iter_open_valid D st HD Hbound Hopen)
    as [[ans ->]|(st' & -> & Hopen')]; [done|]. by apply IH.
Qed.

(** In a run of [A_star] from a valid board every key of the open list is
    the key of a valid board. *)
Lemma A_star_after_open_valid (D : Z) (n : nat) (st st' : astar) :
  1 ≤ D → D ^ 2 ≤ 2 ^ 63 → open_valid D st →
  A_star_after D n D D st = Some st' → open_valid D st'.
Proof.
  intros HD Hbound. revert st. induction n as [|n IH]; intros st Hopen; simpl.
  - by intros [= <-].
  - destruct (A_star_iter_open_valid D st HD Hbound Hopen)
      as [[ans ->]|(st1 & -> & Hopen1)]; [done|]. by apply IH.
Qed.

(** * Further properties *)

(** ** available_actions without a blank *)

Lemma where_zero_nil (s : ndarray) : where_zero s = [] ↔ 0 ∉ mjoin s.
Proof.
  split.
  - intros Hnil (row & Hin & Hrow)%list_elem_of_join.
    apply list_elem_of_lookup in Hrow as [i Hi].
    apply list_elem_of_lookup in Hin as [j Hj].
    assert ((0 + Z.of_nat i, Z.of_nat j) ∈ where_zero_from s 0) as Hp.
    { apply where_zero_from_spec. exists i, j. split; [done|].
      unfold cell. simpl. by rewrite Hi. }
    fold (where_zero s) in Hp. rewrite Hnil in Hp. by apply elem_of_nil in Hp.
  - intros Hno. destruct (where_zero s) as [|p rest] eqn:Hw; [done|].
    exfalso. apply Hno.
    assert (p ∈ where_zero_from s 0) as Hp.
    { fold (where_zero s). rewrite Hw. left. }
    apply where_zero_from_spec in Hp as (i & j & _ & Hij).
    by eapply cell_elem_of_join.
Qed.

(** X1: on a two-dimensional array [available_actions] raises exactly
    when the array holds no 0, and then [IndexError] (from [_[0]] on the
    empty result of [np.where]); on every two-dimensional array that holds
    a 0, whatever its numbers of rows and columns and however many zeros
    it holds, it returns a list of moves. *)
Theorem available_actions_raises (D : Z) (s : ndarray) :
  (∀ e, available_actions D s = Raise e ↔ e = IndexError ∧ 0 ∉ mjoin s) ∧
  (0 ∈ mjoin s → ∃ actions, available_actions D s = Ok actions).
Proof.
  split.
  - intros e. rewrite <-where_zero_nil. unfold available_actions.
    destruct (where_zero s) as [|[x y] rest]; [|by split; [|intros [_ ?]]].
    split; [by intros [= <-] | by intros [-> _]].
  - intros Hin. unfold available_actions.
    destruct (where_zero s) as [|[x y] rest] eqn:Hw; [|by eauto].
    by apply where_zero_nil in Hw.
Qed.

(** ** do_action keeps the shape and the values *)

(** X2: whatever the two positions are, when [do_action] returns on a
    square array the result has the same shape and holds the same values
    as many times each. *)
Theorem do_action_permutes (n : nat) (s s' : ndarray) (a : Action) :
  square n s → do_action s a = Ok s' →
  square n s' ∧ mjoin s' ≡ₚ mjoin s.
Proof.
  intros Hsq Hdo.
  destruct (do_action_Ok_located n s _ a ltac:(done) Hdo) as (ij1 & ij2 & H1 & H2).
  destruct (do_action_located _ _ _ _ _ Hsq H1 H2) as (s1 & Hs1 & Hsq1 & Hex).
  assert (s1 = s') as -> by congruence.
  destruct (locate_Ok _ _ _ _ Hsq H1), (locate_Ok _ _ _ _ Hsq H2).
  split; [done|]. by apply (exchanged_Permutation n s s' ij1 ij2).
Qed.

Lemma do_action_permutes_witness :
  square 3 [[6;2;3];[4;5;1];[7;8;0]] ∧
  mjoin [[6;2;3];[4;5;1];[7;8;0]] ≡ₚ mjoin goal3.
Proof.
  apply (do_action_permutes 3 goal3 _ (action (0, 0) (-2, -1))).
  - split; [reflexivity | repeat constructor].
  - vm_compute. reflexivity.
Defined.

(** ** difference_from_goal *)

Lemma mismatch_bounds (l1 l2 : list Z) :
  0 ≤ sum ((λ '(a, b), if bool_decide (a ≠ b) then 1 else 0) <$> zip l1 l2)
    ≤ Z.of_nat (length l1).
Proof.
  revert l2. induction l1 as [|x l1 IH]; intros [|y l2]; cbn -[Z.of_nat]; try lia.
  specialize (IH l2). unfold sum in IH. case_bool_decide; lia.
Qed.

Lemma mismatch_zero (l1 l2 : list Z) :
  length l1 = length l2 →
  sum ((λ '(a, b), if bool_decide (a ≠ b) then 1 else 0) <$> zip l1 l2) = 0 ↔
  l1 = l2.
Proof.
  revert l2. induction l1 as [|x l1 IH]; intros [|y l2] Hlen; csimpl in *; try done.
  pose proof (mismatch_bounds l1 l2) as Hb. specialize (IH l2 ltac:(lia)).
  unfold sum in *. case_bool_decide as Hxy.
  - split; [lia | by intros [= ? ?]].
  - subst y. rewrite Z.add_0_l, IH.
    split; [by intros -> | by intros [= ?]].
Qed.

Lemma square_join_inj (n : nat) (s s' : ndarray) :
  square n s → square n s' → mjoin s = mjoin s' → s = s'.
Proof.
  intros Hs Hs' Heq. pose proof (reshape_join n s Hs) as H1.
  rewrite Heq, (reshape_join n s' Hs') in H1. congruence.
Qed.

Lemma square_same_shape (n : nat) (s s' : ndarray) :
  square n s → square n s' →
  length s = length s' ∧ Forall2 (λ r1 r2 : list Z, length r1 = length r2) s s'.
Proof.
  intros Hs Hs'. assert (length s = length s') as Hlen.
  { destruct Hs, Hs'. congruence. }
  split; [done|]. apply Forall2_same_length_lookup_2; [done|].
  intros i r1 r2 H1 H2.
  by rewrite (square_lookup _ _ _ _ Hs H1), (square_lookup _ _ _ _ Hs' H2).
Qed.

(** X3: on every array of shape [(PUZZLE_DIM, PUZZLE_DIM)]
    [difference_from_goal] raises nothing and returns a count between 0
    and [PUZZLE_DIM²], which is 0 exactly when [is_goal] is true. *)
Theorem difference_from_goal_zero (D : Z) (s : ndarray) :
  1 ≤ D → square (Z.to_nat D) s →
  ∃ d, difference_from_goal D s = Ok d ∧ 0 ≤ d ≤ D ^ 2 ∧
       (d = 0 ↔ is_goal D s = Ok true).
Proof.
  intros HD Hsq. destruct (goal_valid D HD) as (g & Hg & _ & Hsqg & _).
  unfold difference_from_goal. rewrite Hg. simpl.
  rewrite bool_decide_eq_true_2 by by eapply square_same_shape.
  eexists. split; [done|].
  pose proof (mismatch_bounds (mjoin s) (mjoin g)) as Hb.
  rewrite (sum_list_length_rows (Z.to_nat D)) in Hb by apply Hsq.
  destruct Hsq as [Hlen Hrows]. rewrite Hlen in Hb.
  split; [nia|].
  rewrite mismatch_zero, is_goal_true.
  - rewrite Hg. split; [intros ?%(square_join_inj (Z.to_nat D)); [congruence|done..] | by intros [= ->]].
  - rewrite !(sum_list_length_rows (Z.to_nat D)) by (done || apply Hsqg).
    destruct Hsqg as [-> _]. by rewrite Hlen.
Qed.

Lemma difference_from_goal_zero_witness :
  ∃ d, difference_from_goal 3 one_move3 = Ok d ∧ 0 ≤ d ≤ 3 ^ 2 ∧
       (d = 0 ↔ is_goal 3 one_move3 = Ok true).
Proof.
  apply (difference_from_goal_zero 3 one_move3); [lia|].
  split; [reflexivity | repeat constructor].
Defined.

(** ** manhattan_distance and values that are not tiles *)

Lemma for_each_cases {A S : Type} (e : exn) (l : list A)
    (body : S → A → result S) (s : S) :
  (∀ s x, x ∈ l → (∃ s', body s x = Ok s') ∨ body s x = Raise e) →
  (∃ s', for_each l body s = Ok s') ∨ for_each l body s = Raise e.
Proof.
  revert s. induction l as [|x l IH]; intros s Hbody; simpl; [by eauto|].
  destruct (Hbody s x) as [[s' ->]| ->]; [left|..]; simpl; [|by right].
  apply IH. intros s1 y Hy. apply Hbody. by right.
Qed.

Lemma for_each_raise {A S : Type} (e : exn) (l : list A)
    (body : S → A → result S) (s : S) :
  (∀ s x, x ∈ l → (∃ s', body s x = Ok s') ∨ body s x = Raise e) →
  (∃ x, x ∈ l ∧ ∀ s, body s x = Raise e) →
  for_each l body s = Raise e.
Proof.
  revert s. induction l as [|x l IH]; intros s Hbody (bad & Hin & Hbad); simpl.
  - by apply elem_of_nil in Hin.
  - apply elem_of_cons in Hin as [->|Hin]; [by rewrite Hbad|].
    destruct (Hbody s x) as [[s' ->]| ->]; [left|..]; simpl; [|done].
    apply IH; [|by eauto]. intros s1 y Hy. apply Hbody. by right.
Qed.

Lemma goal_positions_None (D v : Z) :
  ¬ (1 ≤ v < D ^ 2) → goal_positions D !! v = None.
Proof.
  intros Hv. unfold goal_positions. apply not_elem_of_list_to_map_1.
  rewrite <-list_fmap_compose.
  intros (i & -> & Hi%elem_of_range)%list_elem_of_fmap. simpl in Hv. lia.
Qed.

Lemma elem_of_join_cell (n : nat) (s : ndarray) (v : Z) :
  square n s → v ∈ mjoin s →
  ∃ i j, (i < n)%nat ∧ (j < n)%nat ∧ cell s (i, j) = Some v.
Proof.
  intros Hsq (row & Hv & Hrow)%list_elem_of_join.
  apply list_elem_of_lookup in Hrow as [i Hi].
  apply list_elem_of_lookup in Hv as [j Hj].
  exists i, j. split_and!.
  - apply lookup_lt_Some in Hi. destruct Hsq. lia.
  - apply lookup_lt_Some in Hj. by rewrite (square_lookup _ _ _ _ Hsq Hi) in Hj.
  - unfold cell. simpl. by rewrite Hi.
Qed.

(** What one turn of the inner loop of [manhattan_distance] does *)
Lemma manhattan_distance_cell (D : Z) (s : ndarray) (x y d v : Z) :
  square (Z.to_nat D) s → 0 ≤ x < D → 0 ≤ y < D →
  cell s (Z.to_nat x, Z.to_nat y) = Some v →
  (value ← getitem s (x, y);
   if bool_decide (value ≠ 0) then
     match goal_positions D !! value with
     | Some (goal_x, goal_y) =>
         Ok (d + (Z.abs (x - goal_x) + Z.abs (y - goal_y)))
     | None => Raise KeyError
     end
   else Ok d) =
  if bool_decide (v = 0) then Ok d
  else if bool_decide (1 ≤ v < D ^ 2) then
    Ok (d + (Z.abs (x - v `div` D) + Z.abs (y - v `mod` D)))
  else Raise KeyError.
Proof.
  intros Hsq Hx Hy Hv. unfold getitem.
  rewrite (locate_in_grid (Z.to_nat D)) by (done || lia). simpl.
  rewrite Hv. simpl. repeat case_bool_decide; try done.
  - by rewrite goal_positions_lookup.
  - by rewrite goal_positions_None.
Qed.

(** X4: on an array of shape [(PUZZLE_DIM, PUZZLE_DIM)]
    [manhattan_distance] returns (a number that is not negative) when every
    cell holds a value of [0 .. PUZZLE_DIM² - 1], repeated or not, and
    raises [KeyError], from [goal_positions[value]], when some cell holds
    another value. *)
Theorem manhattan_distance_KeyError (D : Z) (s : ndarray) :
  1 ≤ D → square (Z.to_nat D) s →
  (Forall (λ v, 0 ≤ v < D ^ 2) (mjoin s) →
     ∃ d, manhattan_distance D s = Ok d ∧ 0 ≤ d) ∧
  (¬ Forall (λ v, 0 ≤ v < D ^ 2) (mjoin s) →
     manhattan_distance D s = Raise KeyError).
Proof.
  intros HD Hsq. split.
  - intros Hall. unfold manhattan_distance.
    apply (for_each_invariant (λ d, 0 ≤ d)); [|done].
    intros d x Hx%elem_of_range Hd.
    apply (for_each_invariant (λ d, 0 ≤ d)); [|done].
    clear d Hd. intros d y Hy%elem_of_range Hd.
    destruct (square_cell (Z.to_nat D) s (Z.to_nat x) (Z.to_nat y)) as [v Hv];
      [done | lia.. |].
    rewrite (manhattan_distance_cell D s x y d v) by (done || lia).
    assert (0 ≤ v < D ^ 2) as Hrange.
    { apply cell_elem_of_join in Hv. by eapply Forall_forall in Hall. }
    repeat case_bool_decide; try lia; eexists; (split; [done|lia]).
  - intros (v & Hin & Hv)%not_Forall_Exists%Exists_exists; [|apply _].
    destruct (elem_of_join_cell _ _ _ Hsq Hin) as (i & j & Hi & Hj & Hcell).
    unfold manhattan_distance.
    match goal with |- for_each _ ?outer _ = _ => set (turn := outer) end.
    assert (∀ x y, x ∈ range 0 D → y ∈ range 0 D →
              ∃ w, cell s (Z.to_nat x, Z.to_nat y) = Some w) as Hcells.
    { intros x y Hx%elem_of_range Hy%elem_of_range.
      apply (square_cell (Z.to_nat D)); [done|lia..]. }
    assert (∀ d x, x ∈ range 0 D →
              (∃ d', turn d x = Ok d') ∨ turn d x = Raise KeyError) as Hturn.
    { intros d x Hx. apply for_each_cases. intros d1 y Hy.
      destruct (Hcells x y Hx Hy) as [w Hw].
      apply elem_of_range in Hx, Hy.
      rewrite (manhattan_distance_cell D s x y d1 w) by (done || lia).
      repeat case_bool_decide; eauto. }
    apply for_each_raise; [done|].
    exists (Z.of_nat i). split; [apply elem_of_range; lia|].
    intros d. apply for_each_raise.
    + intros d1 y Hy.
      destruct (Hcells (Z.of_nat i) y) as [w Hw]; [apply elem_of_range; lia|done|].
      apply elem_of_range in Hy.
      rewrite (manhattan_distance_cell D s _ y d1 w) by (done || lia).
      repeat case_bool_decide; eauto.
    + exists (Z.of_nat j). split; [apply elem_of_range; lia|].
      intros d'.
      rewrite (manhattan_distance_cell D s _ _ d' v);
        rewrite ?Nat2Z.id; try (done || lia).
      unfold compose in Hv. repeat case_bool_decide; try done; lia.
Qed.

Lemma manhattan_distance_KeyError_witness :
  manhattan_distance 3 [[1;2;3];[4;5;6];[7;9;0]] = Raise KeyError.
Proof.
  refine (proj2 (manhattan_distance_KeyError 3 [[1;2;3];[4;5;6];[7;9;0]] _ _) _).
  - lia.
  - split; [reflexivity | repeat constructor].
  - intros Hall. apply Forall_forall with (x := 9) in Hall; [lia|].
    vm_compute. repeat (first [left; reflexivity | right]).
Defined.

(** ** Keys and boards *)

Lemma tobytes_inj (n : nat) (s s' : ndarray) :
  square n s → square n s' →
  Forall int64 (mjoin s) → Forall int64 (mjoin s') →
  tobytes s = tobytes s' → s = s'.
Proof.
  intros Hs Hs' Hi Hi' Heq. apply (square_join_inj n); [done..|].
  pose proof (frombuffer_tobytes s Hi) as H1.
  rewrite Heq, (frombuffer_tobytes s' Hi') in H1. congruence.
Qed.

(** X5: for a square array of 64-bit integers,
    [np.frombuffer(state.tobytes(), dtype=int).reshape(state.shape)] is the
    array again, and two such arrays of one shape with the same bytes are
    equal: the byte keys of the closed set identify the boards. *)
Theorem frombuffer_tobytes_roundtrip (n : nat) (s : ndarray) :
  square n s → Forall int64 (mjoin s) →
  frombuffer (tobytes s) ≫= reshape (Z.of_nat n) (Z.of_nat n) = Ok s ∧
  ∀ s', square n s' → Forall int64 (mjoin s') → tobytes s' = tobytes s → s' = s.
Proof.
  intros Hsq Hint. split.
  - rewrite frombuffer_tobytes by done. simpl. by apply reshape_join.
  - intros s' Hsq' Hint' Heq. by apply (tobytes_inj n).
Qed.

Lemma frombuffer_tobytes_roundtrip_witness :
  frombuffer (tobytes goal3) ≫= reshape 3 3 = Ok goal3.
Proof.
  refine (proj1 (frombuffer_tobytes_roundtrip 3 goal3 _ _)).
  - split; [reflexivity | repeat constructor].
  - repeat constructor; unfold int64; lia.
Defined.

(** ** Moves can be undone *)

Lemma exchanged_unique (n : nat) (s s1 s2 : ndarray) (ij1 ij2 : nat * nat) :
  square n s1 → square n s2 →
  exchanged s s1 ij1 ij2 → exchanged s s2 ij2 ij1 → s1 = s2.
Proof.
  intros H1 H2 (Ha & Hb & Hc) (Ha' & Hb' & Hc').
  apply (square_ext n); [done..|]. intros i j _ _.
  destruct (decide ((i, j) = ij1)) as [->|Hne1]; [congruence|].
  destruct (decide ((i, j) = ij2)) as [->|Hne2]; [congruence|].
  rewrite Hc, Hc' by done. done.
Qed.

(** The order of the two positions of a move does not matter for what
    [do_action] returns. *)
Lemma do_action_sym (n : nat) (s s' : ndarray) (p q : pos) :
  square n s → do_action s (action p q) = Ok s' → do_action s (action q p) = Ok s'.
Proof.
  intros Hsq Hdo.
  destruct (do_action_Ok_located n s _ _ Hsq Hdo) as (ij1 & ij2 & H1 & H2).
  simpl in H1, H2.
  destruct (do_action_located n s (action p q) ij1 ij2) as (s1 & Hs1 & Hsq1 & Hex1);
    [done..|].
  destruct (do_action_located n s (action q p) ij2 ij1) as (s2 & -> & Hsq2 & Hex2);
    [done..|].
  assert (s1 = s') as -> by congruence.
  f_equal. symmetry. by eapply exchanged_unique.
Qed.

Lemma neighbours_sym (p q : pos) : q ∈ neighbours p → p ∈ neighbours q.
Proof.
  destruct p as [x y]. unfold neighbours. simpl.
  rewrite !elem_of_cons, !elem_of_nil.
  intros [->|[->|[->|[->|[]]]]]; simpl;
    [right; left | left | right; right; right; left | right; right; left];
    f_equal; lia.
Qed.

(** What a move of [available_actions] does to a valid board *)
Lemma legal_move_result (D : Z) (b b' : ndarray) (actions : list Action) (a : Action) :
  valid D b → available_actions D b = Ok actions → a ∈ actions →
  do_action b a = Ok b' →
  valid D b' ∧ where_zero b = [pos1 a] ∧ where_zero b' = [pos2 a] ∧
  in_grid D (pos1 a) ∧ in_grid D (pos2 a) ∧ pos2 a ∈ neighbours (pos1 a) ∧
  exchanged b b' (Z.to_nat (pos1 a).1, Z.to_nat (pos1 a).2)
                 (Z.to_nat (pos2 a).1, Z.to_nat (pos2 a).2).
Proof.
  intros Hvalid Hact Ha Hdo.
  destruct (valid_blank _ _ Hvalid) as (p & Hw & Hp & Hget).
  rewrite (available_actions_blank D b p []) in Hact by done.
  injection Hact as <-.
  apply list_elem_of_fmap in Ha as (q & -> & Hq).
  apply list_elem_of_filter in Hq as [Hin Hq]. simpl in *.
  pose proof Hvalid as (_ & Hsq & _).
  pose proof (in_grid_locate _ _ _ Hsq Hp) as Hl1.
  pose proof (in_grid_locate _ _ _ Hsq Hin) as Hl2.
  destruct (do_action_located _ _ (action p q) _ _ Hsq Hl1 Hl2)
    as (s' & Hs' & Hsq' & Hex).
  assert (s' = b') as -> by congruence.
  pose proof (do_action_valid _ _ _ _ Hvalid Hdo) as Hvalid'.
  split_and!; try done.
  destruct (valid_blank _ _ Hvalid') as (p' & Hw' & Hp' & Hget').
  rewrite Hw'. f_equal.
  assert (q ∈ where_zero b') as Hqin; [|rewrite Hw' in Hqin; by apply list_elem_of_singleton in Hqin].
  apply where_zero_from_spec. exists (Z.to_nat q.1), (Z.to_nat q.2).
  destruct Hin as [? ?]. split; [destruct q; simpl in *; f_equal; lia|].
  destruct Hex as (_ & -> & _).
  unfold getitem in Hget. rewrite Hl1 in Hget. simpl in Hget.
  destruct (cell b (Z.to_nat p.1, Z.to_nat p.2)); by simplify_eq.
Qed.

(** X6: after a move of [available_actions] on a valid board the blank is
    at [pos2], and [available_actions] offers on the result the move back,
    from [pos2] to [pos1], which [do_action] turns into the board before
    the move. *)
Theorem available_actions_reverse (D : Z) (b b' : ndarray)
    (actions : list Action) (a : Action) :
  valid D b → available_actions D b = Ok actions → a ∈ actions →
  do_action b a = Ok b' →
  where_zero b' = [pos2 a] ∧
  ∃ actions', available_actions D b' = Ok actions' ∧
    action (pos2 a) (pos1 a) ∈ actions' ∧
    do_action b' (action (pos2 a) (pos1 a)) = Ok b.
Proof.
  intros Hvalid Hact Ha Hdo.
  destruct (legal_move_result _ _ _ _ _ Hvalid Hact Ha Hdo)
    as (Hvalid' & _ & Hw' & H1 & H2 & Hn & _).
  split; [done|]. eexists. split_and!.
  - by apply (available_actions_blank D b' (pos2 a) []).
  - apply list_elem_of_fmap_2, list_elem_of_filter. split; [done|].
    by apply neighbours_sym.
  - destruct Hvalid as (_ & Hsq & _). destruct Hvalid' as (_ & Hsq' & _).
    apply (do_action_sym (Z.to_nat D)); [done|].
    apply (do_action_involutive (Z.to_nat D)); [done|].
    by destruct a.
Qed.

Lemma available_actions_reverse_witness :
  where_zero one_move3 = [(1, 2)] ∧
  ∃ actions', available_actions 3 one_move3 = Ok actions' ∧
    action (1, 2) (2, 2) ∈ actions' ∧
    do_action one_move3 (action (1, 2) (2, 2)) = Ok goal3.
Proof.
  apply (available_actions_reverse 3 goal3 one_move3
           [action (2, 2) (1, 2); action (2, 2) (2, 1)] (action (2, 2) (1, 2))).
  - solve_valid.
  - reflexivity.
  - left.
  - reflexivity.
Defined.

(** ** manhattan_distance along moves *)

Lemma sum_cons (x : Z) (l : list Z) : sum (x :: l) = x + sum l.
Proof. done. Qed.

Lemma for_each_sum {A : Type} (l : list A) (f : A → Z)
    (body : Z → A → result Z) (d : Z) :
  (∀ d x, x ∈ l → body d x = Ok (d + f x)) →
  for_each l body d = Ok (d + sum (f <$> l)).
Proof.
  revert d. induction l as [|x l IH]; intros d Hbody.
  - simpl. f_equal. unfold sum. simpl. lia.
  - rewrite fmap_cons, sum_cons. cbn [for_each]. rewrite Hbody by left. simpl.
    rewrite IH; [f_equal; lia|].
    intros d' y Hy. apply Hbody. by right.
Qed.

Lemma manhattan_distance_sum (D : Z) (s : ndarray) :
  1 ≤ D → square (Z.to_nat D) s → Forall (λ v, 0 ≤ v < D ^ 2) (mjoin s) →
  manhattan_distance D s =
    Ok (grid_sum D (λ p, tile_distance D p (value_at s p))).
Proof.
  intros HD Hsq Hall. unfold manhattan_distance, grid_sum.
  rewrite (for_each_sum _
    (λ x, sum ((λ y, tile_distance D (x, y) (value_at s (x, y))) <$> range 0 D))).
  { by rewrite Z.add_0_l. }
  intros d x Hx%elem_of_range.
  apply for_each_sum. intros d' y Hy%elem_of_range.
  destruct (square_cell (Z.to_nat D) s (Z.to_nat x) (Z.to_nat y)) as [v Hv];
    [done | lia.. |].
  rewrite (manhattan_distance_cell D s x y d' v) by (done || lia).
  assert (0 ≤ v < D ^ 2) as Hrange.
  { apply cell_elem_of_join in Hv. by eapply Forall_forall in Hall. }
  unfold tile_distance, value_at. simpl. rewrite Hv. simpl.
  repeat case_bool_decide; try lia; f_equal; lia.
Qed.

Lemma sum_ext {A : Type} (l : list A) (f g : A → Z) :
  (∀ x, x ∈ l → g x = f x) → sum (g <$> l) = sum (f <$> l).
Proof.
  intros Hfg. f_equal. apply list_fmap_ext. intros i x Hx.
  apply Hfg. by eapply list_elem_of_lookup_2.
Qed.

Lemma sum_point {A : Type} (l : list A) (f g : A → Z) (a : A) :
  NoDup l → a ∈ l → (∀ x, x ∈ l → x ≠ a → g x = f x) →
  sum (g <$> l) = sum (f <$> l) + (g a - f a).
Proof.
  induction 1 as [|x l Hx Hnd IH]; intros Ha Hfg.
  - by apply elem_of_nil in Ha.
  - rewrite !fmap_cons, !sum_cons.
    apply elem_of_cons in Ha as [->|Ha].
    + rewrite (sum_ext l f g); [lia|].
      intros y Hy. apply Hfg; [by right|]. by intros ->.
    + rewrite IH; [|done|].
      * rewrite (Hfg x); [lia|left|]. by intros ->.
      * intros y Hy. apply Hfg. by right.
Qed.

Lemma grid_sum_point (D : Z) (f g : pos → Z) (p : pos) :
  in_grid D p → (∀ q, in_grid D q → q ≠ p → g q = f q) →
  grid_sum D g = grid_sum D f + (g p - f p).
Proof.
  intros [Hx Hy] Hfg. destruct p as [px py]. simpl in *. unfold grid_sum.
  rewrite (sum_point (range 0 D) (λ x, sum ((λ y, f (x, y)) <$> range 0 D)) _ px).
  - f_equal.
    rewrite (sum_point (range 0 D) (λ y, f (px, y)) (λ y, g (px, y)) py).
    + lia.
    + apply NoDup_seqZ.
    + by apply elem_of_range.
    + intros y Hy'%elem_of_range Hne. apply Hfg; [done|congruence].
  - apply NoDup_seqZ.
  - by apply elem_of_range.
  - intros x Hx'%elem_of_range Hne. apply sum_ext.
    intros y Hy'%elem_of_range. apply Hfg; [done|congruence].
Qed.

Lemma grid_sum_two_points (D : Z) (f g : pos → Z) (p q : pos) :
  in_grid D p → in_grid D q → p ≠ q →
  (∀ r, in_grid D r → r ≠ p → r ≠ q → g r = f r) →
  grid_sum D g = grid_sum D f + (g p - f p) + (g q - f q).
Proof.
  intros Hp Hq Hne Hfg.
  rewrite (grid_sum_point D (λ r, if decide (r = p) then g r else f r) g q Hq).
  - rewrite (grid_sum_point D f (λ r, if decide (r = p) then g r else f r) p Hp).
    + rewrite decide_True by done. rewrite decide_False by done. lia.
    + intros r _ Hr. by rewrite decide_False.
  - intros r Hin Hr. case_decide; [done|]. by apply Hfg.
Qed.

Lemma valid_values (D : Z) (s : ndarray) :
  valid D s → Forall (λ v, 0 ≤ v < D ^ 2) (mjoin s).
Proof.
  intros (_ & _ & Hperm). rewrite Hperm. apply Forall_forall.
  by intros v Hv%elem_of_range.
Qed.

Lemma neighbours_ne (p q : pos) : q ∈ neighbours p → q ≠ p.
Proof.
  destruct p as [x y]. unfold neighbours. simpl.
  rewrite !elem_of_cons, elem_of_nil.
  intros [->|[->|[->|[->|[]]]]] [=]; lia.
Qed.

Lemma in_grid_to_nat_inj (D : Z) (p q : pos) :
  in_grid D p → in_grid D q →
  (Z.to_nat p.1, Z.to_nat p.2) = (Z.to_nat q.1, Z.to_nat q.2) → p = q.
Proof.
  intros [? ?] [? ?] [= ? ?]. destruct p, q. simpl in *. f_equal; lia.
Qed.

Lemma manhattan_distance_move (D : Z) (b b' : ndarray)
    (actions : list Action) (a : Action) :
  valid D b → available_actions D b = Ok actions → a ∈ actions →
  do_action b a = Ok b' →
  ∃ d d', manhattan_distance D b = Ok d ∧ manhattan_distance D b' = Ok d' ∧
          (d' = d + 1 ∨ d' = d - 1).
Proof.
  intros Hvalid Hact Ha Hdo.
  destruct (legal_move_result _ _ _ _ _ Hvalid Hact Ha Hdo)
    as (Hvalid' & Hw & Hw' & Hp & Hq & Hn & Hex1 & Hex2 & Hex3).
  set (p := pos1 a) in *. set (q := pos2 a) in *.
  pose proof Hvalid as (HD & Hsq & _). pose proof Hvalid' as (_ & Hsq' & _).
  rewrite (manhattan_distance_sum D b) by (done || by apply valid_values).
  rewrite (manhattan_distance_sum D b') by (done || by apply valid_values).
  eexists _, _. split_and!; [done..|].
  rewrite (grid_sum_two_points D (λ r, tile_distance D r (value_at b r))
             (λ r, tile_distance D r (value_at b' r)) p q Hp Hq).
  2:{ intros Heq. by apply (neighbours_ne p q). }
  2:{ intros r Hr Hrp Hrq. unfold value_at. rewrite Hex3; [done|..];
      intros Heq; by apply (in_grid_to_nat_inj D) in Heq. }
  assert (value_at b p = 0) as Hbp.
  { assert (p ∈ where_zero_from b 0) as Hin by (fold (where_zero b); rewrite Hw; left).
    apply where_zero_from_spec in Hin as (i & j & Hpij & Hcell).
    unfold value_at. rewrite Hpij. cbn [fst snd].
    replace (Z.to_nat (0 + Z.of_nat i)) with i by lia.
    by rewrite Nat2Z.id, Hcell. }
  assert (value_at b' q = 0) as Hb'q.
  { unfold value_at. rewrite Hex2. exact Hbp. }
  assert (value_at b' p = value_at b q) as Hb'p.
  { unfold value_at. by rewrite Hex1. }
  assert (value_at b q ≠ 0) as Hnz.
  { intros Hz. apply (neighbours_ne p q Hn).
    assert (q ∈ where_zero b) as Hin; [|rewrite Hw in Hin; by apply list_elem_of_singleton in Hin].
    apply where_zero_from_spec. exists (Z.to_nat q.1), (Z.to_nat q.2).
    destruct Hq as [? ?]. split; [destruct q; simpl in *; f_equal; lia|].
    unfold value_at in Hz.
    destruct (square_cell (Z.to_nat D) b (Z.to_nat q.1) (Z.to_nat q.2)) as [v Hv];
      [done | lia.. |].
    rewrite Hv in Hz |- *. simpl in Hz. by subst. }
  rewrite Hb'p, Hb'q, Hbp. unfold tile_distance.
  rewrite !(bool_decide_eq_true_2 (0 = 0)) by done.
  rewrite !(bool_decide_eq_false_2 (value_at b q = 0)) by done.
  revert Hn. destruct p as [x y]. unfold neighbours. simpl.
  rewrite !elem_of_cons, elem_of_nil.
  intros [->|[->|[->|[->|[]]]]]; simpl; lia.
Qed.

(** X7: a move of [available_actions] on a valid board changes
    [manhattan_distance] by exactly one, up or down. *)
Theorem manhattan_distance_step (D : Z) (b b' : ndarray)
    (actions : list Action) (a : Action) :
  valid D b → available_actions D b = Ok actions → a ∈ actions →
  do_action b a = Ok b' →
  ∃ d d', manhattan_distance D b = Ok d ∧ manhattan_distance D b' = Ok d' ∧
          (d' = d + 1 ∨ d' = d - 1).
Proof. apply manhattan_distance_move. Qed.

Lemma manhattan_distance_step_witness :
  ∃ d d', manhattan_distance 3 goal3 = Ok d ∧
          manhattan_distance 3 one_move3 = Ok d' ∧ (d' = d + 1 ∨ d' = d - 1).
Proof.
  apply (manhattan_distance_step 3 goal3 one_move3
           [action (2, 2) (1, 2); action (2, 2) (2, 1)] (action (2, 2) (1, 2))).
  - solve_valid.
  - reflexivity.
  - left.
  - reflexivity.
Defined.

(** X8: on a board that [k] moves of [available_actions] lead to from the
    goal, [manhattan_distance] differs from its value on the goal by at
    most [k], and by a number of the parity of [k]. *)
Theorem manhattan_distance_reachable (D : Z) (k : nat) (b : ndarray) :
  1 ≤ D → reachable D k b →
  ∃ g d0 d m,
    goal D = Ok g ∧ manhattan_distance D g = Ok d0 ∧
    manhattan_distance D b = Ok d ∧
    0 ≤ m ≤ Z.of_nat k ∧ d = d0 + Z.of_nat k - 2 * m.
Proof.
  intros HD. induction 1 as [g Hg|k b actions a b' Hreach IH Hact Ha Hdo].
  - destruct (goal_valid D HD) as (g' & Hg' & Hvalid).
    assert (g' = g) as -> by congruence.
    destruct (manhattan_distance_nonneg _ _ Hvalid) as (d0 & Hd0 & _).
    exists g, d0, d0, 0. split_and!; try done; lia.
  - destruct IH as (g & d0 & d & m & Hg & Hd0 & Hd & Hm & Heq).
    pose proof (reachable_valid D k b HD Hreach) as Hvalid.
    destruct (manhattan_distance_move D b b' actions a Hvalid Hact Ha Hdo)
      as (d1 & d' & Hd1 & Hd' & Hstep).
    assert (d1 = d) as -> by congruence.
    destruct Hstep as [-> | ->].
    + exists g, d0, (d + 1), m. split_and!; try done; lia.
    + exists g, d0, (d - 1), (m + 1). split_and!; try done; lia.
Qed.

Lemma manhattan_distance_reachable_witness :
  ∃ g d0 d m,
    goal 3 = Ok g ∧ manhattan_distance 3 g = Ok d0 ∧
    manhattan_distance 3 one_move3 = Ok d ∧
    0 ≤ m ≤ Z.of_nat 1 ∧ d = d0 + Z.of_nat 1 - 2 * m.
Proof.
  apply (manhattan_distance_reachable 3 1 one_move3); [lia|].
  apply (reachable_move 3 0 goal3
           [action (2, 2) (1, 2); action (2, 2) (2, 1)] (action (2, 2) (1, 2)));
    [by constructor | reflexivity | left | reflexivity].
Defined.

(** ** Runs of A_star *)

Lemma valid_key (D : Z) (b : ndarray) : valid D b → tobytes b ∈ valid_keys D.
Proof.
  intros (_ & _ & Hperm). unfold valid_keys, tobytes.
  apply elem_of_list_to_set.
  apply (list_elem_of_fmap_2 (λ l, mjoin (le_bytes 8 <$> l))).
  by apply permutations_Permutation.
Qed.

Lemma valid_tobytes_inj (D : Z) (b b' : ndarray) :
  D ^ 2 ≤ 2 ^ 63 → valid D b → valid D b' → tobytes b = tobytes b' → b = b'.
Proof.
  intros Hbound Hb Hb'. apply (tobytes_inj (Z.to_nat D));
    [apply Hb | apply Hb' | by eapply valid_int64 | by eapply valid_int64].
Qed.

Lemma open_paths_valid (D : Z) (s : ndarray) (st : astar) :
  open_paths D s st → open_valid D st.
Proof. intros H e He. destruct (H e He) as (b & ? & ? & _). by exists b. Qed.

Lemma length_heappush {A : Type} (ltb : A → A → bool) (heap : list A) (x : A) :
  length (heappush ltb heap x) = S (length heap).
Proof.
  induction heap as [|y heap IH]; simpl; [done|].
  destruct (ltb x y); simpl; by rewrite ?IH.
Qed.

(** One turn of the [for] loop, on a move of [available_actions] from the
    valid board [b] that [path] leads to *)
Lemma expand_run (D : Z) (s b : ndarray) (path actions : list Action)
    (st : astar) (a : Action) :
  valid D b → available_actions D b = Ok actions → a ∈ actions →
  follows D s path b →
  open_paths D s st → closed_set st ⊆ valid_keys D →
  ∃ st' b', expand D b path st a = Ok st' ∧ do_action b a = Ok b' ∧
    open_paths D s st' ∧ closed_set st' ⊆ valid_keys D ∧
    tobytes b' ∈ closed_set st' ∧
    closed_set st ⊆ closed_set st' ∧
    (∀ e, e ∈ open_list st → e ∈ open_list st') ∧
    (∀ k, k ∈ closed_set st' →
       k ∈ closed_set st ∨ ∃ e, e ∈ open_list st' ∧ e_bytes e = k) ∧
    (astar_measure D st' ≤ astar_measure D st)%nat.
Proof.
  intros Hvalid Hact Ha Hpath Hopen Hclosed.
  destruct (expand_successor D b path actions st a)
    as (b' & md & lc & Hdo & Hvalid' & _ & _ & Hexp); [done..|].
  eexists _, b'. split; [exact Hexp|]. split; [done|].
  case_bool_decide as Hin.
  - split_and!; try done. by left.
  - simpl. split_and!.
    + intros e [->|He]%elem_of_heappush; [|by apply Hopen].
      exists b'. split_and!; [done..|]. simpl. by eapply follows_snoc.
    + apply union_subseteq. split; [done|].
      apply singleton_subseteq_l. by apply valid_key.
    + apply elem_of_union. right. by apply elem_of_singleton.
    + apply union_subseteq_l.
    + intros e He. apply elem_of_heappush. by right.
    + intros k [Hk| ->%elem_of_singleton]%elem_of_union; [by left|].
      right. eexists. split; [apply elem_of_heappush; by left|done].
    + unfold astar_measure. simpl. rewrite length_heappush.
      rewrite size_union by (apply disjoint_singleton_r; done).
      rewrite size_singleton.
      assert (size (closed_set st ∪ {[tobytes b']}) ≤ size (valid_keys D))%nat as Hle.
      { apply subseteq_size, union_subseteq. split; [done|].
        apply singleton_subseteq_l. by apply valid_key. }
      rewrite size_union, size_singleton in Hle
        by (apply disjoint_singleton_r; done).
      lia.
Qed.

Lemma for_each_expand_run (D : Z) (s b : ndarray) (path actions : list Action)
    (l : list Action) (st : astar) :
  valid D b → available_actions D b = Ok actions → follows D s path b →
  (∀ a, a ∈ l → a ∈ actions) →
  open_paths D s st → closed_set st ⊆ valid_keys D →
  ∃ st', for_each l (expand D b path) st = Ok st' ∧
    open_paths D s st' ∧ closed_set st' ⊆ valid_keys D ∧
    (∀ a b', a ∈ l → do_action b a = Ok b' → tobytes b' ∈ closed_set st') ∧
    closed_set st ⊆ closed_set st' ∧
    (∀ e, e ∈ open_list st → e ∈ open_list st') ∧
    (∀ k, k ∈ closed_set st' →
       k ∈ closed_set st ∨ ∃ e, e ∈ open_list st' ∧ e_bytes e = k) ∧
    (astar_measure D st' ≤ astar_measure D st)%nat.
Proof.
  intros Hvalid Hact Hpath. revert st.
  induction l as [|a l IH]; intros st Hl Hopen Hclosed.
  - exists st. split_and!; try done. by intros a b' ?%elem_of_nil. by left.
  - destruct (expand_run D s b path actions st a)
      as (st1 & b1 & Hexp & Hdo & Hopen1 & Hclosed1 & Hb1 & Hmono1 & Hkeep1
            & Hnew1 & Hm1); [done | done | apply Hl; left | done..|].
    destruct (IH st1) as (st' & Hfor & Hopen' & Hclosed' & Hsucc & Hmono & Hkeep
                            & Hnew & Hm); [intros; apply Hl; by right | done..|].
    exists st'. simpl. rewrite Hexp. simpl. split_and!; try done.
    + intros a' b' [->|Ha']%elem_of_cons Hdo'; [|by eapply Hsucc].
      assert (b' = b1) as -> by congruence. by apply Hmono.
    + set_solver.
    + auto.
    + intros k Hk. destruct (Hnew k Hk) as [Hk1|?]; [|by right].
      destruct (Hnew1 k Hk1) as [?|(e & He & Hek)]; [by left|].
      right. exists e. auto.
    + lia.
Qed.

(** One turn of the loop of [A_star] in a run from a valid board: the open
    list is empty and the turn returns the failure, or the board popped is
    the goal and the turn returns its path, or the turn ends with open
    list and closed set in order again, and a smaller measure. *)
Lemma A_star_iter_run (D : Z) (s : ndarray) (st : astar) :
  1 ≤ D → D ^ 2 ≤ 2 ^ 63 → run_inv D s st →
  (open_list st = [] ∧
   A_star_iter D D D st = Ok (inr (None, -1, Z.of_nat (size (closed_set st))))) ∨
  (∃ item rest g,
     open_list st = item :: rest ∧ goal D = Ok g ∧
     follows D s (e_path item) g ∧
     A_star_iter D D D st =
       Ok (inr (Some (e_path item), Z.of_nat (length (e_path item)),
                Z.of_nat (size (closed_set st))))) ∨
  (∃ st', A_star_iter D D D st = Ok (inl st') ∧ run_inv D s st' ∧
          (astar_measure D st' < astar_measure D st)%nat).
Proof.
  intros HD Hbound (Hopen & Hclosed & Hexp & Hs). unfold A_star_iter.
  destruct (open_list st) as [|item rest] eqn:Hpop; simpl; [by left|]. right.
  destruct (Hopen item) as (b & Hvalid & Hkey & Hpath); [rewrite Hpop; by left|].
  pose proof (decode_tobytes D b Hvalid Hbound) as Hdecode.
  rewrite <-Hkey in Hdecode. apply bind_Ok in Hdecode as (flat & Hflat & Hb).
  rewrite Hflat. simpl. rewrite Hb. simpl.
  destruct (goal_valid D HD) as (g & Hg & _).
  unfold is_goal. rewrite Hg. simpl.
  case_bool_decide as Hgoal; [left; subst b; by exists item, rest, g|]. right.
  destruct (valid_blank _ _ Hvalid) as (p & Hw & Hp & _).
  pose proof (available_actions_blank D b p [] Hw Hp) as Hact.
  rewrite Hact. simpl.
  set (actions := action p <$> filter (in_grid D) (neighbours p)) in *.
  set (mid := {| open_list := rest; closed_set := closed_set st;
                 pushed := pushed st |}).
  destruct (for_each_expand_run D s b (e_path item) actions actions mid)
    as (st' & Hfor & Hopen' & Hclosed' & Hsucc & Hmono & Hkeep & Hnew & Hm);
    [done.. | | done |].
  { intros e He. apply Hopen. rewrite Hpop. by right. }
  rewrite Hfor. simpl. exists st'. split; [done|]. split.
  - split_and!; [done | done | | by apply Hmono].
    intros b2 Hvalid2 Hk2.
    destruct (Hnew _ Hk2) as [Hold|?]; [|by left].
    destruct (Hexp b2 Hvalid2 Hold) as [(e & He & Hek)|[Hng Hsuc2]].
    + rewrite Hpop in He. apply elem_of_cons in He as [->|He].
      * assert (b2 = b) as ->.
        { apply (valid_tobytes_inj D); [done..|congruence]. }
        right. split.
        -- unfold is_goal. rewrite Hg. simpl. by rewrite bool_decide_eq_false_2.
        -- intros actions' a b' Hact' Ha Hdo.
           assert (actions' = actions) as -> by congruence. by eapply Hsucc.
      * left. exists e. split; [by apply Hkeep|done].
    + right. split; [done|]. intros actions' a b' Hact' Ha Hdo.
      apply Hmono. by eapply Hsuc2.
  - unfold astar_measure in *. simpl in Hm. rewrite Hpop. simpl. lia.
Qed.

Lemma start_run_inv (D : Z) (s : ndarray) (md : Z) :
  valid D s → run_inv D s (start md s).
Proof.
  intros Hvalid. split_and!.
  - intros e ->%list_elem_of_singleton. exists s. split_and!; [done..|]. constructor.
  - simpl. apply union_subseteq. split; [apply empty_subseteq|].
    apply singleton_subseteq_l. by apply valid_key.
  - intros b _ Hb. left. simpl in *. eexists. split; [by left|]. simpl.
    apply elem_of_union in Hb as [Hb|Hb]; [by apply elem_of_empty in Hb|].
    by apply elem_of_singleton in Hb.
  - simpl. apply elem_of_union. right. by apply elem_of_singleton.
Qed.

(** Whatever the loop returns, it returns from a turn that starts with
    open list and closed set in order. *)
Lemma A_star_loop_run (D : Z) (s : ndarray) (fuel : nat) (st : astar)
    (r : result answer) :
  1 ≤ D → D ^ 2 ≤ 2 ^ 63 → run_inv D s st →
  A_star_loop D fuel D D st = Some r →
  ∃ last ans, r = Ok ans ∧ run_inv D s last ∧
              A_star_iter D D D last = Ok (inr ans).
Proof.
  intros HD Hbound. revert st.
  induction fuel as [|fuel IH]; intros st Hinv; simpl; [done|].
  destruct (A_star_iter_run D s st HD Hbound Hinv)
    as [[Hnil Hiter]|[(item & rest & g & Hpop & Hg & Hpath & Hiter)
                     |(st' & Hiter & Hinv' & _)]];
    rewrite Hiter.
  - intros [= <-]. by exists st, (None, -1, Z.of_nat (size (closed_set st))).
  - intros [= <-]. eexists st, _. by split_and!.
  - by apply IH.
Qed.

(** With more fuel than the measure the loop returns. *)
Lemma A_star_loop_returns (D : Z) (s : ndarray) (fuel : nat) (st : astar) :
  1 ≤ D → D ^ 2 ≤ 2 ^ 63 → run_inv D s st →
  (astar_measure D st < fuel)%nat →
  ∃ ans, A_star_loop D fuel D D st = Some (Ok ans).
Proof.
  intros HD Hbound. revert st.
  induction fuel as [|fuel IH]; intros st Hinv Hfuel; [lia|]. simpl.
  destruct (A_star_iter_run D s st HD Hbound Hinv)
    as [[Hnil Hiter]|[(item & rest & g & Hpop & Hg & Hpath & Hiter)
                     |(st' & Hiter & Hinv' & Hm)]];
    rewrite Hiter; [by eauto..|].
  apply IH; [done|lia].
Qed.

(** [A_star] is its loop from [start]. *)
Lemma A_star_unfold (D : Z) (fuel : nat) (s : ndarray) :
  valid D s →
  ∃ md, manhattan_distance D s = Ok md ∧
        A_star D fuel s = A_star_loop D fuel D D (start md s).
Proof.
  intros Hvalid. destruct (manhattan_distance_nonneg _ _ Hvalid) as (md & Hmd & _).
  exists md. split; [done|]. unfold A_star, A_star_init. rewrite Hmd. simpl.
  pose proof Hvalid as (HD & Hsq & _).
  rewrite (square_ncols _ _ Hsq). destruct Hsq as [-> _].
  by rewrite Z2Nat.id by lia.
Qed.

Lemma for_each_app {A S : Type} (l1 l2 : list A) (body : S → A → result S) (s : S) :
  for_each (l1 ++ l2) body s = (s' ← for_each l1 body s; for_each l2 body s').
Proof.
  revert s. induction l1 as [|x l1 IH]; intros s; simpl; [done|].
  destruct (body s x); simpl; [apply IH|done].
Qed.

Lemma follows_replay (D : Z) (s b : ndarray) (path : list Action) :
  follows D s path b → replay s path = Ok b.
Proof.
  unfold replay. induction 1 as [|path b actions a b' _ IH _ _ Hdo]; [done|].
  rewrite for_each_app, IH. simpl. by rewrite Hdo.
Qed.

Lemma follows_valid (D : Z) (s b : ndarray) (path : list Action) :
  valid D s → follows D s path b → valid D b.
Proof. induction 2; [done|]. by eapply do_action_valid. Qed.

Lemma follows_cons (D : Z) (s s1 b : ndarray) (actions path : list Action)
    (a : Action) :
  available_actions D s = Ok actions → a ∈ actions → do_action s a = Ok s1 →
  follows D s1 path b → follows D s (a :: path) b.
Proof.
  intros Hact Ha Hdo. induction 1 as [|path b acts a' b' _ IH Hact' Ha' Hdo'].
  - apply (follows_snoc D s [] s actions a s1); [constructor|done..].
  - rewrite app_comm_cons. by eapply follows_snoc.
Qed.

(** A board reached from the goal leads back to it, by as many moves. *)
Lemma reachable_follows_back (D : Z) (k : nat) (b : ndarray) :
  1 ≤ D → reachable D k b →
  ∃ g path, goal D = Ok g ∧ follows D b path g ∧ length path = k.
Proof.
  intros HD. induction 1 as [g Hg|k b actions a b' Hreach IH Hact Ha Hdo].
  - exists g, []. split_and!; [done|constructor|done].
  - destruct IH as (g & path & Hg & Hpath & Hlen).
    pose proof (reachable_valid D k b HD Hreach) as Hvalid.
    destruct (legal_move_result _ _ _ _ _ Hvalid Hact Ha Hdo)
      as (Hvalid' & _ & Hw' & H1 & H2 & Hn & _).
    exists g, (action (pos2 a) (pos1 a) :: path). split_and!; [done| |simpl; lia].
    eapply follows_cons; [| |  | exact Hpath].
    + by apply (available_actions_blank D b' (pos2 a) []).
    + apply list_elem_of_fmap_2, list_elem_of_filter. split; [done|].
      by apply neighbours_sym.
    + destruct Hvalid as (_ & Hsq & _). destruct Hvalid' as (_ & Hsq' & _).
      apply (do_action_sym (Z.to_nat D)); [done|].
      apply (do_action_involutive (Z.to_nat D)); [done|]. by destruct a.
Qed.

(** When the open list is empty every board that the moves lead to from
    the start has its key in the closed set, and none is the goal. *)
Lemma exhausted_unsolvable (D : Z) (s b : ndarray) (path : list Action)
    (st : astar) :
  valid D s → run_inv D s st → open_list st = [] →
  follows D s path b →
  tobytes b ∈ closed_set st ∧ is_goal D b = Ok false.
Proof.
  intros Hvalid (_ & _ & Hexp & Hs) Hnil.
  assert (∀ b, valid D b → tobytes b ∈ closed_set st →
            is_goal D b = Ok false ∧
            ∀ actions a b', available_actions D b = Ok actions → a ∈ actions →
              do_action b a = Ok b' → tobytes b' ∈ closed_set st) as Hall.
  { intros b0 Hb0 Hk. destruct (Hexp b0 Hb0 Hk) as [(e & He & _)|?]; [|done].
    rewrite Hnil in He. by apply elem_of_nil in He. }
  induction 1 as [|path b actions a b' Hpath IH Hact Ha Hdo].
  - split; [done|]. by apply Hall.
  - destruct IH as [Hk _].
    pose proof (follows_valid D s b path Hvalid Hpath) as Hb.
    assert (tobytes b' ∈ closed_set st) as Hk'.
    { destruct (Hall b Hb Hk) as [_ Hsucc]. by eapply Hsucc. }
    split; [done|]. apply Hall; [|done]. by eapply do_action_valid.
Qed.

Lemma start_measure (D : Z) (md : Z) (s : ndarray) :
  valid D s → (astar_measure D (start md s) < 2 * size (valid_keys D))%nat.
Proof.
  intros Hvalid. unfold astar_measure, start. cbn [closed_set open_list length].
  rewrite (left_id_L ∅ (∪)), size_singleton.
  assert (1 ≤ size (valid_keys D))%nat; [|lia].
  rewrite <-(size_singleton (C := gset (list Z)) (tobytes s)).
  apply subseteq_size, singleton_subseteq_l. by apply valid_key.
Qed.

(** X9: on a valid board [A_star] returns, and raises nothing, once the
    fuel is twice the number of keys of valid boards: every turn of the
    loop takes an item from the open list or adds as many keys, of valid
    boards, to the closed set as items to the open list. *)
Theorem A_star_terminates (D : Z) (fuel : nat) (initial_state : ndarray) :
  valid D initial_state → D ^ 2 ≤ 2 ^ 63 →
  (2 * size (valid_keys D) ≤ fuel)%nat →
  ∃ ans, A_star D fuel initial_state = Some (Ok ans).
Proof.
  intros Hvalid Hbound Hfuel.
  destruct (A_star_unfold D fuel initial_state Hvalid) as (md & _ & ->).
  pose proof Hvalid as (HD & _).
  apply (A_star_loop_returns D initial_state); [done.. | by apply start_run_inv |].
  pose proof (start_measure D md initial_state Hvalid). lia.
Qed.

Lemma A_star_terminates_witness :
  ∃ ans, A_star 2 48 unsolvable2 = Some (Ok ans).
Proof.
  apply (A_star_terminates 2 48 unsolvable2).
  - solve_valid.
  - by vm_compute.
  - vm_compute. lia.
Defined.

(** X10: when [A_star] returns a path for a valid board, the second
    component is the length of the path, every move of the path is one
    that [available_actions] offers on the board reached so far, and the
    path leads to the goal. *)
Theorem A_star_sound (D : Z) (fuel : nat) (initial_state : ndarray)
    (path : list Action) (quality cost : Z) :
  valid D initial_state → D ^ 2 ≤ 2 ^ 63 →
  A_star D fuel initial_state = Some (Ok (Some path, quality, cost)) →
  quality = Z.of_nat (length path) ∧
  ∃ g, goal D = Ok g ∧ follows D initial_state path g ∧
       replay initial_state path = Ok g.
Proof.
  intros Hvalid Hbound Hret.
  destruct (A_star_unfold D fuel initial_state Hvalid) as (md & _ & Heq).
  rewrite Heq in Hret. pose proof Hvalid as (HD & _).
  destruct (A_star_loop_run D initial_state fuel _ _ HD Hbound
              (start_run_inv D initial_state md Hvalid) Hret)
    as (last & ans & [= <-] & Hinv & Hiter).
  destruct (A_star_iter_run D initial_state last HD Hbound Hinv)
    as [[Hnil Hiter']|[(item & rest & g & Hpop & Hg & Hpath & Hiter')
                      |(st' & Hiter' & _)]];
    rewrite Hiter' in Hiter; [done| |done].
  injection Hiter as <- <- _. split; [done|]. exists g.
  split_and!; [done..|]. by eapply follows_replay.
Qed.

Lemma A_star_sound_witness :
  1 = Z.of_nat (length [action (1, 2) (2, 2)]) ∧
  ∃ g, goal 3 = Ok g ∧ follows 3 one_move3 [action (1, 2) (2, 2)] g ∧
       replay one_move3 [action (1, 2) (2, 2)] = Ok g.
Proof.
  apply (A_star_sound 3 100 one_move3 [action (1, 2) (2, 2)] 1 13).
  - solve_valid.
  - by vm_compute.
  - vm_compute. reflexivity.
Defined.

(** X11: when [A_star] returns the failure [(None, -1, ...)] for a valid
    board, no sequence of moves of [available_actions] leads from that
    board to the goal. *)
Theorem A_star_failure (D : Z) (fuel : nat) (initial_state : ndarray)
    (quality cost : Z) :
  valid D initial_state → D ^ 2 ≤ 2 ^ 63 →
  A_star D fuel initial_state = Some (Ok (None, quality, cost)) →
  quality = -1 ∧
  ∀ path b, follows D initial_state path b → is_goal D b = Ok false.
Proof.
  intros Hvalid Hbound Hret.
  destruct (A_star_unfold D fuel initial_state Hvalid) as (md & _ & Heq).
  rewrite Heq in Hret. pose proof Hvalid as (HD & _).
  destruct (A_star_loop_run D initial_state fuel _ _ HD Hbound
              (start_run_inv D initial_state md Hvalid) Hret)
    as (last & ans & [= <-] & Hinv & Hiter).
  destruct (A_star_iter_run D initial_state last HD Hbound Hinv)
    as [[Hnil Hiter']|[(item & rest & g & Hpop & Hg & Hpath & Hiter')
                      |(st' & Hiter' & _)]];
    rewrite Hiter' in Hiter; [|done..].
  injection Hiter as <- _. split; [done|].
  intros path b Hpath. by eapply exhausted_unsolvable.
Qed.

Lemma A_star_failure_witness :
  -1 = -1 ∧
  ∀ path b, follows 2 unsolvable2 path b → is_goal 2 b = Ok false.
Proof.
  apply (A_star_failure 2 13 unsolvable2 (-1) 12).
  - solve_valid.
  - by vm_compute.
  - vm_compute. reflexivity.
Defined.

(** X12: for every board that moves of [available_actions] lead to from
    the goal, as the scrambling loop makes them, [A_star] with enough fuel
    returns a path, with its length, and the path replayed from the board
    gives the goal. *)
Theorem A_star_solves_scrambled (D : Z) (k fuel : nat) (b : ndarray) :
  1 ≤ D → D ^ 2 ≤ 2 ^ 63 → reachable D k b →
  (2 * size (valid_keys D) ≤ fuel)%nat →
  ∃ g path cost,
    goal D = Ok g ∧
    A_star D fuel b = Some (Ok (Some path, Z.of_nat (length path), cost)) ∧
    replay b path = Ok g.
Proof.
  intros HD Hbound Hreach Hfuel.
  pose proof (reachable_valid D k b HD Hreach) as Hvalid.
  destruct (reachable_follows_back D k b HD Hreach) as (g & back & Hg & Hback & _).
  destruct (A_star_unfold D fuel b Hvalid) as (md & _ & Heq).
  pose proof (start_run_inv D b md Hvalid) as Hstart.
  destruct (A_star_loop_returns D b fuel (start md b) HD Hbound Hstart)
    as [ans Hret].
  { pose proof (start_measure D md b Hvalid). lia. }
  destruct (A_star_loop_run D b fuel _ _ HD Hbound Hstart Hret)
    as (last & ans' & [= <-] & Hinv & Hiter).
  destruct (A_star_iter_run D b last HD Hbound Hinv)
    as [[Hnil Hiter']|[(item & rest & g' & Hpop & Hg' & Hpath & Hiter')
                      |(st' & Hiter' & _)]];
    rewrite Hiter' in Hiter; [| |done].
  - destruct (exhausted_unsolvable D b g back last Hvalid Hinv Hnil Hback)
      as [_ Hng].
    apply is_goal_true in Hg. congruence.
  - injection Hiter as <-. assert (g' = g) as -> by congruence.
    exists g, (e_path item), (Z.of_nat (size (closed_set last))).
    split_and!; [done| by rewrite Heq |by eapply follows_replay].
Qed.

Lemma A_star_solves_scrambled_witness :
  ∃ g path cost,
    goal 2 = Ok g ∧
    A_star 2 48 [[1;0];[3;2]] = Some (Ok (Some path, Z.of_nat (length path), cost)) ∧
    replay [[1;0];[3;2]] path = Ok g.
Proof.
  apply (A_star_solves_scrambled 2 1 48 [[1;0];[3;2]]).
  - lia.
  - by vm_compute.
  - apply (reachable_move 2 0 [[1;2];[3;0]]
             [action (1, 1) (0, 1); action (1, 1) (1, 0)] (action (1, 1) (0, 1)));
      [by constructor | reflexivity | left | reflexivity].
  - vm_compute. lia.
Defined.

(** ** The scrambling loop *)

Lemma choice_nonempty {A : Type} (rand : nat → nat → nat) (k : nat) (l : list A) :
  l ≠ [] → ∃ x, choice rand k l = Ok x ∧ x ∈ l.
Proof.
  intros Hl. unfold choice.
  destruct (lookup_lt_is_Some_2 l (rand k (length l) `mod` length l)%nat) as [x Hx].
  { apply Nat.mod_upper_bound. by destruct l. }
  rewrite Hx. exists x. split; [done|]. by eapply list_elem_of_lookup_2.
Qed.

Lemma choice_nil {A : Type} (rand : nat → nat → nat) (k : nat) :
  choice rand k (@nil A) = Raise IndexError.
Proof. done. Qed.

(** On a valid board of a grid with two rows or more there is a move. *)
Lemma available_actions_nonempty (D : Z) (s : ndarray) :
  2 ≤ D → valid D s →
  ∃ actions, available_actions D s = Ok actions ∧ actions ≠ [].
Proof.
  intros HD Hvalid. destruct (valid_blank _ _ Hvalid) as (p & Hw & Hp & _).
  eexists. split; [by apply (available_actions_blank D s p [])|].
  pose proof (length_neighbours_in_grid D p Hp) as Hlen.
  intros Hnil. rewrite <-(length_fmap (action p)), Hnil in Hlen. simpl in Hlen.
  destruct Hp. repeat case_bool_decide; lia.
Qed.

Lemma randomize_step_reachable (D : Z) (rand : nat → nat → nat)
    (b : ndarray) (k n : nat) (i : Z) :
  2 ≤ D → reachable D n b →
  ∃ b', randomize_step D rand (b, k) i = Ok (b', S k) ∧ reachable D (S n) b'.
Proof.
  intros HD Hreach. pose proof (reachable_valid D n b ltac:(lia) Hreach) as Hvalid.
  destruct (available_actions_nonempty D b HD Hvalid) as (actions & Hact & Hne).
  destruct (choice_nonempty rand k actions Hne) as (a & Hch & Ha).
  destruct (available_actions_legal _ _ _ _ Hvalid Hact Ha) as (H1 & H2 & _).
  pose proof Hvalid as (_ & Hsq & _).
  destruct (do_action_located _ _ a _ _ Hsq
              (in_grid_locate _ _ _ Hsq H1) (in_grid_locate _ _ _ Hsq H2))
    as (b' & Hdo & _ & _).
  exists b'. unfold randomize_step. simpl. rewrite Hact. simpl.
  rewrite Hch. simpl. rewrite Hdo. simpl. split; [done|].
  by eapply reachable_move.
Qed.

Lemma randomize_loop (D : Z) (rand : nat → nat → nat) (l : list Z)
    (b : ndarray) (k n : nat) :
  2 ≤ D → reachable D n b →
  ∃ b' k', for_each l (randomize_step D rand) (b, k) = Ok (b', k') ∧
           reachable D (n + length l) b'.
Proof.
  intros HD. revert b k n. induction l as [|i l IH]; intros b k n Hreach.
  - exists b, k. split; [done|]. simpl. by rewrite Nat.add_0_r.
  - destruct (randomize_step_reachable D rand b k n i HD Hreach) as (b1 & Hstep & Hreach1).
    destruct (IH b1 (S k) (S n) Hreach1) as (b' & k' & Hfor & Hreach').
    exists b', k'. simpl. rewrite Hstep. simpl. split; [done|].
    by replace (n + S (length l))%nat with (S n + length l)%nat by lia.
Qed.

Lemma randomize_scrambles (D : Z) (rand : nat → nat → nat) (steps : Z) :
  2 ≤ D →
  ∃ b, randomize D rand steps = Ok b ∧ reachable D (Z.to_nat steps) b ∧
       valid D b.
Proof.
  intros HD. destruct (goal_valid D ltac:(lia)) as (g & Hg & _).
  destruct (randomize_loop D rand (range 0 steps) g 0 0 HD) as (b & k & Hfor & Hreach).
  { by constructor. }
  exists b. unfold randomize. rewrite Hg. simpl. rewrite Hfor. simpl.
  unfold range in Hreach. rewrite length_seqZ, Z.sub_0_r in Hreach.
  split_and!; [done..|]. by eapply reachable_valid; [lia|].
Qed.

(** X13: the scrambling loop of the last cell.  On a grid with two rows
    or more it raises nothing and leaves a valid board that
    [RANDOMIZE_STEPS] moves of [available_actions] lead to from the goal,
    whatever the random source draws; with no step to make it leaves the
    goal.  On the 1x1 grid the first step raises [IndexError]:
    [available_actions] returns the empty list, which [choice] refuses. *)
Theorem randomize_spec (D : Z) (rand : nat → nat → nat) (steps : Z) :
  1 ≤ D →
  (2 ≤ D ∨ steps ≤ 0 →
     ∃ b, randomize D rand steps = Ok b ∧ reachable D (Z.to_nat steps) b ∧
          valid D b) ∧
  (D = 1 → 1 ≤ steps → randomize D rand steps = Raise IndexError).
Proof.
  intros HD. split.
  - intros [HD2|Hsteps]; [by apply randomize_scrambles|].
    destruct (goal_valid D HD) as (g & Hg & Hvalid).
    exists g. unfold randomize, range. rewrite Hg, seqZ_nil by lia. simpl.
    split_and!; [done| |done].
    replace (Z.to_nat steps) with 0%nat by lia. by constructor.
  - intros -> Hsteps. unfold randomize, range. by rewrite seqZ_cons by lia.
Qed.

Lemma randomize_spec_witness :
  ∃ b, randomize 3 (λ k n, k) 5 = Ok b ∧ reachable 3 (Z.to_nat 5) b ∧ valid 3 b.
Proof.
  refine (proj1 (randomize_spec 3 (λ k n, k) 5 _) _); [lia|]. left. lia.
Defined.

(** ** Runs of beam_search *)

Lemma difference_from_goal_Ok (D : Z) (s : ndarray) :
  1 ≤ D → square (Z.to_nat D) s → ∃ d, difference_from_goal D s = Ok d.
Proof.
  intros HD Hsq. destruct (goal_valid D HD) as (g & Hg & _ & Hsqg & _).
  unfold difference_from_goal. rewrite Hg. simpl.
  rewrite bool_decide_eq_true_2 by by eapply square_same_shape. eauto.
Qed.

Lemma valid_one_goal (b : ndarray) : valid 1 b → is_goal 1 b = Ok true.
Proof.
  intros (_ & [Hlen Hrows] & Hperm). apply is_goal_true.
  destruct b as [|row [|? ?]]; try done.
  apply Forall_cons in Hrows as [Hrow _].
  destruct row as [|v [|? ?]]; try done. simpl in Hperm.
  change (range 0 (1 ^ 2)) with [0] in Hperm.
  apply Permutation_singleton_r in Hperm. by simplify_eq.
Qed.

Lemma is_goal_valid (D : Z) (b : ndarray) :
  1 ≤ D → ∃ g, goal D = Ok g ∧ is_goal D b = Ok (bool_decide (b = g)).
Proof.
  intros HD. destruct (goal_valid D HD) as (g & Hg & _).
  exists g. split; [done|]. unfold is_goal. by rewrite Hg.
Qed.

Lemma not_goal_two (D : Z) (b : ndarray) :
  valid D b → is_goal D b = Ok false → 2 ≤ D.
Proof.
  intros Hvalid Hng. destruct (decide (D = 1)) as [->|]; [|destruct Hvalid; lia].
  rewrite valid_one_goal in Hng by done. done.
Qed.

(** One turn of [for _ in range(beam_size)] *)
Lemma beam_try_inv (D : Z) (rand : nat → nat → nat) (s : ndarray)
    (st : beam) (i : Z) :
  2 ≤ D → beam_inv D s st →
  ∃ st', beam_try D rand st i = Ok st' ∧ beam_inv D s st' ∧
         b_state st' = b_state st ∧ visited st' = visited st.
Proof.
  intros HD (Hvalid & [path Hpath] & Hqueue & Hn & Hcount).
  destruct (available_actions_nonempty D _ HD Hvalid) as (actions & Hact & Hne).
  destruct (choice_nonempty rand (draws st) actions Hne) as (a & Hch & Ha).
  destruct (available_actions_legal _ _ _ _ Hvalid Hact Ha) as (H1 & H2 & _).
  pose proof Hvalid as (_ & Hsq & _).
  destruct (do_action_located _ _ a _ _ Hsq
              (in_grid_locate _ _ _ Hsq H1) (in_grid_locate _ _ _ Hsq H2))
    as (b' & Hdo & _ & _).
  pose proof (do_action_valid _ _ _ _ Hvalid Hdo) as Hvalid'.
  unfold beam_try. rewrite Hact. simpl. rewrite Hch. simpl. rewrite Hdo. simpl.
  case_bool_decide as Hnew.
  - destruct (difference_from_goal_Ok D b') as [d ->]; [lia | apply Hvalid' |].
    destruct (manhattan_distance_nonneg _ _ Hvalid') as (m & -> & _). simpl.
    eexists. split; [done|]. split; [|done].
    split_and!; simpl; try done; [by eauto| |lia|].
    + intros it [->|Hit]%elem_of_heappush; [|by apply Hqueue].
      simpl. split; [done|]. eexists. by eapply follows_snoc.
    + rewrite length_heappush. lia.
  - eexists. split; [done|]. split; [|done].
    split_and!; simpl; by eauto.
Qed.

Lemma beam_for_inv (D : Z) (rand : nat → nat → nat) (s : ndarray)
    (l : list Z) (st : beam) :
  2 ≤ D → beam_inv D s st →
  ∃ st', for_each l (beam_try D rand) st = Ok st' ∧ beam_inv D s st' ∧
         b_state st' = b_state st ∧ visited st' = visited st.
Proof.
  intros HD. revert st. induction l as [|i l IH]; intros st Hinv.
  - by exists st.
  - destruct (beam_try_inv D rand s st i HD Hinv) as (st1 & Htry & Hinv1 & Hb1 & Hv1).
    destruct (IH st1 Hinv1) as (st' & Hfor & Hinv' & Hb' & Hv').
    exists st'. simpl. rewrite Htry. simpl. split_and!; [done..|congruence|congruence].
Qed.

Lemma beam_return_answer (D : Z) (s : ndarray) (st : beam) :
  beam_inv D s st → beam_answer D s (beam_return st).
Proof.
  intros (Hvalid & Hpath & _ & Hn & Hcount).
  unfold beam_answer, beam_return. simpl. split_and!; try done; lia.
Qed.

(** The variables after [heappop] and [visited.add] *)
Lemma beam_pop_inv (D : Z) (s : ndarray) (st : beam) (priority : PrimFloat.float)
    (state_tuple : ndarray) (rest : list item) :
  beam_inv D s st → priority_queue st = (priority, state_tuple) :: rest →
  beam_inv D s {| b_state := state_tuple; priority_queue := rest;
                  visited := visited st ∪ {[state_tuple]};
                  total_nodes_evaluated := total_nodes_evaluated st;
                  draws := draws st |}.
Proof.
  intros (Hvalid & Hpath & Hqueue & Hn & Hcount) Hq. rewrite Hq in Hqueue, Hcount.
  destruct (Hqueue (priority, state_tuple)) as [Hv Hp]; [by left|].
  split_and!; simpl; try done.
  - intros it Hit. apply Hqueue. by right.
  - pose proof (size_union_alt (visited st) ({[state_tuple]} : gset ndarray)) as Hsz.
    pose proof (subseteq_size ({[state_tuple]} ∖ visited st)
                  ({[state_tuple]} : gset ndarray)) as Hle.
    rewrite size_singleton in Hle. simpl in Hcount.
    assert (size ({[state_tuple]} ∖ visited st) ≤ 1)%nat
      by (apply Hle; by apply subseteq_difference_l).
    lia.
Qed.

Lemma beam_iter_inv (D : Z) (rand : nat → nat → nat) (s : ndarray)
    (beam_size : Z) (st : beam) :
  1 ≤ D → beam_inv D s st → priority_queue st ≠ [] →
  (∃ ans, beam_iter D rand beam_size st = Ok (inr ans) ∧ beam_answer D s ans ∧
          is_goal D ans.1.1 = Ok true) ∨
  (∃ st', beam_iter D rand beam_size st = Ok (inl st') ∧ beam_inv D s st').
Proof.
  intros HD Hinv Hne. unfold beam_iter.
  destruct (priority_queue st) as [|[priority state_tuple] rest] eqn:Hq; [done|].
  simpl. pose proof (beam_pop_inv D s st priority state_tuple rest Hinv Hq) as Hmid.
  set (mid := {| b_state := state_tuple; priority_queue := rest;
                 visited := visited st ∪ {[state_tuple]};
                 total_nodes_evaluated := total_nodes_evaluated st;
                 draws := draws st |}) in *.
  destruct (is_goal_valid D state_tuple HD) as (g & Hg & Hig).
  rewrite Hig. simpl. case_bool_decide as Hgoal.
  - left. eexists. split; [done|]. split; [by apply (beam_return_answer D s mid)|].
    exact Hig.
  - right.
    assert (2 ≤ D) as HD2.
    { apply (not_goal_two D state_tuple); [apply Hmid|done]. }
    destruct (beam_for_inv D rand s (range 0 beam_size) mid HD2 Hmid)
      as (st' & Hfor & Hinv' & _).
    rewrite Hfor. simpl. by exists st'.
Qed.

Lemma beam_loop_inv (D : Z) (rand : nat → nat → nat) (s : ndarray)
    (fuel : nat) (beam_size : Z) (st : beam) (r : result (ndarray * Z * Z)) :
  1 ≤ D → beam_inv D s st →
  beam_loop D rand fuel beam_size st = Some r →
  ∃ ans, r = Ok ans ∧ beam_answer D s ans.
Proof.
  intros HD. revert st. induction fuel as [|fuel IH]; intros st Hinv.
  - simpl. unfold beam_cond.
    destruct (priority_queue st) as [|it rest] eqn:Hq.
    + intros [= <-]. eexists. split; [done|]. by apply beam_return_answer.
    + destruct (is_goal_valid D (b_state st) HD) as (g & Hg & ->). simpl.
      case_bool_decide; simpl; [|done].
      intros [= <-]. eexists. split; [done|]. by apply beam_return_answer.
  - simpl. unfold beam_cond.
    destruct (priority_queue st) as [|it rest] eqn:Hq.
    + intros [= <-]. eexists. split; [done|]. by apply beam_return_answer.
    + destruct (is_goal_valid D (b_state st) HD) as (g & Hg & ->). simpl.
      case_bool_decide; simpl.
      * intros [= <-]. eexists. split; [done|]. by apply beam_return_answer.
      * destruct (beam_iter_inv D rand s beam_size st HD Hinv)
          as [(ans & -> & Hans & _)|(st' & -> & Hinv')]; [by rewrite Hq|..].
        -- intros [= <-]. by exists ans.
        -- by apply IH.
Qed.

Lemma beam_init_inv (D : Z) (s : ndarray) :
  valid D s → ∃ st, beam_init D s = Ok st ∧ beam_inv D s st ∧
                    b_state st = s ∧ visited st = ∅ ∧
                    total_nodes_evaluated st = 0 ∧
                    ∃ p, priority_queue st = [(p, s)].
Proof.
  intros Hvalid. pose proof Hvalid as (HD & Hsq & _).
  destruct (difference_from_goal_Ok D s HD Hsq) as [d Hd].
  unfold beam_init. rewrite Hd. simpl. eexists. split; [done|].
  split.
  - split_and!; simpl; try done.
    + exists []. constructor.
    + intros it ->%list_elem_of_singleton. simpl. split; [done|].
      exists []. constructor.
  - split_and!; simpl; try done. by eauto.
Qed.

(** X14: on a valid board [beam_search] raises nothing.  Whatever it
    returns is a valid board that moves of [available_actions] lead to
    from the input, with a count of evaluated nodes that is not negative
    and a count of visited boards of at most that count plus one. *)
Theorem beam_search_returns_reachable (D : Z) (rand : nat → nat → nat)
    (fuel : nat) (state : ndarray) (beam_size : Z) (r : result (ndarray * Z * Z)) :
  valid D state →
  beam_search D rand fuel state beam_size = Some r →
  ∃ b n v, r = Ok (b, n, v) ∧ valid D b ∧ (∃ path, follows D state path b) ∧
           0 ≤ n ∧ 0 ≤ v ≤ n + 1.
Proof.
  intros Hvalid Hret. pose proof Hvalid as (HD & _).
  destruct (beam_init_inv D state Hvalid) as (st & Hinit & Hinv & _).
  unfold beam_search in Hret. rewrite Hinit in Hret.
  destruct (beam_loop_inv D rand state fuel beam_size st r HD Hinv Hret)
    as ([[b n] v] & -> & Hb & Hp & Hn & Hv).
  by exists b, n, v.
Qed.

Lemma beam_search_returns_reachable_witness :
  ∃ b n v, Ok (goal3, 4, 2) = Ok (b, n, v) ∧ valid 3 b ∧
           (∃ path, follows 3 one_move3 path b) ∧ 0 ≤ n ∧ 0 ≤ v ≤ n + 1.
Proof.
  apply (beam_search_returns_reachable 3 (λ k n, k) 100 one_move3 4).
  - solve_valid.
  - vm_compute. reflexivity.
Defined.

(** X15: with a beam size of 0 or less, [beam_search] on a valid board
    that is not the goal pops the board, finds the queue empty and returns
    the board it was given, with 0 nodes evaluated and 1 board visited. *)
Theorem beam_search_no_beam (D : Z) (rand : nat → nat → nat)
    (fuel : nat) (state : ndarray) (beam_size : Z) :
  valid D state → is_goal D state = Ok false → beam_size ≤ 0 →
  beam_search D rand (S fuel) state beam_size = Some (Ok (state, 0, 1)).
Proof.
  intros Hvalid Hng Hsize.
  destruct (beam_init_inv D state Hvalid)
    as (st & Hinit & Hinv & Hb & Hv & Hn & p & Hq).
  unfold beam_search. rewrite Hinit. simpl.
  unfold beam_cond. rewrite Hq, Hb, Hng. simpl.
  unfold beam_iter. rewrite Hq. simpl. rewrite Hng. simpl.
  unfold range. rewrite seqZ_nil by lia. simpl.
  destruct fuel; simpl; unfold beam_cond; simpl;
    unfold beam_return; simpl; rewrite Hv, Hn;
    by rewrite (left_id_L ∅ (∪)), size_singleton.
Qed.

Lemma beam_search_no_beam_witness :
  beam_search 3 (λ k n, k) 1 one_move3 0 = Some (Ok (one_move3, 0, 1)).
Proof.
  apply (beam_search_no_beam 3 (λ k n, k) 0 one_move3 0).
  - solve_valid.
  - vm_compute. reflexivity.
  - lia.
Defined.

Lemma valid_board (D : Z) (b : ndarray) : valid D b → b ∈ valid_boards D.
Proof.
  intros (HD & Hsq & Hperm). unfold valid_boards.
  apply elem_of_list_to_set, list_elem_of_omap. exists (mjoin b).
  split; [by apply permutations_Permutation|].
  rewrite <-(Z2Nat.id D) at 1 2 by lia. by rewrite (reshape_join _ _ Hsq).
Qed.

Lemma filter_heappush {A : Type} (P : A → Prop) `{∀ x, Decision (P x)}
    (ltb : A → A → bool) (heap : list A) (x : A) :
  ¬ P x → filter P (heappush ltb heap x) = filter P heap.
Proof.
  intros Hx. induction heap as [|y heap IH]; simpl.
  - by rewrite filter_cons_False.
  - destruct (ltb x y).
    + by rewrite (filter_cons_False _ x).
    + rewrite !filter_cons. by rewrite IH.
Qed.

Lemma beam_try_stale (D : Z) (rand : nat → nat → nat) (st st' : beam) (i : Z) :
  beam_try D rand st i = Ok st' → stale st' = stale st.
Proof.
  unfold beam_try. intros (actions & _ & Hrest)%bind_Ok.
  apply bind_Ok in Hrest as (a & _ & Hrest).
  apply bind_Ok in Hrest as (new_state & _ & Hrest). simpl in Hrest.
  case_bool_decide as Hnew.
  - apply bind_Ok in Hrest as (d & _ & Hrest).
    apply bind_Ok in Hrest as (m & _ & [= <-]).
    unfold stale. simpl. by apply filter_heappush.
  - by injection Hrest as <-.
Qed.

Lemma beam_for_stale (D : Z) (rand : nat → nat → nat) (l : list Z) (st st' : beam) :
  for_each l (beam_try D rand) st = Ok st' → stale st' = stale st.
Proof.
  revert st. induction l as [|i l IH]; intros st; simpl.
  - by intros [= <-].
  - intros (st1 & Htry & Hfor)%bind_Ok.
    rewrite (IH st1 Hfor). by eapply beam_try_stale.
Qed.

(** A turn of the loop of [beam_search] that does not return visits a new
    board, or takes a stale item from the queue and adds none. *)
Lemma beam_iter_decreases (D : Z) (rand : nat → nat → nat) (s : ndarray)
    (beam_size : Z) (st st' : beam) :
  1 ≤ D → beam_inv D s st → visited st ⊆ valid_boards D →
  beam_iter D rand beam_size st = Ok (inl st') →
  beam_inv D s st' ∧ visited st' ⊆ valid_boards D ∧
  ((size (visited st) < size (visited st'))%nat ∨
   (visited st' = visited st ∧ (length (stale st') < length (stale st))%nat)).
Proof.
  intros HD Hinv Hsub. unfold beam_iter.
  destruct (priority_queue st) as [|[priority state_tuple] rest] eqn:Hq; [done|].
  simpl. pose proof (beam_pop_inv D s st priority state_tuple rest Hinv Hq) as Hmid.
  set (mid := {| b_state := state_tuple; priority_queue := rest;
                 visited := visited st ∪ {[state_tuple]};
                 total_nodes_evaluated := total_nodes_evaluated st;
                 draws := draws st |}) in *.
  destruct (is_goal_valid D state_tuple HD) as (g & Hg & Hig).
  rewrite Hig. simpl. case_bool_decide as Hgoal; [done|].
  assert (2 ≤ D) as HD2.
  { apply (not_goal_two D state_tuple); [apply Hmid|done]. }
  destruct (beam_for_inv D rand s (range 0 beam_size) mid HD2 Hmid)
    as (st1 & Hfor & Hinv1 & Hb1 & Hv1).
  rewrite Hfor. simpl. intros [= <-]. split; [done|].
  pose proof (beam_for_stale D rand _ _ _ Hfor) as Hstale.
  assert (state_tuple ∈ valid_boards D) as Hin by (apply valid_board, Hmid).
  rewrite Hv1. simpl. split.
  { apply union_subseteq. split; [done|]. by apply singleton_subseteq_l. }
  destruct (decide (state_tuple ∈ visited st)) as [Hold|Hnew].
  - right.
    assert (visited st ∪ {[state_tuple]} = visited st) as Heq.
    { rewrite (comm_L (∪)). apply subseteq_union_1_L.
      by apply singleton_subseteq_l. }
    split; [done|]. rewrite Hstale. unfold stale. simpl. rewrite Heq, Hq.
    rewrite filter_cons_True by done. simpl. lia.
  - left. rewrite size_union by (by apply disjoint_singleton_r).
    rewrite size_singleton. lia.
Qed.

(** The loop of [beam_search] ends, whatever the random source draws. *)
Lemma beam_loop_terminates (D : Z) (rand : nat → nat → nat) (s : ndarray)
    (beam_size : Z) (st : beam) :
  1 ≤ D → beam_inv D s st → visited st ⊆ valid_boards D →
  ∃ fuel r, beam_loop D rand fuel beam_size st = Some r.
Proof.
  intros HD Hinv Hsub.
  remember (size (valid_boards D) - size (visited st))%nat as m eqn:Hm.
  remember (length (stale st)) as v eqn:Hv.
  revert v st Hinv Hsub Hm Hv.
  induction m as [m IHm] using lt_wf_ind.
  induction v as [v IHv] using lt_wf_ind.
  intros st Hinv Hsub Hm Hv.
  destruct (beam_cond D st) as [[]|e] eqn:Hcond.
  - destruct (beam_iter D rand beam_size st) as [[st'|ans]|e] eqn:Hiter.
    + destruct (beam_iter_decreases D rand s beam_size st st' HD Hinv Hsub Hiter)
        as (Hinv' & Hsub' & [Hgrow|[Hsame Hless]]).
      * destruct (IHm (size (valid_boards D) - size (visited st'))%nat) with
          (v := length (stale st')) (st := st') as (fuel & r & Hloop); try done.
        { pose proof (subseteq_size _ _ Hsub'). lia. }
        exists (S fuel), r. simpl. by rewrite Hcond, Hiter.
      * destruct (IHv (length (stale st'))) with (st := st')
          as (fuel & r & Hloop); try done; [lia|by rewrite Hsame|].
        exists (S fuel), r. simpl. by rewrite Hcond, Hiter.
    + exists 1%nat, (Ok ans). simpl. by rewrite Hcond, Hiter.
    + exists 1%nat, (Raise e). simpl. by rewrite Hcond, Hiter.
  - exists 0%nat. eexists. simpl. by rewrite Hcond.
  - exists 0%nat. eexists. simpl. by rewrite Hcond.
Qed.

Lemma beam_loop_more_fuel (D : Z) (rand : nat → nat → nat) (fuel k : nat)
    (beam_size : Z) (st : beam) (r : result (ndarray * Z * Z)) :
  beam_loop D rand fuel beam_size st = Some r →
  beam_loop D rand (fuel + k) beam_size st = Some r.
Proof.
  revert st. induction fuel as [|fuel IH]; intros st; simpl.
  - destruct (beam_cond D st) as [[]|e] eqn:Hcond; [done|..];
      intros [= <-]; destruct k; simpl; by rewrite Hcond.
  - destruct (beam_cond D st) as [[]|e]; [|done..].
    destruct (beam_iter D rand beam_size st) as [[st'|ans]|e]; [|done..].
    apply IH.
Qed.

(** X16: on a valid board [beam_search] ends, whatever the beam size and
    whatever the random source draws: from some amount of fuel on it
    returns one and the same triple.  A turn of the loop visits a board
    not visited before, or takes from the queue an item that went stale
    (its board was visited after the push) and pushes no such item. *)
Theorem beam_search_terminates (D : Z) (rand : nat → nat → nat)
    (state : ndarray) (beam_size : Z) :
  valid D state →
  ∃ fuel0 b n v, ∀ fuel, (fuel0 ≤ fuel)%nat →
    beam_search D rand fuel state beam_size = Some (Ok (b, n, v)).
Proof.
  intros Hvalid. pose proof Hvalid as (HD & _).
  destruct (beam_init_inv D state Hvalid) as (st & Hinit & Hinv & _ & Hv & _).
  destruct (beam_loop_terminates D rand state beam_size st HD Hinv)
    as (fuel0 & r & Hloop).
  { rewrite Hv. apply empty_subseteq. }
  destruct (beam_loop_inv D rand state fuel0 beam_size st r HD Hinv Hloop)
    as ([[b n] v] & -> & _).
  exists fuel0, b, n, v. intros fuel Hfuel.
  unfold beam_search. rewrite Hinit.
  replace fuel with (fuel0 + (fuel - fuel0))%nat by lia.
  by apply beam_loop_more_fuel.
Qed.

Lemma beam_search_terminates_witness :
  ∃ fuel0 b n v, ∀ fuel, (fuel0 ≤ fuel)%nat →
    beam_search 3 (λ k n, k) fuel one_move3 4 = Some (Ok (b, n, v)).
Proof.
  apply (beam_search_terminates 3 (λ k n, k) one_move3 4). solve_valid.
Defined.

(** ** Where linear_conflict vanishes *)

Lemma sum_app (l1 l2 : list Z) : sum (l1 ++ l2) = sum l1 + sum l2.
Proof.
  induction l1 as [|x l1 IH]; [by rewrite app_nil_l|].
  rewrite <-app_comm_cons, !sum_cons, IH. lia.
Qed.

Lemma sum_zero (l : list Z) :
  Forall (λ v, 0 ≤ v) l → sum l = 0 ↔ Forall (λ v, v = 0) l.
Proof.
  induction 1 as [|x l Hx Hl IH]; [done|].
  rewrite sum_cons, Forall_cons. pose proof (sum_nonneg l Hl). rewrite <-IH. lia.
Qed.

Lemma inversions_cons (x : Z) (l : list Z) :
  inversions (x :: l) =
    sum ((λ y, if bool_decide (x > y) then 1 else 0) <$> l) + inversions l.
Proof.
  unfold inversions. rewrite imap_cons. cbn [mjoin list_join].
  rewrite sum_app. f_equal.
Qed.

Lemma greater_count_zero (x : Z) (l : list Z) :
  0 ≤ sum ((λ y, if bool_decide (x > y) then 1 else 0) <$> l) ∧
  (sum ((λ y, if bool_decide (x > y) then 1 else 0) <$> l) = 0 ↔
   Forall (Z.le x) l).
Proof.
  induction l as [|y l [IH1 IH2]]; [done|].
  rewrite fmap_cons, sum_cons, Forall_cons. case_bool_decide; split; lia || tauto || (rewrite <-IH2; lia).
Qed.

Lemma inversions_zero (l : list Z) :
  inversions l = 0 ↔ Sorted.StronglySorted Z.le l.
Proof.
  induction l as [|x l IH].
  - split; [constructor|done].
  - rewrite inversions_cons. pose proof (inversions_nonneg l).
    destruct (greater_count_zero x l) as [Hc Hz]. split.
    + intros Hsum. constructor; [apply IH; lia | apply Hz; lia].
    + intros Hs. apply Sorted.StronglySorted_inv in Hs as [Hs Hall].
      apply IH in Hs. apply Hz in Hall. lia.
Qed.

Lemma linear_conflict_sum (D : Z) (s : ndarray) :
  square (Z.to_nat D) s →
  linear_conflict D s =
    Ok (sum ((λ i, inversions (default [] (s !! Z.to_nat i)) +
                   inversions (omap (.!! Z.to_nat i) s)) <$> range 0 D)).
Proof.
  intros Hsq. unfold linear_conflict.
  rewrite (for_each_sum _
    (λ i, inversions (default [] (s !! Z.to_nat i)) +
          inversions (omap (.!! Z.to_nat i) s))).
  { by rewrite Z.add_0_l. }
  intros c i Hi%elem_of_range.
  unfold getrow, getcol. rewrite (square_ncols _ _ Hsq).
  pose proof Hsq as [Hlen _]. rewrite Hlen.
  rewrite norm_index_in_range by lia. simpl.
  destruct (lookup_lt_is_Some_2 s (Z.to_nat i)) as [row ->]; [lia|].
  simpl. f_equal. lia.
Qed.

(** X17: on an array of shape [(PUZZLE_DIM, PUZZLE_DIM)]
    [linear_conflict] raises nothing, and what it returns is never
    negative and is 0 exactly when every row and every column is in
    ascending order, the blank counted as the value 0. *)
Theorem linear_conflict_zero (D : Z) (s : ndarray) :
  square (Z.to_nat D) s →
  ∃ c, linear_conflict D s = Ok c ∧ 0 ≤ c ∧
       (c = 0 ↔
        Forall (Sorted.StronglySorted Z.le) s ∧
        ∀ j, (j < Z.to_nat D)%nat →
             Sorted.StronglySorted Z.le (omap (.!! j) s)).
Proof.
  intros Hsq. rewrite linear_conflict_sum by done. eexists. split; [done|].
  assert (Forall (λ v, 0 ≤ v)
            ((λ i, inversions (default [] (s !! Z.to_nat i)) +
                   inversions (omap (.!! Z.to_nat i) s)) <$> range 0 D)) as Hnn.
  { apply Forall_fmap, Forall_forall. intros i _. simpl.
    pose proof (inversions_nonneg (default [] (s !! Z.to_nat i))).
    pose proof (inversions_nonneg (omap (.!! Z.to_nat i) s)). lia. }
  split; [by apply sum_nonneg|]. rewrite (sum_zero _ Hnn).
  rewrite Forall_fmap, Forall_forall. unfold compose. split.
  - intros Hall. split.
    + apply Forall_lookup. intros i row Hrow.
      assert (Z.of_nat i ∈ range 0 D) as Hi.
      { apply elem_of_range. apply lookup_lt_Some in Hrow. destruct Hsq. lia. }
      specialize (Hall _ Hi). rewrite Nat2Z.id, Hrow in Hall. simpl in Hall.
      pose proof (inversions_nonneg row).
      pose proof (inversions_nonneg (omap (.!! i) s)).
      apply inversions_zero. lia.
    + intros j Hj.
      assert (Z.of_nat j ∈ range 0 D) as Hi by (apply elem_of_range; lia).
      specialize (Hall _ Hi). rewrite Nat2Z.id in Hall.
      pose proof (inversions_nonneg (default [] (s !! j))).
      pose proof (inversions_nonneg (omap (.!! j) s)).
      apply inversions_zero. lia.
  - intros [Hrows Hcols] i Hi%elem_of_range.
    destruct (lookup_lt_is_Some_2 s (Z.to_nat i)) as [row Hrow];
      [destruct Hsq; lia|].
    rewrite Hrow. simpl.
    rewrite (proj2 (inversions_zero row)) by by eapply Forall_lookup_1 in Hrows.
    rewrite (proj2 (inversions_zero _)) by (apply Hcols; lia). done.
Qed.

Lemma linear_conflict_zero_witness :
  ∃ c, linear_conflict 3 goal3 = Ok c ∧ 0 ≤ c ∧
       (c = 0 ↔
        Forall (Sorted.StronglySorted Z.le) goal3 ∧
        ∀ j, (j < Z.to_nat 3)%nat →
             Sorted.StronglySorted Z.le (omap (.!! j) goal3)).
Proof.
  apply (linear_conflict_zero 3 goal3).
  split; [reflexivity | repeat constructor].
Defined.

(** ** Where manhattan_distance vanishes *)

Lemma sum_fmap_zero {A : Type} (l : list A) (f : A → Z) :
  (∀ x, x ∈ l → 0 ≤ f x) →
  sum (f <$> l) = 0 ↔ ∀ x, x ∈ l → f x = 0.
Proof.
  intros Hnn. rewrite sum_zero.
  - rewrite Forall_fmap, Forall_forall. done.
  - apply Forall_fmap, Forall_forall. done.
Qed.

Lemma grid_sum_zero (D : Z) (f : pos → Z) :
  (∀ p, in_grid D p → 0 ≤ f p) →
  grid_sum D f = 0 ↔ ∀ p, in_grid D p → f p = 0.
Proof.
  intros Hnn. unfold grid_sum. rewrite sum_fmap_zero.
  - split.
    + intros Hall [x y] [Hx Hy]. simpl in *.
      specialize (Hall x ltac:(by apply elem_of_range)). simpl in Hall.
      rewrite sum_fmap_zero in Hall.
      * apply (Hall y). by apply elem_of_range.
      * intros y' Hy'%elem_of_range. by apply Hnn.
    + intros Hall x Hx%elem_of_range. apply sum_fmap_zero.
      * intros y Hy%elem_of_range. by apply Hnn.
      * intros y Hy%elem_of_range. by apply Hall.
  - intros x Hx%elem_of_range. apply sum_nonneg, Forall_fmap, Forall_forall.
    intros y Hy%elem_of_range. by apply Hnn.
Qed.

Lemma tile_distance_nonneg (D : Z) (p : pos) (v : Z) : 0 ≤ tile_distance D p v.
Proof. unfold tile_distance. case_bool_decide; lia. Qed.

Lemma cell_div (D x y : Z) : 0 ≤ y < D → (x * D + y) `div` D = x.
Proof. intros. rewrite Z.div_add_l, Z.div_small; lia. Qed.

Lemma cell_mod (D x y : Z) : 0 ≤ y < D → (x * D + y) `mod` D = y.
Proof. intros. rewrite Z.add_comm, Z_mod_plus_full, Z.mod_small; lia. Qed.

Lemma tile_distance_zero (D : Z) (p : pos) (v : Z) :
  1 ≤ D → in_grid D p →
  tile_distance D p v = 0 ↔ v = 0 ∨ v = p.1 * D + p.2.
Proof.
  intros HD [Hx Hy]. unfold tile_distance. case_bool_decide as Hv; [tauto|].
  split.
  - intros Hz. right. rewrite (Z.div_mod v D) at 1 by lia. nia.
  - intros [? | ->]; [done|].
    rewrite (cell_div D p.1 p.2), (cell_mod D p.1 p.2) by lia. lia.
Qed.

(** The values of a square array, cell by cell *)
Lemma join_value_at (D : Z) (s : ndarray) (k : nat) :
  1 ≤ D → square (Z.to_nat D) s → (k < Z.to_nat D * Z.to_nat D)%nat →
  mjoin s !! k = Some (value_at s (Z.of_nat k `div` D, Z.of_nat k `mod` D)).
Proof.
  intros HD Hsq Hk. rewrite (join_cell (Z.to_nat D)) by (done || lia).
  unfold value_at. simpl.
  assert (Z.to_nat (Z.of_nat k `div` D) = (k `div` Z.to_nat D)%nat) as ->.
  { rewrite <-(Z2Nat.id D) at 1 by lia. by rewrite <-Nat2Z.inj_div, Nat2Z.id. }
  assert (Z.to_nat (Z.of_nat k `mod` D) = (k `mod` Z.to_nat D)%nat) as ->.
  { rewrite <-(Z2Nat.id D) at 1 by lia. by rewrite <-Nat2Z.inj_mod, Nat2Z.id. }
  destruct (square_cell (Z.to_nat D) s (k `div` Z.to_nat D) (k `mod` Z.to_nat D))
    as [v ->]; [done| |by apply Nat.mod_upper_bound; lia|done].
  apply Nat.Div0.div_lt_upper_bound. lia.
Qed.

Lemma manhattan_distance_zero_iff (D : Z) (s : ndarray) :
  valid D s →
  manhattan_distance D s = Ok 0 ↔ mjoin s = range 0 (D ^ 2).
Proof.
  intros Hvalid. pose proof Hvalid as (HD & Hsq & Hperm).
  rewrite (manhattan_distance_sum D s) by (done || by apply valid_values).
  assert (length (mjoin s) = (Z.to_nat D * Z.to_nat D)%nat) as Hlen.
  { rewrite (sum_list_length_rows (Z.to_nat D)) by apply Hsq.
    destruct Hsq as [-> _]. done. }
  assert (∀ p, in_grid D p →
            mjoin s !! Z.to_nat (p.1 * D + p.2) = Some (value_at s p)) as Hat.
  { intros [x y] [Hx Hy]. simpl in *.
    rewrite (join_value_at D) by (done || nia). rewrite Z2Nat.id by nia.
    by rewrite cell_div, cell_mod by lia. }
  split.
  - intros [= Hz].
    rewrite grid_sum_zero in Hz by (intros; apply tile_distance_nonneg).
    destruct (valid_blank _ _ Hvalid) as (p0 & Hw & Hp0 & Hget0).
    assert (∀ q, in_grid D q → value_at s q = 0 → q = p0) as Huniq.
    { intros q Hq Hq0.
      assert (q ∈ where_zero s) as Hin;
        [|rewrite Hw in Hin; by apply list_elem_of_singleton in Hin].
      apply where_zero_from_spec. exists (Z.to_nat q.1), (Z.to_nat q.2).
      destruct Hq as [? ?]. split; [destruct q; simpl in *; f_equal; lia|].
      unfold value_at in Hq0.
      destruct (square_cell (Z.to_nat D) s (Z.to_nat q.1) (Z.to_nat q.2))
        as [v Hv]; [done | lia.. |].
      rewrite Hv in Hq0 |- *. simpl in Hq0. by subst. }
    assert (in_grid D (0, 0)) as H00 by (split; simpl; lia).
    assert (p0 = (0, 0)) as ->.
    { symmetry. apply Huniq; [done|].
      pose proof (Hz _ H00) as Hz0.
      apply tile_distance_zero in Hz0 as [?|?]; simpl in *; [done|lia|done..]. }
    assert (∀ p, in_grid D p → value_at s p = p.1 * D + p.2) as Hval.
    { intros p Hp. pose proof (Hz p Hp) as Hzp.
      apply tile_distance_zero in Hzp as [Hzp|Hzp]; [|done..].
      rewrite (Huniq p Hp Hzp) in Hzp |- *. simpl. lia. }
    apply list_eq_same_length with (Z.to_nat D * Z.to_nat D)%nat.
    + unfold range. rewrite length_seqZ. nia.
    + done.
    + intros k x y Hk Hx Hy.
      apply lookup_seqZ in Hy as [-> _].
      rewrite (join_value_at D) in Hx by done. injection Hx as <-.
      rewrite Hval; simpl.
      * rewrite (Z.div_mod (Z.of_nat k) D) at 3 by lia. lia.
      * split; simpl; [|by apply Z.mod_pos_bound; lia].
        split; [apply Z.div_pos; lia|]. apply Z.div_lt_upper_bound; nia.
  - intros Hjoin. f_equal.
    apply grid_sum_zero; [intros; apply tile_distance_nonneg|].
    intros p Hp. apply tile_distance_zero; [done..|]. right.
    pose proof (Hat p Hp) as Hp'. rewrite Hjoin in Hp'.
    apply lookup_seqZ in Hp' as [Hp' _]. destruct Hp as [? ?].
    rewrite Z2Nat.id in Hp' by nia. lia.
Qed.

Lemma legal_replay_follows (D : Z) (s b : ndarray) (path : list Action) :
  legal_replay D s path = Ok b → follows D s path b.
Proof.
  revert s. induction path as [|a path IH]; intros s; simpl.
  - intros [= <-]. constructor.
  - intros (actions & Hact & Hrest)%bind_Ok.
    case_bool_decide as Ha; [|done].
    apply bind_Ok in Hrest as (s' & Hdo & Hrest).
    eapply follows_cons; [done..|]. by apply IH.
Qed.

Lemma goal_join (D : Z) (g : ndarray) :
  1 ≤ D → goal D = Ok g → mjoin g = range 1 (D ^ 2) ++ [0].
Proof.
  intros HD. unfold goal, reshape.
  assert (length (range 1 (D ^ 2) ++ [0]) = (Z.to_nat D * Z.to_nat D)%nat) as Hlen.
  { rewrite length_app. unfold range. rewrite length_seqZ. simpl. nia. }
  rewrite bool_decide_eq_true_2 by (rewrite Hlen; lia).
  intros [= <-]. by apply join_chunks.
Qed.

(** X18: on a valid board [manhattan_distance] is 0 exactly when the
    board, read row by row, is [0, 1, ..., PUZZLE_DIM² - 1], the blank
    first; so it is not 0 on the goal of [is_goal] when the grid has two
    rows or more. *)
Theorem manhattan_distance_zero (D : Z) (s : ndarray) :
  valid D s →
  (manhattan_distance D s = Ok 0 ↔ mjoin s = range 0 (D ^ 2)) ∧
  (2 ≤ D → is_goal D s = Ok true → manhattan_distance D s ≠ Ok 0).
Proof.
  intros Hvalid. split; [by apply manhattan_distance_zero_iff|].
  intros HD Hgoal%is_goal_true Hz.
  apply manhattan_distance_zero_iff in Hz; [|done].
  rewrite (goal_join D s) in Hz by (done || lia).
  unfold range in Hz. rewrite (seqZ_cons 1), (seqZ_cons 0) in Hz by nia.
  rewrite <-app_comm_cons in Hz. by injection Hz.
Qed.

Lemma manhattan_distance_zero_witness :
  manhattan_distance 3 goal3 = Ok 0 ↔ mjoin goal3 = range 0 (3 ^ 2).
Proof.
  refine (proj1 (manhattan_distance_zero 3 goal3 _)). solve_valid.
Defined.

(** ** A_star and shortest paths *)

Lemma A_star_loop_more_fuel (D : Z) (fuel k : nat) (r c : Z) (st : astar)
    (res : result answer) :
  A_star_loop D fuel r c st = Some res →
  A_star_loop D (fuel + k) r c st = Some res.
Proof.
  revert st. induction fuel as [|fuel IH]; intros st; simpl; [done|].
  destruct (A_star_iter D r c st) as [[st'|ans]|e]; [|done..]. apply IH.
Qed.

Lemma A_star_more_fuel (D : Z) (fuel k : nat) (s : ndarray)
    (res : result answer) :
  A_star D fuel s = Some res → A_star D (fuel + k) s = Some res.
Proof.
  unfold A_star. destruct (A_star_init D s); [|done].
  apply A_star_loop_more_fuel.
Qed.

(** X19: [A_star] does not always return a shortest path.  For the
    board [[1,2,3],[7,0,6],[5,4,8]], which six moves lead to from the goal
    and back, it returns a path of eight moves, with any fuel of 50 or
    more. *)
Theorem A_star_not_shortest :
  ∃ b path short,
    reachable 3 6 b ∧ follows 3 b short goal3 ∧ length short = 6%nat ∧
    length path = 8%nat ∧
    ∀ k, A_star 3 (50 + k) b = Some (Ok (Some path, 8, 45)).
Proof.
  exists detour3,
    [action (1, 1) (1, 0); action (1, 0) (2, 0); action (2, 0) (2, 1);
     action (2, 1) (1, 1); action (1, 1) (1, 0); action (1, 0) (2, 0);
     action (2, 0) (2, 1); action (2, 1) (2, 2)],
    [action (1, 1) (2, 1); action (2, 1) (2, 0); action (2, 0) (1, 0);
     action (1, 0) (1, 1); action (1, 1) (2, 1); action (2, 1) (2, 2)].
  split_and!; [| | reflexivity | reflexivity |].
  - assert (reachable 3 0 goal3) as H0 by (by constructor).
    assert (reachable 3 1 [[1;2;3];[4;5;6];[7;0;8]]) as H1.
    { eapply (reachable_move 3 0 goal3 _ (action (2, 2) (2, 1))); [done|reflexivity| |reflexivity].
      right; left. }
    assert (reachable 3 2 [[1;2;3];[4;0;6];[7;5;8]]) as H2.
    { eapply (reachable_move 3 1 _ _ (action (2, 1) (1, 1))); [exact H1|reflexivity| |reflexivity].
      left. }
    assert (reachable 3 3 [[1;2;3];[0;4;6];[7;5;8]]) as H3.
    { eapply (reachable_move 3 2 _ _ (action (1, 1) (1, 0))); [exact H2|reflexivity| |reflexivity].
      do 2 right; left. }
    assert (reachable 3 4 [[1;2;3];[7;4;6];[0;5;8]]) as H4.
    { eapply (reachable_move 3 3 _ _ (action (1, 0) (2, 0))); [exact H3|reflexivity| |reflexivity].
      right; left. }
    assert (reachable 3 5 [[1;2;3];[7;4;6];[5;0;8]]) as H5.
    { eapply (reachable_move 3 4 _ _ (action (2, 0) (2, 1))); [exact H4|reflexivity| |reflexivity].
      right; left. }
    eapply (reachable_move 3 5 _ _ (action (2, 1) (1, 1))); [exact H5|reflexivity| |reflexivity].
    left.
  - apply legal_replay_follows. vm_compute. reflexivity.
  - intros k. apply A_star_more_fuel. vm_compute. reflexivity.
Qed.

(** ** More on the answers of A_star *)

(** X20: whatever [A_star] returns for a valid board, path or failure, the
    third component, [len(closed_set)], is at least 1 and at most the
    number of keys of valid boards. *)
Theorem A_star_cost_bounds (D : Z) (fuel : nat) (initial_state : ndarray)
    (path : option (list Action)) (quality cost : Z) :
  valid D initial_state → D ^ 2 ≤ 2 ^ 63 →
  A_star D fuel initial_state = Some (Ok (path, quality, cost)) →
  1 ≤ cost ≤ Z.of_nat (size (valid_keys D)).
Proof.
  intros Hvalid Hbound Hret.
  destruct (A_star_unfold D fuel initial_state Hvalid) as (md & _ & Heq).
  rewrite Heq in Hret. pose proof Hvalid as (HD & _).
  destruct (A_star_loop_run D initial_state fuel _ _ HD Hbound
              (start_run_inv D initial_state md Hvalid) Hret)
    as (last & ans & [= <-] & Hinv & Hiter).
  assert (cost = Z.of_nat (size (closed_set last))) as ->.
  { destruct (A_star_iter_run D initial_state last HD Hbound Hinv)
      as [[Hnil Hiter']|[(item & rest & g & Hpop & Hg & Hpath & Hiter')
                        |(st' & Hiter' & _)]];
      rewrite Hiter' in Hiter; by simplify_eq. }
  destruct Hinv as (_ & Hclosed & _ & Hs).
  pose proof (subseteq_size _ _ Hclosed).
  assert (1 ≤ size (closed_set last))%nat; [|lia].
  rewrite <-(size_singleton (C := gset (list Z)) (tobytes initial_state)).
  by apply subseteq_size, singleton_subseteq_l.
Qed.

Lemma A_star_cost_bounds_witness :
  1 ≤ 12 ≤ Z.of_nat (size (valid_keys 2)).
Proof.
  apply (A_star_cost_bounds 2 13 unsolvable2 None (-1) 12).
  - solve_valid.
  - by vm_compute.
  - vm_compute. reflexivity.
Defined.

(** X21: on a valid board that is the goal [A_star] returns in the first
    turn of its loop, with the empty path, quality 0 and cost 1. *)
Theorem A_star_goal (D : Z) (fuel : nat) (initial_state : ndarray) :
  valid D initial_state → D ^ 2 ≤ 2 ^ 63 →
  is_goal D initial_state = Ok true →
  A_star D (S fuel) initial_state = Some (Ok (Some [], 0, 1)).
Proof.
  intros Hvalid Hbound Hgoal.
  destruct (A_star_unfold D (S fuel) initial_state Hvalid) as (md & _ & ->).
  assert (A_star_iter D D D (start md initial_state) = Ok (inr (Some [], 0, 1)))
    as Hiter; [|by cbn [A_star_loop]; rewrite Hiter].
  unfold A_star_iter, start. cbn [open_list heappop e_bytes e_path closed_set].
  pose proof (decode_tobytes D initial_state Hvalid Hbound) as Hdecode.
  apply bind_Ok in Hdecode as (flat & -> & Hb).
  cbn [mbind result_bind]. rewrite Hb. cbn [mbind result_bind].
  rewrite Hgoal. cbn [mbind result_bind].
  by rewrite (left_id_L ∅ (∪)), size_singleton.
Qed.

Lemma A_star_goal_witness :
  A_star 3 1 goal3 = Some (Ok (Some [], 0, 1)).
Proof.
  apply (A_star_goal 3 0 goal3).
  - solve_valid.
  - by vm_compute.
  - vm_compute. reflexivity.
Defined.

(** ** What a turn of the loop of A_star pushes *)

Lemma heappush_Permutation {A : Type} (ltb : A → A → bool) (heap : list A) (x : A) :
  heappush ltb heap x ≡ₚ heap ++ [x].
Proof.
  induction heap as [|y heap IH]; simpl; [done|].
  destruct (ltb x y).
  - apply (Permutation_cons_append (y :: heap)).
  - by rewrite IH.
Qed.

(** Two moves of [available_actions] that lead to boards with the same key
    are one move. *)
Lemma successor_key_inj (D : Z) (b b1 b2 : ndarray) (actions : list Action)
    (a1 a2 : Action) :
  D ^ 2 ≤ 2 ^ 63 → valid D b → available_actions D b = Ok actions →
  a1 ∈ actions → a2 ∈ actions →
  do_action b a1 = Ok b1 → do_action b a2 = Ok b2 →
  tobytes b1 = tobytes b2 → a1 = a2.
Proof.
  intros Hbound Hvalid Hact Ha1 Ha2 Hdo1 Hdo2 Hkey.
  destruct (legal_move_result _ _ _ _ _ Hvalid Hact Ha1 Hdo1)
    as (Hv1 & Hw1 & Hw1' & _).
  destruct (legal_move_result _ _ _ _ _ Hvalid Hact Ha2 Hdo2)
    as (Hv2 & Hw2 & Hw2' & _).
  assert (b1 = b2) as -> by (by apply (valid_tobytes_inj D)).
  destruct a1, a2. simpl in *. congruence.
Qed.

Lemma expand_all (D : Z) (current_state : ndarray) (path : list Action)
    (actions : list Action) :
  D ^ 2 ≤ 2 ^ 63 → valid D current_state →
  available_actions D current_state = Ok actions →
  ∀ l st, l ⊆ actions →
    ∃ st' new,
      for_each l (expand D current_state path) st = Ok st' ∧
      pushed st' = pushed st ++ new ∧
      open_list st' ≡ₚ open_list st ++ new ∧
      (∀ k, k ∈ closed_set st' ↔ k ∈ closed_set st ∨ k ∈ e_bytes <$> new) ∧
      NoDup new ∧
      ∀ e, e ∈ new ↔ successor_item D current_state path (closed_set st) l e.
Proof.
  intros Hbound Hvalid Hact. induction l as [|a l IH]; intros st Hl.
  - exists st, []. simpl. rewrite !app_nil_r. split_and!; try done.
    + intros k. rewrite elem_of_nil. tauto.
    + constructor.
    + intros e. split; [by intros ?%elem_of_nil|].
      by intros (a & ? & ? & ? & ?%elem_of_nil & _).
  - assert (a ∈ actions) as Ha by (apply Hl; left).
    assert (l ⊆ actions) as Hl' by (intros x ?; apply Hl; by right).
    destruct (expand_successor D current_state path actions st a Hvalid Hact Ha)
      as (next_state & md & lc & Hdo & Hvalid' & Hmd & Hlc & Hexp).
    simpl in Hexp. cbn [for_each]. rewrite Hexp. cbn [mbind result_bind].
    case_bool_decide as Hin.
    + destruct (IH st Hl') as (st' & new & Hfor & Hp & Ho & Hc & Hnd & Hnew).
      exists st', new. split_and!; try done.
      intros e. rewrite Hnew. split.
      * intros (a' & n' & md' & lc' & ? & ?). exists a', n', md', lc'.
        split; [by right | done].
      * intros (a' & n' & md' & lc' & [->|Ha']%elem_of_cons & Hdo' & Hnin & Hrest).
        -- assert (n' = next_state) as -> by congruence. done.
        -- by exists a', n', md', lc'.
    + set (item := Entry (Z.of_nat (length path) + 1 + (md + 2 * lc))
                     (tobytes next_state) (path ++ [a])) in *.
      destruct (IH {| open_list := heappush entry_ltb (open_list st) item;
                      closed_set := closed_set st ∪ {[tobytes next_state]};
                      pushed := pushed st ++ [item] |} Hl')
        as (st' & new & Hfor & Hp & Ho & Hc & Hnd & Hnew).
      cbn [open_list closed_set pushed] in *.
      assert (item ∉ new) as Hitem.
      { intros (a' & n' & md' & lc' & _ & _ & Hnin & _ & _ & Heq)%Hnew.
        apply Hnin. apply elem_of_union_r, elem_of_singleton.
        unfold item in Heq. congruence. }
      exists st', (item :: new). split_and!.
      * done.
      * by rewrite Hp, <-app_assoc.
      * by rewrite Ho, heappush_Permutation, <-app_assoc.
      * intros k. rewrite Hc, fmap_cons, elem_of_cons, elem_of_union,
          elem_of_singleton. simpl. tauto.
      * by constructor.
      * intros e. rewrite elem_of_cons, Hnew. split.
        -- intros [->|(a' & n' & md' & lc' & ? & ? & Hnin & ? & ? & ?)].
           ++ exists a, next_state, md, lc. split_and!; try done. left.
           ++ exists a', n', md', lc'. split_and!; try done; [by right|].
              intros ?. apply Hnin. by apply elem_of_union_l.
        -- intros (a' & n' & md' & lc' & [->|Ha']%elem_of_cons & Hdo' & Hnin
                   & Hmd' & Hlc' & ->).
           ++ left. assert (n' = next_state) as -> by congruence.
              unfold item. congruence.
           ++ destruct (decide (tobytes n' = tobytes next_state)) as [Heq|Hne].
              ** left.
                 assert (a' = a) as ->.
                 { apply (successor_key_inj D current_state n' next_state actions);
                     auto. }
                 assert (n' = next_state) as -> by congruence.
                 unfold item. congruence.
              ** right. exists a', n', md', lc'. split_and!; try done.
                 rewrite elem_of_union, elem_of_singleton. tauto.
Qed.

(** C4: a turn of the loop that pops [(f, key, path)], decodes the key
    to the valid board [current_state] and finds that it is not the goal
    raises nothing and leaves the loop running.  The items [new] that it
    gave to [heappush] are in the open list afterwards, beside what was
    left of it after the pop, and their keys have joined the closed set.
    They are pairwise different, and they are exactly the items
    [(g + h, key of next_state, path + [action])] with [g = len(path) + 1]
    and [h = manhattan_distance(next_state) + 2 * linear_conflict(next_state)],
    one for each move of [available_actions] whose successor [next_state]
    had its key outside the closed set (at the start of the turn or at the
    time of the test, which is the same: the successors of one board have
    different keys). *)
Theorem A_star_priority (D r c : Z) (st : astar) (item : entry)
    (rest : list entry) (current_state : ndarray) (actions : list Action) :
  D ^ 2 ≤ 2 ^ 63 →
  heappop (open_list st) = Some (item, rest) →
  frombuffer (e_bytes item) ≫= reshape r c = Ok current_state →
  valid D current_state →
  is_goal D current_state = Ok false →
  available_actions D current_state = Ok actions →
  let path := e_path item in
  ∃ st' new,
    A_star_iter D r c st = Ok (inl st') ∧
    pushed st' = pushed st ++ new ∧
    open_list st' ≡ₚ rest ++ new ∧
    (∀ k, k ∈ closed_set st' ↔ k ∈ closed_set st ∨ k ∈ e_bytes <$> new) ∧
    NoDup new ∧
    (∀ a, a ∈ actions → ∃ next_state, do_action current_state a = Ok next_state) ∧
    ∀ e, e ∈ new ↔
      ∃ a next_state md lc,
        a ∈ actions ∧ do_action current_state a = Ok next_state ∧
        (tobytes next_state ∉ closed_set st) ∧
        manhattan_distance D next_state = Ok md ∧
        linear_conflict D next_state = Ok lc ∧
        let g := Z.of_nat (length path) + 1 in
        let h := md + 2 * lc in
        e = Entry (g + h) (tobytes next_state) (path ++ [a]).
Proof.
  intros Hbound Hpop Hdecode Hvalid Hgoal Hact path.
  destruct (expand_all D current_state path actions Hbound Hvalid Hact actions
              {| open_list := rest; closed_set := closed_set st;
                 pushed := pushed st |})
    as (st' & new & Hfor & Hp & Ho & Hc & Hnd & Hnew); [done|].
  exists st', new. split_and!; try done.
  - unfold A_star_iter. rewrite Hpop.
    apply bind_Ok in Hdecode as (flat & -> & Hcur). simpl.
    rewrite Hcur. simpl. rewrite Hgoal. simpl. rewrite Hact. simpl.
    fold path. by rewrite Hfor.
  - intros a Ha.
    destruct (expand_successor D current_state path actions st a Hvalid Hact Ha)
      as (next_state & _ & _ & ? & _). by exists next_state.
Qed.

Lemma A_star_priority_witness :
  ∃ st', A_star_iter 3 3 3 (start 11 one_move3) = Ok (inl st') ∧
         Entry 21 (tobytes goal3) [action (1, 2) (2, 2)] ∈ open_list st'.
Proof.
  destruct (A_star_priority 3 3 3 (start 11 one_move3)
              (Entry 11 (tobytes one_move3) []) [] one_move3
              [action (1, 2) (0, 2); action (1, 2) (2, 2); action (1, 2) (1, 1)])
    as (st' & new & Hiter & _ & Hopen & _ & _ & _ & Hnew).
  - by vm_compute.
  - reflexivity.
  - vm_compute. reflexivity.
  - solve_valid.
  - vm_compute. reflexivity.
  - vm_compute. reflexivity.
  - exists st'. split; [exact Hiter|].
    rewrite Hopen. simpl. apply Hnew.
    exists (action (1, 2) (2, 2)), goal3, 12, 4. split_and!.
    + right. left.
    + reflexivity.
    + unfold start. cbn [closed_set].
      rewrite elem_of_union, elem_of_singleton.
      intros [[]%elem_of_empty|Heq]. vm_compute in Heq. discriminate Heq.
    + vm_compute. reflexivity.
    + vm_compute. reflexivity.
    + reflexivity.
Defined.
